(** * HTTP caching proxy: request and response parsers, LRU response cache

    A shallow embedding of [request.cpp], [response.cpp], [cache.cpp] and of
    the parts of [proxy.cpp] that decide what is cached, logged and sent
    ([handleCaching], [sendErrorResponse], [handleChunkResponse], the dispatch
    of [receiveClient], the request [processGet] builds to revalidate), with
    the properties of the specification (C1 to C10) and further properties of
    the code (X1 to X24) stated over it.

    Conventions.
    - [std::string] is [string]; a [size_t] result that may be [npos] is an
      [option nat] ([None] is [npos]).
    - [int] fields are [Z]; the only places where the range of [int] matters
      ([operator>>] into an [int], [std::stoi]) clamp or fail explicitly.
    - [std::map<string,string>] and [std::unordered_map<string,CacheEntry>] are
      [gmap string _]; a loop over the ordered map visits the entries sorted
      by key, a loop over the unordered one is a fold in the order the
      library chooses.
    - An input string stream that is only read with [getline] is the list of
      lines the successive calls return.
    - A C++ exception leaving a function is the result [None].
    - A socket that is read is the list of what the successive calls of
      [recv] return (the empty string for a result that is not positive); what
      is written to a socket is the list of the buffers sent.
    - Time points are integers (ticks of the system clock); the calendar
      conversions of the C library are parameters of the development. *)

From Stdlib Require Import ZArith Ascii String List Lia.
From stdpp Require Import base tactics option list sorting gmap strings fin_maps.

Local Open Scope Z_scope.

Set Default Proof Using "Type".

(** ** Strings: the [std::string] operations the sources use *)

Module Str.

(** [s.find(c)] *)
Fixpoint find_char (c : ascii) (s : string) : option nat :=
  match s with
  | EmptyString => None
  | String a s' => if decide (a = c) then Some 0%nat else S <$> find_char c s'
  end.

(** [s.find(pat)]: index of the first occurrence of [pat] *)
Fixpoint find (pat s : string) : option nat :=
  if String.prefix pat s then Some 0%nat
  else match s with
       | EmptyString => None
       | String _ s' => S <$> find pat s'
       end.

(** [s.substr(0, n)] *)
Fixpoint take (n : nat) (s : string) : string :=
  match n, s with
  | S n', String a s' => String a (take n' s')
  | _, _ => EmptyString
  end.

(** the characters of [s] from position [n] on, empty when [n] is past the end *)
Fixpoint drop (n : nat) (s : string) : string :=
  match n, s with
  | S n', String _ s' => drop n' s'
  | _, _ => s
  end.

(** [s.substr(n)]: throws [out_of_range] when [n > s.size()] *)
Fixpoint substr (n : nat) (s : string) : option string :=
  match n, s with
  | O, _ => Some s
  | S _, EmptyString => None
  | S n', String _ s' => substr n' s'
  end.

(** [s.find_first_not_of(c)] for a one-character set *)
Fixpoint find_first_not_of (c : ascii) (s : string) : option nat :=
  match s with
  | EmptyString => None
  | String a s' =>
      if decide (a = c) then S <$> find_first_not_of c s' else Some 0%nat
  end.

(** [s.find_last_not_of(c)] for a one-character set *)
Fixpoint find_last_not_of (c : ascii) (s : string) : option nat :=
  match s with
  | EmptyString => None
  | String a s' =>
      match find_last_not_of c s' with
      | Some i => Some (S i)
      | None => if decide (a = c) then None else Some 0%nat
      end
  end.

(** [s.erase(0, n)]; with [n = npos] everything goes *)
Definition erase_front (n : option nat) (s : string) : string :=
  match n with
  | None => EmptyString
  | Some k => drop k s
  end.

(** [s.erase(p + 1)] where [p] is a [size_t]: [npos + 1] wraps around to 0 *)
Definition erase_after (p : option nat) (s : string) : string :=
  match p with
  | None => take 0 s
  | Some i => take (S i) s
  end.

(** the lines that successive [getline(stream, line, delim)] calls deliver
    until the call fails *)
Fixpoint getlines (delim : ascii) (s : string) : list string :=
  match s with
  | EmptyString => []
  | String a s' =>
      if decide (a = delim) then EmptyString :: getlines delim s'
      else match getlines delim s' with
           | [] => [String a EmptyString]
           | l :: ls => String a l :: ls
           end
  end.

Fixpoint skip_ws (s : string) : string :=
  match s with
  | String a s' => if Ascii.is_space a then skip_ws s' else s
  | EmptyString => EmptyString
  end.

(** the longest prefix without white space, and the rest *)
Fixpoint span_word (s : string) : string * string :=
  match s with
  | String a s' =>
      if Ascii.is_space a then (EmptyString, s)
      else let '(w, r) := span_word s' in (String a w, r)
  | EmptyString => (EmptyString, EmptyString)
  end.

(** [stream >> word] on a stream holding [s]: [None] when the extraction
    fails, else the word and what is left in the stream *)
Definition extract_word (s : string) : option (string * string) :=
  match span_word (skip_ws s) with
  | (EmptyString, _) => None
  | (w, r) => Some (w, r)
  end.

Fixpoint read_digits (acc : Z) (s : string) : Z * string :=
  match s with
  | String a s' =>
      match Ascii.is_nat a with
      | Some d => read_digits (acc * 10 + Z.of_nat d) s'
      | None => (acc, s)
      end
  | EmptyString => (acc, EmptyString)
  end.

Definition starts_with_digit (s : string) : bool :=
  match s with
  | String a _ => bool_decide (is_Some (Ascii.is_nat a))
  | EmptyString => false
  end.

(** an optional sign followed by at least one decimal digit *)
Definition scan_int (s : string) : option (Z * string) :=
  let '(neg, s1) :=
    match s with
    | String a t =>
        if decide (a = "-"%char) then (true, t)
        else if decide (a = "+"%char) then (false, t)
        else (false, s)
    | EmptyString => (false, s)
    end in
  if starts_with_digit s1 then
    let '(v, r) := read_digits 0 s1 in Some (if neg then - v else v, r)
  else None.

Definition INT_MAX : Z := 2147483647.
Definition INT_MIN : Z := -2147483648.

(** [stream >> n] for an [int n] on a stream holding [s]. [IntOk n rest]:
    success. [IntFail n]: the stream is marked failed and the variable
    receives [n] (0 when no number is there, the nearest bound when the number
    does not fit). [IntEof]: nothing but white space was left, the stream is
    marked failed and the variable keeps its value. *)
Inductive int_extraction :=
| IntOk (n : Z) (rest : string)
| IntFail (n : Z)
| IntEof.

Definition extract_int (s : string) : int_extraction :=
  match skip_ws s with
  | EmptyString => IntEof
  | s1 =>
      match scan_int s1 with
      | None => IntFail 0
      | Some (v, r) =>
          if decide (INT_MAX < v) then IntFail INT_MAX
          else if decide (v < INT_MIN) then IntFail INT_MIN
          else IntOk v r
      end
  end.

(** [std::stoi(s)]: [None] for [invalid_argument] and [out_of_range] *)
Definition stoi (s : string) : option Z :=
  match scan_int (skip_ws s) with
  | None => None
  | Some (v, _) =>
      if decide (INT_MIN ≤ v ≤ INT_MAX) then Some v else None
  end.

Definition digit_char (d : Z) : ascii :=
  ascii_of_nat (48 + Z.to_nat d).
Global Arguments digit_char : simpl never.

Fixpoint digits_go (fuel : nat) (n : Z) (acc : string) : string :=
  match fuel with
  | O => acc
  | S fuel' =>
      let acc' := String (digit_char (n mod 10)) acc in
      if decide (n / 10 = 0) then acc' else digits_go fuel' (n / 10) acc'
  end.

(** decimal digits of a natural number; it has at most [log2 n + 1] of them *)
Definition digits (n : Z) : string :=
  digits_go (S (Z.to_nat (Z.log2 n))) n EmptyString.

(** [stream << n] and [std::to_string(n)] *)
Definition of_int (n : Z) : string :=
  if decide (n < 0) then String "-"%char (digits (- n)) else digits n.

(** [if (!s.empty() && s.back() == c) s.pop_back()] *)
Fixpoint pop_back_if (c : ascii) (s : string) : string :=
  match s with
  | EmptyString => EmptyString
  | String a s' =>
      match s' with
      | EmptyString => if decide (a = c) then EmptyString else s
      | String _ _ => String a (pop_back_if c s')
      end
  end.

(** [s.find_last_not_of(set)] for a set of several characters *)
Fixpoint find_last_not_in (set s : string) : option nat :=
  match s with
  | EmptyString => None
  | String a s' =>
      match find_last_not_in set s' with
      | Some i => Some (S i)
      | None => if decide (find_char a set = None) then Some 0%nat else None
      end
  end.

(** [string(s.end() - n, s.end())], used with [n <= s.size()] *)
Definition last_chars (n : nat) (s : string) : string :=
  drop (String.length s - n) s.

End Str.

(** ** [util.hpp]: constants *)

Definition CACHECTR_NO_STORE : string := "no-store".
Definition CACHECTR_NO_CACHE : string := "no-cache".
Definition CACHECTR_REVALIDATE : string := "must-revalidate".
Definition CACHECTR_PROXY_REVALIDATE : string := "proxy-revalidate".
Definition CACHECTR_PRIVATE : string := "private".
Definition CACHECTR_PUBLIC : string := "public".
Definition CACHECTR_MAXAGE : string := "max-age=".
Definition CACHECTR_SMAXAGE : string := "s-maxage=".

Definition HEADER_TRANSFER : string := "Transfer-Encoding".
Definition HEADER_CHUNCK : string := "chunked".
Definition HEADER_CONTENT_LEN : string := "Content-Length".
Definition HEADER_DATE : string := "Date".
Definition HEADER_EXPIRE : string := "Expires".
Definition HEADER_LAST_MODIFY : string := "Last-Modified".
Definition HEADER_ETAG : string := "ETag".
Definition HEADER_CACHECTRL : string := "Cache-Control".

Definition CACHE_PUBLIC : Z := 1.
Definition CACHE_PRIVATE : Z := 2.
Definition CACHE_IMMUTABLE : Z := 3.
Definition CACHE_MUST_REVALIDATE : Z := 4.
Definition CACHE_NO_STORE : Z := 5.
Definition CACHE_NORMAL : Z := 6.

Inductive CacheStatus :=
| NOT_IN_CACHE
| EXPIRED
| REQUIRES_VALIDATION
| VALID
| NOT_CACHEABLE
| WILL_EXPIRE
| REVALIDATION.

Definition HOST : string := "Host: ".
Definition USERAGENT : string := "User-Agent: ".
Definition CONNECTION : string := "Connection: ".
Definition IFNONEMATCH : string := "If-None-Match: ".
Definition IFMODIFIED : string := "If-Modified-Since: ".

Definition CR : ascii := "013"%char.
Definition LF : ascii := "010"%char.
Definition CRLF : string := String CR (String LF EmptyString).

(** ** [response.hpp]: the response object

    The member [received_time] is never read or written and is left out. *)

Record Response := mkResponse {
  status_code : Z;
  status_message : string;
  http_version : string;
  header : gmap string string;
  body : string;
  expire_time : string;
  is_chunked : bool;
  content_length : Z;
  no_store : bool;
  no_cache : bool;
  must_revalidate : bool;
  max_age : Z;
  cache_mode : Z;
  cache_visibility : Z
}.

(** the member initialisers of the class: a freshly constructed [Response] *)
Definition new_Response : Response :=
  {| status_code := 0; status_message := ""; http_version := "";
     header := ∅; body := ""; expire_time := "";
     is_chunked := false; content_length := -1;
     no_store := false; no_cache := false; must_revalidate := false;
     max_age := -1; cache_mode := 0; cache_visibility := CACHE_PUBLIC |}.

(** Assignments to one member. *)
Definition set_status_code (v : Z) (r : Response) : Response :=
  mkResponse v (status_message r) (http_version r) (header r) (body r)
    (expire_time r) (is_chunked r) (content_length r) (no_store r) (no_cache r)
    (must_revalidate r) (max_age r) (cache_mode r) (cache_visibility r).
Definition set_status_message (v : string) (r : Response) : Response :=
  mkResponse (status_code r) v (http_version r) (header r) (body r)
    (expire_time r) (is_chunked r) (content_length r) (no_store r) (no_cache r)
    (must_revalidate r) (max_age r) (cache_mode r) (cache_visibility r).
Definition set_http_version (v : string) (r : Response) : Response :=
  mkResponse (status_code r) (status_message r) v (header r) (body r)
    (expire_time r) (is_chunked r) (content_length r) (no_store r) (no_cache r)
    (must_revalidate r) (max_age r) (cache_mode r) (cache_visibility r).
Definition set_header (v : gmap string string) (r : Response) : Response :=
  mkResponse (status_code r) (status_message r) (http_version r) v (body r)
    (expire_time r) (is_chunked r) (content_length r) (no_store r) (no_cache r)
    (must_revalidate r) (max_age r) (cache_mode r) (cache_visibility r).
Definition set_body (v : string) (r : Response) : Response :=
  mkResponse (status_code r) (status_message r) (http_version r) (header r) v
    (expire_time r) (is_chunked r) (content_length r) (no_store r) (no_cache r)
    (must_revalidate r) (max_age r) (cache_mode r) (cache_visibility r).
Definition set_expire_time (v : string) (r : Response) : Response :=
  mkResponse (status_code r) (status_message r) (http_version r) (header r)
    (body r) v (is_chunked r) (content_length r) (no_store r) (no_cache r)
    (must_revalidate r) (max_age r) (cache_mode r) (cache_visibility r).
Definition set_is_chunked (v : bool) (r : Response) : Response :=
  mkResponse (status_code r) (status_message r) (http_version r) (header r)
    (body r) (expire_time r) v (content_length r) (no_store r) (no_cache r)
    (must_revalidate r) (max_age r) (cache_mode r) (cache_visibility r).
Definition set_content_length (v : Z) (r : Response) : Response :=
  mkResponse (status_code r) (status_message r) (http_version r) (header r)
    (body r) (expire_time r) (is_chunked r) v (no_store r) (no_cache r)
    (must_revalidate r) (max_age r) (cache_mode r) (cache_visibility r).
Definition set_no_store (v : bool) (r : Response) : Response :=
  mkResponse (status_code r) (status_message r) (http_version r) (header r)
    (body r) (expire_time r) (is_chunked r) (content_length r) v (no_cache r)
    (must_revalidate r) (max_age r) (cache_mode r) (cache_visibility r).
Definition set_no_cache (v : bool) (r : Response) : Response :=
  mkResponse (status_code r) (status_message r) (http_version r) (header r)
    (body r) (expire_time r) (is_chunked r) (content_length r) (no_store r) v
    (must_revalidate r) (max_age r) (cache_mode r) (cache_visibility r).
Definition set_must_revalidate (v : bool) (r : Response) : Response :=
  mkResponse (status_code r) (status_message r) (http_version r) (header r)
    (body r) (expire_time r) (is_chunked r) (content_length r) (no_store r)
    (no_cache r) v (max_age r) (cache_mode r) (cache_visibility r).
Definition set_max_age (v : Z) (r : Response) : Response :=
  mkResponse (status_code r) (status_message r) (http_version r) (header r)
    (body r) (expire_time r) (is_chunked r) (content_length r) (no_store r)
    (no_cache r) (must_revalidate r) v (cache_mode r) (cache_visibility r).
Definition set_cache_mode (v : Z) (r : Response) : Response :=
  mkResponse (status_code r) (status_message r) (http_version r) (header r)
    (body r) (expire_time r) (is_chunked r) (content_length r) (no_store r)
    (no_cache r) (must_revalidate r) (max_age r) v (cache_visibility r).
Definition set_cache_visibility (v : Z) (r : Response) : Response :=
  mkResponse (status_code r) (status_message r) (http_version r) (header r)
    (body r) (expire_time r) (is_chunked r) (content_length r) (no_store r)
    (no_cache r) (must_revalidate r) (max_age r) (cache_mode r) v.

(** ** [response.cpp]: [Response::parseCacheControl] *)

(** The state of the loop over the directives: the object and the local
    [issmax_age]. *)
Definition cc_state : Type := Response * bool.

(** [max_age = stoi(directive.substr(n))] inside [try], with the handler
    [max_age = -1] *)
Definition assign_max_age (n : nat) (directive : string) (r : Response) : Response :=
  match Str.substr n directive ≫= Str.stoi with
  | Some v => set_max_age v r
  | None => set_max_age (-1) r
  end.

(** the two [erase] calls that trim a directive *)
Definition trim_directive (d : string) : string :=
  let d1 := Str.erase_front (Str.find_first_not_of " " d) d in
  Str.erase_after (Str.find_last_not_of " " d1) d1.

(** One iteration of the [while (getline(iss, directive, ','))] loop. A
    [size_t] used as a condition is true when it is not 0. *)
Definition cc_directive (st : cc_state) (raw : string) : cc_state :=
  let '(r, issmax_age) := st in
  let directive := trim_directive raw in
  if decide (directive = CACHECTR_NO_STORE) then
    (set_cache_mode CACHE_NO_STORE (set_no_store true r), issmax_age)
  else if decide (directive = CACHECTR_NO_CACHE) then
    (set_cache_mode CACHE_MUST_REVALIDATE (set_no_cache true r), issmax_age)
  else if decide (directive = CACHECTR_REVALIDATE
                  ∨ directive = CACHECTR_PROXY_REVALIDATE) then
    (set_cache_mode CACHE_MUST_REVALIDATE (set_must_revalidate true r), issmax_age)
  else if decide (directive = CACHECTR_PRIVATE) then
    (set_cache_visibility CACHE_PRIVATE r, issmax_age)
  else if decide (directive = CACHECTR_PUBLIC) then
    (set_cache_visibility CACHE_PUBLIC r, issmax_age)
  else if decide (Str.find CACHECTR_MAXAGE directive = Some 0%nat) then
    (if issmax_age then r else assign_max_age 8 directive r, issmax_age)
  else if decide (Str.find CACHECTR_SMAXAGE directive ≠ Some 0%nat) then
    (if decide (cache_visibility r = CACHE_PUBLIC)
     then (assign_max_age 9 directive r, true)
     else (r, issmax_age))
  else (r, issmax_age).

Definition parseCacheControl (r : Response) : Response :=
  match header r !! HEADER_CACHECTRL with
  | None => r
  | Some value =>
      let '(r1, _) := foldl cc_directive (r, false) (Str.getlines "," value) in
      if negb (no_cache r1) && negb (no_cache r1) && negb (must_revalidate r1)
      then set_cache_mode CACHE_NORMAL r1
      else r1
  end.

(** ** [response.cpp]: [Response::parseResponse] *)

(** [status_stream >> http_version >> status_code] followed by
    [getline(status_stream, status_message)]. An extraction on a stream that
    has failed or is at its end leaves its variable alone. *)
Definition parse_status_line (r : Response) (status_line : string) : Response :=
  match Str.extract_word status_line with
  | None => r
  | Some (version, rest) =>
      let r1 := set_http_version version r in
      match Str.extract_int rest with
      | Str.IntEof => r1
      | Str.IntFail n => set_status_code n r1
      | Str.IntOk n rest' =>
          let r2 := set_status_code n r1 in
          if decide (rest' = "") then r2 else set_status_message rest' r2
      end
  end.

(** the two [erase] calls that trim a header value *)
Definition trim_value (v : string) : string :=
  let v1 := Str.erase_front (Str.find_first_not_of " " v) v in
  Str.erase_after (Str.find_last_not_of CR v1) v1.

(** the effect of [header[key] = value] and of the framing test after it *)
Definition header_field (r : Response) (key value : string) : option Response :=
  let r1 := set_header (<[key := value]> (header r)) r in
  if decide (key = HEADER_TRANSFER ∧ Str.find HEADER_CHUNCK value ≠ None) then
    Some (set_is_chunked true r1)
  else if decide (key = HEADER_CONTENT_LEN) then
    n ← Str.stoi value; Some (set_content_length n r1)
  else Some r1.

(** the body of the header loop for one line; [colomn + 1] is at most the
    length of the line, so [line.substr(colomn + 1)] does not throw *)
Definition header_line (r : Response) (line : string) : option Response :=
  match Str.find_char ":" line with
  | Some colomn =>
      header_field r (Str.take colomn line) (trim_value (Str.drop (S colomn) line))
  | None => Some r
  end.

(** [while (getline(iss, line) && line != "\r" && line != "")]: the result is
    the object and the lines still in the stream *)
Fixpoint header_loop (r : Response) (lines : list string)
  : option (Response * list string) :=
  match lines with
  | [] => Some (r, [])
  | line :: rest =>
      if decide (line = String CR "" ∨ line = "") then Some (r, rest)
      else r' ← header_line r line; header_loop r' rest
  end.

(** [while (getline(iss, line)) body_stream << line << "\n"] *)
Fixpoint read_body (lines : list string) : string :=
  match lines with
  | [] => ""
  | line :: rest => line +:+ String LF (read_body rest)
  end.

(** ** [request.hpp], [request.cpp]: the request object

    The members and methods of the class [Request] live in a module of the
    same name; the type of the objects is [Request.t]. *)

Module Request.

Record t := mk {
  httpRequest : string;
  requestHeader : string;
  host : string;
  userAgent : string;
  url : string;
  connection : string;
  port : string;
  method : string;
  IfNoneMatch : string;
  IfModifiedSince : string
}.

(** the constructor [Request(httpRequest)] *)
Definition new (httpRequest : string) : t :=
  mk httpRequest "" "" "" "" "" "" "" "" "".

(** Assignments to one member. *)
Definition set_requestHeader (v : string) (r : t) : t :=
  mk (httpRequest r) v (host r) (userAgent r) (url r) (connection r) (port r)
    (method r) (IfNoneMatch r) (IfModifiedSince r).
Definition set_host (v : string) (r : t) : t :=
  mk (httpRequest r) (requestHeader r) v (userAgent r) (url r) (connection r)
    (port r) (method r) (IfNoneMatch r) (IfModifiedSince r).
Definition set_userAgent (v : string) (r : t) : t :=
  mk (httpRequest r) (requestHeader r) (host r) v (url r) (connection r)
    (port r) (method r) (IfNoneMatch r) (IfModifiedSince r).
Definition set_url (v : string) (r : t) : t :=
  mk (httpRequest r) (requestHeader r) (host r) (userAgent r) v (connection r)
    (port r) (method r) (IfNoneMatch r) (IfModifiedSince r).
Definition set_connection (v : string) (r : t) : t :=
  mk (httpRequest r) (requestHeader r) (host r) (userAgent r) (url r) v
    (port r) (method r) (IfNoneMatch r) (IfModifiedSince r).
Definition set_port (v : string) (r : t) : t :=
  mk (httpRequest r) (requestHeader r) (host r) (userAgent r) (url r)
    (connection r) v (method r) (IfNoneMatch r) (IfModifiedSince r).
Definition set_method (v : string) (r : t) : t :=
  mk (httpRequest r) (requestHeader r) (host r) (userAgent r) (url r)
    (connection r) (port r) v (IfNoneMatch r) (IfModifiedSince r).
Definition set_IfNoneMatch (v : string) (r : t) : t :=
  mk (httpRequest r) (requestHeader r) (host r) (userAgent r) (url r)
    (connection r) (port r) (method r) v (IfModifiedSince r).
Definition set_IfModifiedSince (v : string) (r : t) : t :=
  mk (httpRequest r) (requestHeader r) (host r) (userAgent r) (url r)
    (connection r) (port r) (method r) (IfNoneMatch r) v.

(** [Request::setHeader]: [ss >> method >> url >> http_version], the third
    word going to a local variable. An extraction on a stream that has failed
    or is at its end leaves its variable alone. *)
Definition setHeader (line : string) (r : t) : t :=
  let r0 := set_requestHeader line r in
  match Str.extract_word line with
  | None => r0
  | Some (m, rest) =>
      let r1 := set_method m r0 in
      match Str.extract_word rest with
      | None => r1
      | Some (u, _) => set_url u r1
      end
  end.

(** [line.substr(line.find(":") + 1)] followed by
    [erase(0, find_first_not_of(" "))]. [npos + 1] wraps around to 0; [None]
    is the [out_of_range] that [substr] throws for a position past the end. *)
Definition header_value (line : string) : option string :=
  let pos := match Str.find ":" line with
             | Some i => S i
             | None => 0%nat
             end in
  v ← Str.substr pos line;
  Some (Str.erase_front (Str.find_first_not_of " " v) v).

(** [Request::setHostnameAndPort] *)
Definition setHostnameAndPort (line : string) (r : t) : option t :=
  hostHeader ← header_value line;
  match Str.find ":" hostHeader with
  | Some colonPos =>
      p ← Str.substr (S colonPos) hostHeader;
      Some (set_port p (set_host (Str.take colonPos hostHeader) r))
  | None => Some (set_host hostHeader r)
  end.

(** the body of the loop of [parseRequest] for a line that is not empty *)
Definition parse_line (isheader : bool) (line : string) (r : t) : option t :=
  if isheader then Some (setHeader line r)
  else if decide (Str.find HOST line = Some 0%nat) then setHostnameAndPort line r
  else if decide (Str.find USERAGENT line = Some 0%nat) then
    v ← header_value line; Some (set_userAgent v r)
  else if decide (Str.find CONNECTION line = Some 0%nat) then
    v ← header_value line; Some (set_connection v r)
  else if decide (Str.find IFNONEMATCH line = Some 0%nat) then
    v ← header_value line; Some (set_IfNoneMatch v r)
  else if decide (Str.find IFMODIFIED line = Some 0%nat) then
    v ← header_value line; Some (set_IfModifiedSince v r)
  else Some r.

(** [while (getline(ss, line))] with its [break] at the first empty line *)
Fixpoint parse_lines (isheader : bool) (lines : list string) (r : t) : option t :=
  match lines with
  | [] => Some r
  | line :: rest =>
      let line := Str.pop_back_if CR line in
      if decide (line = "") then Some r
      else r' ← parse_line isheader line r; parse_lines false rest r'
  end.

(** [Request::parseRequest]; [None] stands for an exception leaving it *)
Definition parseRequest (r : t) : option t :=
  parse_lines true (Str.getlines LF (httpRequest r)) r.

(** [Request::Request_line] *)
Definition Request_line (r : t) : string :=
  let request_line := method r +:+ " " +:+ url r +:+ " HTTP/1.1" +:+ CRLF in
  let request_line :=
    if decide (host r ≠ "") then
      let request_line := request_line +:+ (HOST +:+ host r) in
      let request_line :=
        if decide (port r ≠ "" ∧ port r ≠ "80")
        then request_line +:+ (":" +:+ port r) else request_line in
      request_line +:+ CRLF
    else request_line in
  let request_line :=
    if decide (userAgent r ≠ "")
    then request_line +:+ (USERAGENT +:+ userAgent r +:+ CRLF) else request_line in
  let request_line :=
    if decide (connection r ≠ "")
    then request_line +:+ (CONNECTION +:+ connection r +:+ CRLF) else request_line in
  let request_line :=
    if decide (IfNoneMatch r ≠ "")
    then request_line +:+ (IFNONEMATCH +:+ IfNoneMatch r +:+ CRLF) else request_line in
  let request_line :=
    if decide (IfModifiedSince r ≠ "")
    then request_line +:+ (IFMODIFIED +:+ IfModifiedSince r +:+ CRLF)
    else request_line in
  request_line +:+ CRLF.

End Request.

Section Proxy.

(** [get_time] with the format [%a, %d %b %Y %H:%M:%S GMT], [mktime] and
    [system_clock::from_time_t], as [Response::parseHttpDate] and
    [Cache::isExpired] chain them. *)
Variable parseHttpDate : string → Z.

(** [system_clock::to_time_t], [gmtime] and [put_time] with the same format. *)
Variable formatHTTPDate : Z → string.

(** ticks of [system_clock] in one second *)
Definition ticks_per_second : Z := 1000000000.

(** [chrono::seconds(n)] as a duration of the clock *)
Definition seconds (n : Z) : Z := n * ticks_per_second.

Definition timeDifference (time1 time2 : string) : Z :=
  Z.quot (parseHttpDate time2 - parseHttpDate time1) ticks_per_second.

Definition setExpiredTime (r : Response) : Response :=
  let date_it := header r !! HEADER_DATE in
  match date_it with
  | Some date =>
      if decide (max_age r > 0) then
        set_expire_time (formatHTTPDate (parseHttpDate date + seconds (max_age r))) r
      else
        match header r !! HEADER_EXPIRE with
        | Some expires => set_expire_time expires r
        | None =>
            if must_revalidate r then set_expire_time date r
            else if decide (cache_mode r ≠ CACHE_NO_STORE) then
              match header r !! HEADER_LAST_MODIFY with
              | Some last_modified =>
                  let time_diff := timeDifference last_modified date in
                  let heuristic_expire := Z.quot time_diff 10 in
                  set_expire_time
                    (formatHTTPDate (parseHttpDate date + seconds heuristic_expire)) r
              | None => r
              end
            else r
        end
  | None =>
      match header r !! HEADER_EXPIRE with
      | Some expires => set_expire_time expires r
      | None => r
      end
  end.

(** [None] stands for the exceptions the function lets through: the
    [runtime_error] for a missing status line and what [stoi] throws on the
    value of [Content-Length]. *)
Definition parseResponse (r : Response) (httpResponse : string) : option Response :=
  match Str.getlines LF httpResponse with
  | [] => None
  | status_line :: lines =>
      let r1 := parse_status_line r status_line in
      '(r2, lines') ← header_loop r1 lines;
      let r3 := if is_chunked r2 then r2 else set_body (read_body lines') r2 in
      Some (setExpiredTime (parseCacheControl r3))
  end.

(** ** [response.cpp]: [Response::isCacheable], [Response::toString] *)

Definition isCacheable (r : Response) (isPrivateCache : bool) : bool :=
  if decide (status_code r ≠ 200 ∨ cache_mode r = CACHE_NO_STORE) then false
  else if decide (cache_visibility r = CACHE_PRIVATE ∧ isPrivateCache = false)
       then false
       else true.

Definition needsRevalidation (r : Response) : bool :=
  bool_decide (cache_mode r = CACHE_MUST_REVALIDATE) || no_cache r.

(** the order of [std::map<string, string>]: keys compared as byte strings *)
Definition header_key_le (x y : string * string) : Prop := String.le x.1 y.1.

Global Instance header_key_le_dec : RelDecision header_key_le.
Proof. intros x y. unfold header_key_le. apply _. Defined.

(** the pairs a [for (const auto& header_pair : header)] loop visits *)
Definition header_entries (h : gmap string string) : list (string * string) :=
  merge_sort header_key_le (map_to_list h).

Definition header_text (kv : string * string) : string :=
  kv.1 +:+ ": " +:+ kv.2 +:+ CRLF.

Fixpoint headers_text (l : list (string * string)) (tail : string) : string :=
  match l with
  | [] => tail
  | kv :: l' => header_text kv +:+ headers_text l' tail
  end.

Definition toString (r : Response) : string :=
  http_version r +:+ " " +:+ Str.of_int (status_code r) +:+ " "
    +:+ status_message r +:+ CRLF
    +:+ headers_text (header_entries (header r)) (CRLF +:+ body r).

(** ** [response.cpp]: the body received after the headers, [getETag] and
    [getLastModified] *)

(** the bytes of a [vector<char>] are a string *)
Definition addChunkedData (chunk_data : string) (r : Response) : Response :=
  if is_chunked r then set_body (body r +:+ chunk_data) r else r.

(** [to_string(body.length())] is the decimal text of the new length *)
Definition addResponseBody (response_body : string) (r : Response) : Response :=
  let r1 := set_body (body r +:+ response_body) r in
  set_header
    (<[HEADER_CONTENT_LEN := Str.of_int (Z.of_nat (String.length (body r1)))]>
       (header r1)) r1.

(** [(it != header.end()) ? it->second : ""] *)
Definition header_or_empty (key : string) (r : Response) : string :=
  match header r !! key with
  | Some v => v
  | None => ""
  end.

Definition getETag : Response → string := header_or_empty HEADER_ETAG.
Definition getLastModified : Response → string := header_or_empty HEADER_LAST_MODIFY.

(** ** [cache.hpp], [cache.cpp]: the cache

    The cache is modelled as one thread sees it while it holds the lock: an
    operation runs on the state the previous one left. The calls to the logger
    inside the cache methods write lines to the log file and are left out. *)

Record CacheEntry := mkCacheEntry {
  response : Response;
  url : string;
  last_checked : Z
}.

Record Cache := mkCache {
  cache_map : gmap string CacheEntry;
  lru_list : list string;
  max_entries : nat;
  cleanup_interval : Z;
  last_cleanup : Z
}.

Definition set_cache_map (m : gmap string CacheEntry) (c : Cache) : Cache :=
  mkCache m (lru_list c) (max_entries c) (cleanup_interval c) (last_cleanup c).
Definition set_lru_list (l : list string) (c : Cache) : Cache :=
  mkCache (cache_map c) l (max_entries c) (cleanup_interval c) (last_cleanup c).
Definition set_last_cleanup (t : Z) (c : Cache) : Cache :=
  mkCache (cache_map c) (lru_list c) (max_entries c) (cleanup_interval c) t.

(** the constructor [Cache(size, clean_sec)], run at time [now] *)
Definition new_Cache (size : nat) (clean_sec : Z) (now : Z) : Cache :=
  mkCache ∅ [] size clean_sec now.

(** [lru_list.remove(url)] drops every element equal to [url] *)
Definition lru_remove (u : string) (l : list string) : list string :=
  filter (λ x, x ≠ u) l.

Definition updateLRU (u : string) (c : Cache) : Cache :=
  set_lru_list (u :: lru_remove u (lru_list c)) c.

Definition isExpired (now : Z) (r : Response) : bool :=
  if decide (expire_time r = "") then true
  else bool_decide (now > parseHttpDate (expire_time r)).

(** The loop of [cacheUpdate] takes [lru_list.back()] as long as the map is
    full and the list is not empty; it runs here over the list read from its
    back, and stops with what is left of it. *)
Fixpoint evict_from_back (max : nat) (m : gmap string CacheEntry)
    (back_first : list string) : gmap string CacheEntry * list string :=
  match back_first with
  | [] => (m, [])
  | urlRemove :: others =>
      if decide (max ≤ size m)%nat
      then evict_from_back max (delete urlRemove m) others
      else (m, back_first)
  end.

Definition cacheUpdate (c : Cache) : Cache :=
  let '(m, back_first) :=
    evict_from_back (max_entries c) (cache_map c) (reverse (lru_list c)) in
  set_lru_list (reverse back_first) (set_cache_map m c).

(** what the loop of [cleanExpiredResponse] does at one entry *)
Definition sweep_entry (now : Z) (u : string) (e : CacheEntry) (c : Cache) : Cache :=
  if isExpired now (response e)
  then set_cache_map (delete u (cache_map c))
         (set_lru_list (lru_remove u (lru_list c)) c)
  else c.

Definition cleanExpiredResponse (now : Z) (c : Cache) : Cache :=
  map_fold (sweep_entry now) (set_last_cleanup now c) (cache_map c).

(** [Cache::get]: the status written to [cache_res], the pointer returned
    ([None] is [NULL]) and the cache afterwards. After the read lock is given
    up the key is looked up again under the write lock. *)
Definition get (u : string) (now : Z) (c : Cache)
  : CacheStatus * option Response * Cache :=
  match cache_map c !! u with
  | None => (NOT_IN_CACHE, None, c)
  | Some it =>
      let cac_res := response it in
      if isExpired now cac_res then
        match cache_map c !! u with
        | None => (NOT_IN_CACHE, None, c)
        | Some _ => (EXPIRED, Some cac_res, c)
        end
      else if decide (cache_mode cac_res = CACHE_IMMUTABLE) then
        match cache_map c !! u with
        | None => (NOT_IN_CACHE, None, c)
        | Some it' =>
            let it'' := mkCacheEntry (response it') (url it') now in
            (VALID, Some (response it''),
             updateLRU u (set_cache_map (<[u := it'']> (cache_map c)) c))
        end
      else if decide (cache_mode cac_res = CACHE_MUST_REVALIDATE) then
        (REQUIRES_VALIDATION, Some cac_res, c)
      else
        match cache_map c !! u with
        | None => (NOT_IN_CACHE, None, c)
        | Some it' =>
            let it'' := mkCacheEntry (response it') (url it') now in
            (VALID, Some (response it''),
             updateLRU u (set_cache_map (<[u := it'']> (cache_map c)) c))
        end
  end.

(** [Cache::put]; [None] is a null [response]. A new entry is built as
    [CacheEntry{response, url}], its [last_checked] is the epoch. *)
Definition put (u : string) (resp : option Response) (now : Z) (c : Cache) : Cache :=
  match resp with
  | None => c
  | Some r =>
      if decide (cache_mode r = CACHE_NO_STORE) then c
      else
        let c1 :=
          if decide (now - last_cleanup c > seconds (cleanup_interval c))
          then cleanExpiredResponse now c else c in
        match cache_map c1 !! u with
        | Some it =>
            let it' := mkCacheEntry r (url it) (last_checked it) in
            updateLRU u (set_cache_map (<[u := it']> (cache_map c1)) c1)
        | None =>
            let c2 := cacheUpdate c1 in
            let new_entry := mkCacheEntry r u 0 in
            updateLRU u (set_cache_map (<[u := new_entry]> (cache_map c2)) c2)
        end
  end.

(** [Cache::size] *)
Definition cache_size (c : Cache) : nat := size (cache_map c).

(** The operations a client of the cache can perform, each with the time at
    which it runs. *)
Inductive cache_op :=
| OpGet (u : string) (now : Z)
| OpPut (u : string) (resp : option Response) (now : Z).

Definition run_op (c : Cache) (o : cache_op) : Cache :=
  match o with
  | OpGet u now => (get u now c).2
  | OpPut u resp now => put u resp now c
  end.

(** the states of a cache built with [Cache(size, clean_sec)] at time [t0] *)
Inductive reachable (size : nat) (clean_sec t0 : Z) : Cache → Prop :=
| reachable_new : reachable size clean_sec t0 (new_Cache size clean_sec t0)
| reachable_op c o :
    reachable size clean_sec t0 c → reachable size clean_sec t0 (run_op c o).

(** ** [proxy.cpp]: [Proxy::handleCaching]

    The log is the list of the calls to [log_cache_response] the function
    makes: request id, status, and reason or expiry time. *)

Definition log_line : Type := Z * CacheStatus * string.

Definition handleCaching (resp : Response) (u : string) (request_id : Z)
    (now : Z) (st : Cache * list log_line) : Cache * list log_line :=
  let '(cache, log) := st in
  if negb (isCacheable resp false) then
    let reason :=
      if decide (status_code resp ≠ 200) then "status code is not 200 OK"
      else if no_store resp then "no-store directive"
      else if decide (cache_mode resp = CACHE_NO_STORE) then "cache-control: no-store"
      else "unknow" in
    (cache, log ++ [(request_id, NOT_CACHEABLE, reason)])
  else
    let log' :=
      if decide (expire_time resp ≠ "") then
        log ++ [(request_id, WILL_EXPIRE, expire_time resp)]
      else if no_cache resp || must_revalidate resp then
        log ++ [(request_id, REVALIDATION, "")]
      else log in
    (put u (Some resp) now cache, log').

(** ** [proxy.cpp]: the status line written to the log

    [processGet] and [processPost] build the line they log for a response as
    ["HTTP/1.1 " + to_string(status_code) + " " + status_message] and erase
    what follows the last character that is none of CR, LF and space. *)

Definition response_status_line (r : Response) : string :=
  let status_line :=
    "HTTP/1.1 " +:+ Str.of_int (status_code r) +:+ " " +:+ status_message r in
  if decide (status_line ≠ "") then
    Str.erase_after
      (Str.find_last_not_in (String CR (String LF " ")) status_line) status_line
  else status_line.

(** ** [proxy.cpp]: [Proxy::sendErrorResponse]

    The result is the text sent to the client and the line given to
    [log_responding]. *)

Definition sendErrorResponse (status_code : Z) (reason : string) : string * string :=
  let status_line := "HTTP/1.1 " +:+ Str.of_int status_code +:+ " " +:+ reason in
  let response := status_line +:+ CRLF in
  let response := response +:+ ("Content-Type: text/html" +:+ CRLF) in
  let response := response +:+ ("Connection: close" +:+ CRLF) in
  let body :=
    "<html><head><title>" +:+ Str.of_int status_code +:+ " " +:+ reason
      +:+ "</title></head><body><h1>" +:+ Str.of_int status_code +:+ " " +:+ reason
      +:+ "</h1><p>Proxy Error</p></body></html>" in
  let response :=
    response +:+ ("Content-Length: "
                    +:+ Str.of_int (Z.of_nat (String.length body))
                    +:+ CRLF +:+ CRLF) in
  let response := response +:+ body in
  (response, status_line).

(** ** [proxy.cpp]: [Proxy::receiveClient]

    What the function decides for the text it received from the client; the
    sockets, the request id and the log are left out. *)

Inductive client_action :=
| CloseEmptyRequest
| ReplyError (status_code : Z) (reason : string)
| ProcessGet (request : Request.t)
| ProcessPost (request : Request.t)
| ProcessConnect (request : Request.t).

Definition receiveClient (http_request : string) : client_action :=
  if decide (http_request = "") then CloseEmptyRequest
  else
    match Request.parseRequest (Request.new http_request) with
    | None => ReplyError 400 "Bad Request"
    | Some request =>
        if decide (Request.method request = "GET") then ProcessGet request
        else if decide (Request.method request = "POST") then ProcessPost request
        else if decide (Request.method request = "CONNECT") then ProcessConnect request
        else ReplyError 501 "Not implement method request"
    end.

(** ** [proxy.cpp]: the conditional request of [Proxy::processGet]

    For a cached response that requires validation [processGet] copies the
    request of the client and gives it the validators of the cached response;
    it sends the text [Request_line] writes for the copy, unless the cached
    response has neither validator. *)
Definition validation_request (request : Request.t) (cached_resp : Response)
  : Request.t :=
  let validation_request := request in
  let validation_request :=
    if decide (getETag cached_resp ≠ "")
    then Request.set_IfNoneMatch (getETag cached_resp) validation_request
    else validation_request in
  if decide (getLastModified cached_resp ≠ "")
  then Request.set_IfModifiedSince (getLastModified cached_resp) validation_request
  else validation_request.

(** ** [proxy.cpp]: [Proxy::handleChunkResponse]

    A socket that is read is the list of what the successive [recv] calls
    put into the buffer: the bytes received, or the empty string for a call
    that returned 0 or -1; when the list is used up the peer has closed the
    connection. A socket that is written is the list of the buffers given to
    [send]. The loop runs with the bytes stored so far and the buffers
    forwarded so far. *)

Definition chunked_end : string := "0" +:+ CRLF +:+ CRLF.

Fixpoint chunk_loop (server_fd : list string) (response : string)
    (client_fd : list string) : string * list string :=
  match server_fd with
  | [] => (response, client_fd)
  | buffer :: server_fd' =>
      if decide (buffer = "") then (response, client_fd)
      else
        let response := response +:+ buffer in
        let client_fd := client_fd ++ [buffer] in
        if decide ((5 ≤ String.length response)%nat
                   ∧ Str.last_chars 5 response = chunked_end)
        then (response, client_fd)
        else chunk_loop server_fd' response client_fd
  end.

(** the bytes returned and the buffers sent to the client *)
Definition handleChunkResponse (server_fd : list string) : string * list string :=
  chunk_loop server_fd "" [].

(** * Vocabulary of the statements *)

(** ** The cache *)

(** The keys of the map are the elements of the LRU list, each once. *)
Definition cache_inv (c : Cache) : Prop :=
  NoDup (lru_list c) ∧ ∀ u, u ∈ lru_list c ↔ is_Some (cache_map c !! u).

Definition is_get (o : cache_op) : Prop :=
  match o with OpGet _ _ => True | OpPut _ _ _ => False end.

(** a sequence of [put] calls: url, response and time of each *)
Definition put_all (ps : list (string * Response * Z)) (c : Cache) : Cache :=
  foldl (λ c p, put p.1.1 (Some p.1.2) p.2 c) c ps.

Definition urls (ps : list (string * Response * Z)) : list string := ps.*1.*1.

(** The state after the calls [ps], all with different urls: the list holds
    the last [max] urls, newest first, and every entry was put by one of the
    calls. *)
Definition holds_recent (max : nat) (ps : list (string * Response * Z))
    (c : Cache) : Prop :=
  cache_inv c ∧ max_entries c = max
  ∧ lru_list c = firstn max (reverse (urls ps))
  ∧ ∀ v e, cache_map c !! v = Some e → ∃ t, (v, response e, t) ∈ ps.

(** What C6 says of a run: [old ++ recent] are the [put] calls in order,
    [recent] the last [max_entries] of them, [gets] the [get] calls made
    afterwards. A [get] for a url of [recent] answers another status than
    [NOT_IN_CACHE] and returns the response put with it; a [get] for a url of
    [old] answers [NOT_IN_CACHE] and returns null. *)
Definition most_recent_survive_statement (max : nat) (clean_sec t0 : Z)
    (old recent : list (string * Response * Z)) (gets : list cache_op) : Prop :=
  let c := foldl run_op (put_all (old ++ recent) (new_Cache max clean_sec t0)) gets in
  (∀ u r t now, (u, r, t) ∈ recent →
     (get u now c).1.1 ≠ NOT_IN_CACHE ∧ (get u now c).1.2 = Some r)
  ∧ (∀ u r t now, (u, r, t) ∈ old → (get u now c).1 = (NOT_IN_CACHE, None)).

(** ** Strings and responses *)

(** the members [parseCacheControl] computes *)
Definition directives_of (r : Response) : bool * bool * bool * Z * Z * Z :=
  (no_store r, no_cache r, must_revalidate r, max_age r, cache_mode r,
   cache_visibility r).

(** the members the status line and the header loop compute *)
Definition head_of (r : Response)
  : Z * string * string * gmap string string * bool * Z :=
  (status_code r, status_message r, http_version r, header r, is_chunked r,
   content_length r).

(** the character [c] is one of the characters of [s] *)
Fixpoint occurs (c : ascii) (s : string) : Prop :=
  match s with
  | EmptyString => False
  | String a s' => a = c ∨ occurs c s'
  end.

(** [s] does not begin with [c] *)
Definition no_leading (c : ascii) (s : string) : Prop :=
  match s with
  | String a _ => a ≠ c
  | EmptyString => True
  end.

(** [s] without the [c]s at its front *)
Fixpoint lstrip (c : ascii) (s : string) : string :=
  match s with
  | String a s' => if decide (a = c) then lstrip c s' else s
  | EmptyString => EmptyString
  end.

(** [s] without the [c]s at its end *)
Fixpoint rstrip (c : ascii) (s : string) : string :=
  match s with
  | EmptyString => EmptyString
  | String a s' =>
      match rstrip c s' with
      | EmptyString => if decide (a = c) then EmptyString else String a EmptyString
      | t => String a t
      end
  end.

(** no character of [s] is white space *)
Fixpoint wordlike (s : string) : Prop :=
  match s with
  | EmptyString => True
  | String a s' => Ascii.is_space a = false ∧ wordlike s'
  end.

(** what [toString] writes before the first line feed *)
Definition status_text (r : Response) : string :=
  http_version r +:+ " " +:+ Str.of_int (status_code r) +:+ " "
    +:+ status_message r +:+ String CR "".

(** what the status line leaves in a fresh object *)
Definition status_inv (r : Response) : Prop :=
  (http_version r = "" ∧ status_code r = 0 ∧ status_message r = "")
  ∨ (http_version r ≠ "" ∧ wordlike (http_version r)
     ∧ Str.INT_MIN ≤ status_code r ≤ Str.INT_MAX
     ∧ ¬ occurs LF (status_message r)).

(** a key as the header loop cuts it out of a line *)
Definition good_key (k : string) : Prop := ¬ occurs ":" k ∧ ¬ occurs LF k.

(** a value as the header loop trims it *)
Definition good_value (v : string) : Prop :=
  rstrip CR v = v ∧ no_leading " " v ∧ ¬ occurs LF v.

Definition good_entry (kv : string * string) : Prop :=
  good_key kv.1 ∧ good_value kv.2.

(** the line [toString] writes for a header, without its line feed *)
Definition entry_line (kv : string * string) : string :=
  kv.1 +:+ ": " +:+ kv.2 +:+ String CR "".

(** [header[key] = value] and the framing test, for a list of headers *)
Fixpoint header_fields (r : Response) (l : list (string * string))
  : option Response :=
  match l with
  | [] => Some r
  | kv :: l' => r' ← header_field r kv.1 kv.2; header_fields r' l'
  end.

(** the stored [Transfer-Encoding] value has [chunked] in it *)
Definition header_chunked (h : gmap string string) : bool :=
  match h !! HEADER_TRANSFER with
  | Some v => bool_decide (Str.find HEADER_CHUNCK v ≠ None)
  | None => false
  end.

(** [n] is what the stored [Content-Length] value gives, -1 without one *)
Definition length_of (h : gmap string string) (n : Z) : Prop :=
  match h !! HEADER_CONTENT_LEN with
  | Some v => Str.stoi v = Some n
  | None => n = -1
  end.

(** what the header loop keeps true of the object *)
Definition header_inv (r : Response) : Prop :=
  map_Forall (λ k v, good_entry (k, v)) (header r)
  ∧ length_of (header r) (content_length r)
  ∧ (header_chunked (header r) = true → is_chunked r = true).

Definition insert_entry (m : gmap string string) (kv : string * string)
  : gmap string string :=
  <[kv.1 := kv.2]> m.

(** the members the header loop does not write *)
Definition status_of (r : Response) : Z * string * string * string :=
  (status_code r, status_message r, http_version r, body r).

Definition parsed_shape (r : Response) : Prop :=
  status_inv r ∧ header_inv r
  ∧ (∃ ls, Forall (λ l, ¬ occurs LF l) ls ∧ body r = read_body ls)
  ∧ (is_chunked r = true → body r = "").

(** What C8 says of a buffer: the response parsed from the text of the
    response parsed from it has the same status code, header map, body,
    [is_chunked] flag and content length. *)
Definition round_trip_statement (buf : string) : Prop :=
  ∀ R, parseResponse new_Response buf = Some R →
  ∃ R', parseResponse new_Response (toString R) = Some R'
        ∧ status_code R' = status_code R
        ∧ header R' = header R
        ∧ body R' = body R
        ∧ is_chunked R' = is_chunked R
        ∧ content_length R' = content_length R.

(** a response with status 200, the given [Cache-Control] value and no body *)
Definition response_with_cache_control (value : string) : string :=
  "HTTP/1.1 200 OK" +:+ CRLF +:+ "Cache-Control: " +:+ value +:+ CRLF +:+ CRLF.

(** ** Requests *)

(** a header value that [Request_line] can write and [parseRequest] read
    back: no space at its front, no line feed *)
Definition plain_text (v : string) : Prop := no_leading " " v ∧ ¬ occurs LF v.

(** a request whose members survive [Request_line] followed by
    [parseRequest] *)
Definition writable (r : Request.t) : Prop :=
  (Request.method r ≠ "" ∧ wordlike (Request.method r))
  ∧ (Request.url r ≠ "" ∧ wordlike (Request.url r))
  ∧ (plain_text (Request.host r) ∧ ¬ occurs ":" (Request.host r))
  ∧ ¬ occurs LF (Request.port r)
  ∧ plain_text (Request.userAgent r)
  ∧ plain_text (Request.connection r)
  ∧ plain_text (Request.IfNoneMatch r)
  ∧ plain_text (Request.IfModifiedSince r).

(** the request parsed from the text [Request_line] writes for [r] *)
Definition read_back (r : Request.t) : Request.t :=
  Request.mk (Request.Request_line r)
    (Request.method r +:+ " " +:+ Request.url r +:+ " HTTP/1.1")
    (Request.host r) (Request.userAgent r) (Request.url r) (Request.connection r)
    (if decide (Request.host r = "" ∨ Request.port r = "80") then ""
     else Request.port r)
    (Request.method r) (Request.IfNoneMatch r) (Request.IfModifiedSince r).

(** a header line of [Request_line], or nothing for an empty value *)
Definition header_part (name value : string) : string :=
  if decide (value ≠ "") then name +:+ value +:+ CRLF else "".

(** the [Host] line of [Request_line], or nothing for an empty host *)
Definition host_part (r : Request.t) : string :=
  if decide (Request.host r ≠ "") then
    HOST +:+ Request.host r
      +:+ (if decide (Request.port r ≠ "" ∧ Request.port r ≠ "80")
           then ":" +:+ Request.port r else "")
      +:+ CRLF
  else "".

(** the object [r] built from the text [text] instead of its own *)
Definition with_httpRequest (text : string) (r : Request.t) : Request.t :=
  Request.mk text (Request.requestHeader r) (Request.host r) (Request.userAgent r)
    (Request.url r) (Request.connection r) (Request.port r) (Request.method r)
    (Request.IfNoneMatch r) (Request.IfModifiedSince r).

(** ** More about the cache *)

(** the url [u] is the key of an entry of [c] that is expired at [now] *)
Definition expired_key (now : Z) (c : Cache) (u : string) : bool :=
  match cache_map c !! u with
  | Some e => isExpired now (response e)
  | None => false
  end.

(** [put] at time [now] begins with a sweep *)
Definition sweep_due (now : Z) (c : Cache) : Prop :=
  now - last_cleanup c > seconds (cleanup_interval c).

Global Instance sweep_due_dec now c : Decision (sweep_due now c).
Proof. unfold sweep_due. apply _. Defined.

(** ** More about responses *)

(** the directives that make [parseCacheControl] assign [cache_mode] in its
    loop *)
Definition restrictive (d : string) : Prop :=
  d = CACHECTR_NO_STORE ∨ d = CACHECTR_NO_CACHE
  ∨ d = CACHECTR_REVALIDATE ∨ d = CACHECTR_PROXY_REVALIDATE.

(** those of them that ask for revalidation *)
Definition revalidating (d : string) : Prop :=
  d = CACHECTR_NO_CACHE ∨ d = CACHECTR_REVALIDATE ∨ d = CACHECTR_PROXY_REVALIDATE.

(** the mode the loop assigns at a restrictive directive *)
Definition mode_of_directive (d : string) : Z :=
  if decide (d = CACHECTR_NO_STORE) then CACHE_NO_STORE else CACHE_MUST_REVALIDATE.

(** the directives of a [Cache-Control] value, trimmed *)
Definition directives (value : string) : list string :=
  trim_directive <$> Str.getlines "," value.

(** a directive [parseCacheControl] knows: one of the six names, or one that
    begins with [max-age=] or with [s-maxage=] *)
Definition recognised (d : string) : Prop :=
  restrictive d ∨ d = CACHECTR_PRIVATE ∨ d = CACHECTR_PUBLIC
  ∨ Str.find CACHECTR_MAXAGE d = Some 0%nat
  ∨ Str.find CACHECTR_SMAXAGE d = Some 0%nat.

(** ** The proxy *)

(** the page [sendErrorResponse] sends as body *)
Definition error_body (code : Z) (reason : string) : string :=
  "<html><head><title>" +:+ Str.of_int code +:+ " " +:+ reason
    +:+ "</title></head><body><h1>" +:+ Str.of_int code +:+ " " +:+ reason
    +:+ "</h1><p>Proxy Error</p></body></html>".

(** the headers [sendErrorResponse] sends *)
Definition error_headers (code : Z) (reason : string) : list (string * string) :=
  [("Content-Type", "text/html"); ("Connection", "close");
   ("Content-Length", Str.of_int (Z.of_nat (String.length (error_body code reason))))].

(** the bytes of a list of buffers, in order *)
Definition bytes_of (buffers : list string) : string :=
  foldr String.append "" buffers.

(** the five bytes that end a chunked body are the last five of [s] *)
Definition ends_chunked (s : string) : Prop :=
  (5 ≤ String.length s)%nat ∧ Str.last_chars 5 s = chunked_end.

(** the last character of a string *)
Fixpoint last_char (s : string) : option ascii :=
  match s with
  | EmptyString => None
  | String a s' =>
      match last_char s' with
      | Some b => Some b
      | None => Some a
      end
  end.

(** [s] ends with a character that is none of CR, LF and space *)
Definition ends_plain (s : string) : Prop :=
  ∃ a, last_char s = Some a ∧ a ≠ CR ∧ a ≠ LF ∧ a ≠ " "%char.

(** what [parseRequest] keeps true of the request it fills in *)
Definition request_inv (r : Request.t) : Prop :=
  wordlike (Request.method r) ∧ wordlike (Request.url r)
  ∧ (Request.url r ≠ "" → Request.method r ≠ "")
  ∧ (plain_text (Request.host r) ∧ ¬ occurs ":" (Request.host r))
  ∧ ¬ occurs LF (Request.port r)
  ∧ plain_text (Request.userAgent r)
  ∧ plain_text (Request.connection r)
  ∧ plain_text (Request.IfNoneMatch r)
  ∧ plain_text (Request.IfModifiedSince r).

(** ** Concrete data

    For the concrete runs the calendar functions are instantiated with a
    notation of dates as decimal numbers of seconds since the epoch. *)

Definition seconds_parseHttpDate (s : string) : Z :=
  match Str.stoi s with
  | Some n => n * ticks_per_second
  | None => -1 * ticks_per_second
  end.

Definition seconds_formatHTTPDate (t : Z) : string :=
  Str.of_int (t / ticks_per_second).

(** a response that expires 1000 seconds after the epoch *)
Definition fresh_response : Response := set_expire_time "1000" new_Response.

(** a response [200] marked [private] *)
Definition private_response : Response :=
  set_cache_visibility CACHE_PRIVATE (set_status_code 200 new_Response).

(** the response of the first scenario of the specification *)
Definition scenario_response : string :=
  "HTTP/1.1 200 OK" +:+ CRLF +:+ "Date: 0" +:+ CRLF
    +:+ "Cache-Control: max-age=60" +:+ CRLF
    +:+ "Content-Length: 3" +:+ CRLF +:+ CRLF +:+ "abc".

(** two [Transfer-Encoding] lines, the first with [chunked], the second
    without *)
Definition chunked_then_gzip : string :=
  "HTTP/1.1 200 OK" +:+ CRLF +:+ "Transfer-Encoding: chunked" +:+ CRLF
    +:+ "Transfer-Encoding: gzip" +:+ CRLF +:+ CRLF.

(** two [put] calls with different urls *)
Definition two_puts : list cache_op :=
  [OpPut "a" (Some fresh_response) 1; OpPut "b" (Some fresh_response) 2].

(** ** Tactics *)

(** [tauto] without the parameters of the section it does not need *)
Ltac prop :=
  repeat match goal with
         | f : string → Z |- _ => clear f
         | f : Z → string |- _ => clear f
         end;
  tauto.

(** [intuition discriminate] in the same way *)
Ltac prop_discriminate :=
  repeat match goal with
         | f : string → Z |- _ => clear f
         | f : Z → string |- _ => clear f
         end;
  intuition discriminate.

(** * Properties of the cache *)

Lemma elem_of_lru_remove u x l : x ∈ lru_remove u l ↔ x ≠ u ∧ x ∈ l.
Proof. unfold lru_remove. by rewrite list_elem_of_filter. Qed.

Lemma NoDup_lru_remove u l : NoDup l → NoDup (lru_remove u l).
Proof. apply NoDup_filter. Qed.

Lemma lru_remove_absent u l : u ∉ l → lru_remove u l = l.
Proof.
  unfold lru_remove. induction l as [|x l IH]; intros Hu; [done|].
  apply not_elem_of_cons in Hu as [Hne Hl].
  rewrite filter_cons_True by congruence. by rewrite IH.
Qed.

Lemma NoDup_reverse {A} (l : list A) : NoDup l → NoDup (reverse l).
Proof. by rewrite reverse_Permutation. Qed.

Lemma cache_inv_size c :
  cache_inv c → size (cache_map c) = length (lru_list c).
Proof.
  intros [Hnd Hel].
  rewrite <- (size_dom (D:=gset string)), <- (size_list_to_set (C:=gset string)) by done.
  f_equal. apply set_eq. intros u.
  rewrite elem_of_dom, elem_of_list_to_set. symmetry. apply Hel.
Qed.

Lemma cache_inv_new size clean_sec t0 : cache_inv (new_Cache size clean_sec t0).
Proof.
  split; simpl; [constructor|].
  intros u. rewrite lookup_empty. split; [by intros ?%elem_of_nil | by intros [? ?]].
Qed.

(** storing an entry under [u] and moving [u] to the front *)
Lemma cache_inv_store u e c :
  cache_inv c →
  cache_inv (updateLRU u (set_cache_map (<[u := e]> (cache_map c)) c)).
Proof.
  intros [Hnd Hel]. split; simpl.
  - apply NoDup_cons. split; [|by apply NoDup_lru_remove].
    rewrite elem_of_lru_remove. prop.
  - intros x. rewrite elem_of_cons, elem_of_lru_remove, lookup_insert.
    case_decide as Hx; subst.
    + split; [eauto | by left].
    + rewrite Hel. split.
      * intros [?|[_ ?]]; [congruence | done].
      * intros ?. right. split; [congruence | done].
Qed.

Lemma cache_inv_sweep_entry now u e c :
  cache_inv c → cache_inv (sweep_entry now u e c).
Proof.
  intros [Hnd Hel]. unfold sweep_entry. destruct (isExpired _ _); [|done].
  split; simpl; [by apply NoDup_lru_remove|].
  intros x. rewrite elem_of_lru_remove, lookup_delete, Hel.
  case_decide; subst.
  - split; [prop | by intros [? ?]].
  - split; [prop | intros ?; split; [congruence | done]].
Qed.

Lemma cache_inv_cleanExpiredResponse now c :
  cache_inv c → cache_inv (cleanExpiredResponse now c).
Proof.
  intros Hc. unfold cleanExpiredResponse.
  apply (map_fold_weak_ind (λ r _, cache_inv r)); [done|].
  intros. by apply cache_inv_sweep_entry.
Qed.

Lemma evict_from_back_inv max back : ∀ m,
  NoDup back → (∀ u, u ∈ back ↔ is_Some (m !! u)) →
  NoDup (evict_from_back max m back).2 ∧
  ∀ u, u ∈ (evict_from_back max m back).2
       ↔ is_Some ((evict_from_back max m back).1 !! u).
Proof.
  induction back as [|x back IH]; intros m Hnd Hel; simpl; [done|].
  case_decide; [|done].
  apply NoDup_cons in Hnd as [Hx Hnd]. apply IH; [done|].
  intros u. rewrite lookup_delete. case_decide; subst.
  - split; [done | by intros [? ?]].
  - rewrite <- Hel, elem_of_cons.
    split; [prop | intros [?|?]; [congruence | done]].
Qed.

Lemma cache_inv_cacheUpdate c : cache_inv c → cache_inv (cacheUpdate c).
Proof.
  intros [Hnd Hel]. unfold cacheUpdate.
  destruct (evict_from_back_inv (max_entries c) (reverse (lru_list c)) (cache_map c))
    as [Hnd' Hel'].
  { by apply NoDup_reverse. }
  { intros u. by rewrite elem_of_reverse. }
  destruct (evict_from_back _ _ _) as [m back]. simpl in *.
  split; simpl; [by apply NoDup_reverse|].
  intros u. by rewrite elem_of_reverse.
Qed.

Lemma cache_inv_put u resp now c : cache_inv c → cache_inv (put u resp now c).
Proof.
  intros Hc. unfold put. destruct resp as [r|]; [|done].
  case_decide; [done|].
  set (c1 := if decide _ then _ else c).
  assert (cache_inv c1) as Hc1.
  { subst c1. case_decide; [by apply cache_inv_cleanExpiredResponse | done]. }
  clearbody c1. destruct (cache_map c1 !! u) as [it|] eqn:Hu.
  - by apply cache_inv_store.
  - by apply (cache_inv_store u _ (cacheUpdate c1)), cache_inv_cacheUpdate.
Qed.

(** [get] as one case distinction: both branches that answer [VALID] do the
    same, and the second lookup finds what the first one found. *)
Lemma get_unfold u now c :
  get u now c =
    match cache_map c !! u with
    | None => (NOT_IN_CACHE, None, c)
    | Some e =>
        if isExpired now (response e) then (EXPIRED, Some (response e), c)
        else if decide (cache_mode (response e) = CACHE_MUST_REVALIDATE)
        then (REQUIRES_VALIDATION, Some (response e), c)
        else (VALID, Some (response e),
              updateLRU u
                (set_cache_map
                   (<[u := mkCacheEntry (response e) (url e) now]> (cache_map c)) c))
    end.
Proof.
  unfold get. destruct (cache_map c !! u) as [e|]; [|done].
  destruct (isExpired now (response e)); [done|].
  destruct (decide (cache_mode (response e) = CACHE_IMMUTABLE)) as [Hi|];
    [|done].
  destruct (decide (cache_mode (response e) = CACHE_MUST_REVALIDATE)) as [Hm|];
    [|done].
  rewrite Hi in Hm. discriminate.
Qed.

Lemma cache_inv_get u now c : cache_inv c → cache_inv (get u now c).2.
Proof.
  intros Hc. rewrite get_unfold. destruct (cache_map c !! u) as [e|]; [|done].
  destruct (isExpired _ _); [done|]. case_decide; [done|].
  by apply cache_inv_store.
Qed.

Lemma cache_inv_run_op c o : cache_inv c → cache_inv (run_op c o).
Proof.
  destruct o; simpl; [apply cache_inv_get | apply cache_inv_put].
Qed.

Lemma reachable_cache_inv size clean_sec t0 c :
  reachable size clean_sec t0 c → cache_inv c.
Proof.
  induction 1; [apply cache_inv_new | by apply cache_inv_run_op].
Qed.

(** ** The size of the map *)

Lemma size_delete_le {A} (m : gmap string A) u : (size (delete u m) ≤ size m)%nat.
Proof. rewrite map_size_delete. destruct (m !! u); simpl; lia. Qed.

Lemma sweep_entry_frame now u e c :
  max_entries (sweep_entry now u e c) = max_entries c
  ∧ (size (cache_map (sweep_entry now u e c)) ≤ size (cache_map c))%nat.
Proof.
  unfold sweep_entry. destruct (isExpired _ _); simpl; [|done].
  split; [done | apply size_delete_le].
Qed.

Lemma cleanExpiredResponse_frame now c :
  max_entries (cleanExpiredResponse now c) = max_entries c
  ∧ (size (cache_map (cleanExpiredResponse now c)) ≤ size (cache_map c))%nat.
Proof.
  unfold cleanExpiredResponse.
  apply (map_fold_weak_ind
           (λ r _, max_entries r = max_entries c
                   ∧ (size (cache_map r) ≤ size (cache_map c))%nat)); [done|].
  intros u e _ r _ [Hmax Hsize].
  destruct (sweep_entry_frame now u e r) as [-> ?]. split; [done | lia].
Qed.

(** When the loop of [cacheUpdate] stops, its condition is false. *)
Lemma evict_from_back_stops max back : ∀ m,
  (size (evict_from_back max m back).1 < max)%nat
  ∨ (evict_from_back max m back).2 = [].
Proof.
  induction back as [|x back IH]; intros m; simpl; [by right|].
  case_decide; [apply IH | left; simpl; lia].
Qed.

Lemma max_entries_cacheUpdate c : max_entries (cacheUpdate c) = max_entries c.
Proof. unfold cacheUpdate. by destruct (evict_from_back _ _ _). Qed.

Lemma cacheUpdate_makes_room c :
  cache_inv c → (1 ≤ max_entries c)%nat →
  (size (cache_map (cacheUpdate c)) < max_entries c)%nat.
Proof.
  intros Hc Hmax. pose proof (cache_inv_cacheUpdate c Hc) as Hc'.
  apply cache_inv_size in Hc'. revert Hc'. unfold cacheUpdate.
  destruct (evict_from_back_stops (max_entries c) (reverse (lru_list c)) (cache_map c))
    as [Hlt|Hnil]; destruct (evict_from_back _ _ _) as [m back]; simpl in *.
  - done.
  - subst back. simpl. intros ->. done.
Qed.

Lemma max_entries_put u resp now c : max_entries (put u resp now c) = max_entries c.
Proof.
  unfold put. destruct resp as [r|]; [|done]. case_decide; [done|].
  assert (max_entries (if decide (now - last_cleanup c > seconds (cleanup_interval c))
                       then cleanExpiredResponse now c else c) = max_entries c) as Hm.
  { case_decide; [apply cleanExpiredResponse_frame | done]. }
  destruct (cache_map _ !! u); simpl; [done|]. by rewrite max_entries_cacheUpdate.
Qed.

Lemma max_entries_get u now c : max_entries (get u now c).2 = max_entries c.
Proof.
  rewrite get_unfold. destruct (cache_map c !! u) as [e|]; [|done].
  destruct (isExpired _ _); [done|]. by case_decide.
Qed.

Lemma size_put u resp now c :
  cache_inv c → (1 ≤ max_entries c)%nat →
  (size (cache_map c) ≤ max_entries c)%nat →
  (size (cache_map (put u resp now c)) ≤ max_entries c)%nat.
Proof.
  intros Hc Hmax Hsize. unfold put. destruct resp as [r|]; [|done].
  case_decide; [done|].
  set (c1 := if decide _ then _ else c).
  assert (cache_inv c1 ∧ max_entries c1 = max_entries c
          ∧ (size (cache_map c1) ≤ max_entries c)%nat) as (Hc1 & Hm1 & Hs1).
  { subst c1. case_decide; [|done].
    destruct (cleanExpiredResponse_frame now c) as [? ?].
    split_and!; [by apply cache_inv_cleanExpiredResponse | done | lia]. }
  clearbody c1. destruct (cache_map c1 !! u) as [it|] eqn:Hu; simpl.
  - rewrite map_size_insert_Some by eauto. done.
  - pose proof (cacheUpdate_makes_room c1 Hc1) as Hroom.
    rewrite map_size_insert. destruct (cache_map (cacheUpdate c1) !! u); simpl; lia.
Qed.

Lemma size_get u now c : size (cache_map (get u now c).2) = size (cache_map c).
Proof.
  rewrite get_unfold. destruct (cache_map c !! u) as [e|] eqn:Hu; [|done].
  destruct (isExpired _ _); [done|]. case_decide; [done|]. simpl.
  apply map_size_insert_Some. eauto.
Qed.

Lemma reachable_bounded size clean_sec t0 c :
  (1 ≤ size)%nat → reachable size clean_sec t0 c →
  max_entries c = size ∧ (cache_size c ≤ size)%nat.
Proof.
  intros Hsize. unfold cache_size. induction 1 as [|c o Hr [Hmax IH]].
  - simpl. rewrite map_size_empty. split; [done | lia].
  - apply reachable_cache_inv in Hr. destruct o as [u now|u resp now]; simpl.
    + rewrite max_entries_get, size_get. done.
    + rewrite max_entries_put. split; [done|].
      rewrite <- Hmax. apply size_put; [done | lia | lia].
Qed.

(** ** What [get] leaves alone *)

Lemma get_status u now c :
  (get u now c).1.1 = NOT_IN_CACHE ↔ cache_map c !! u = None.
Proof.
  rewrite get_unfold. destruct (cache_map c !! u) as [e|]; [|done].
  destruct (isExpired _ _); [done|]. by case_decide.
Qed.

Lemma get_returns u now c :
  (get u now c).1.2 = response <$> cache_map c !! u.
Proof.
  rewrite get_unfold. destruct (cache_map c !! u) as [e|]; [|done].
  destruct (isExpired _ _); [done|]. by case_decide.
Qed.

Lemma get_keeps_responses u now c v :
  response <$> cache_map (get u now c).2 !! v = response <$> cache_map c !! v.
Proof.
  rewrite get_unfold. destruct (cache_map c !! u) as [e|] eqn:Hu; [|done].
  destruct (isExpired _ _); [done|]. case_decide; [done|]. simpl.
  rewrite lookup_insert. case_decide; subst; [by rewrite Hu | done].
Qed.

Lemma get_keeps_lru_elements u now c x :
  cache_inv c → x ∈ lru_list (get u now c).2 ↔ x ∈ lru_list c.
Proof.
  intros [_ Hel]. rewrite get_unfold.
  destruct (cache_map c !! u) as [e|] eqn:Hu; [|done].
  destruct (isExpired _ _); [done|]. case_decide; [done|]. simpl.
  rewrite elem_of_cons, elem_of_lru_remove. split.
  - intros [->|[_ ?]]; [apply Hel; eauto | done].
  - intros ?. destruct (decide (x = u)); [by left | by right].
Qed.

(** ** Filling the cache with distinct, fresh entries *)

Lemma NoDup_fst_functional {A B} (l : list (A * B)) x y1 y2 :
  NoDup (l.*1) → (x, y1) ∈ l → (x, y2) ∈ l → y1 = y2.
Proof.
  induction l as [|[a b] l IH]; simpl; intros Hnd H1 H2.
  { by apply elem_of_nil in H1. }
  apply NoDup_cons in Hnd as [Ha Hnd].
  apply elem_of_cons in H1 as [H1|H1]; apply elem_of_cons in H2 as [H2|H2].
  - congruence.
  - destruct Ha. apply list_elem_of_fmap. exists (x, y2). split; [simpl; congruence | done].
  - destruct Ha. apply list_elem_of_fmap. exists (x, y1). split; [simpl; congruence | done].
  - by apply IH.
Qed.

Lemma cleanExpiredResponse_fresh now c :
  (∀ u e, cache_map c !! u = Some e → isExpired now (response e) = false) →
  cleanExpiredResponse now c = set_last_cleanup now c.
Proof.
  unfold cleanExpiredResponse.
  apply (map_fold_weak_ind
           (λ r m, (∀ u e, m !! u = Some e → isExpired now (response e) = false)
                   → r = set_last_cleanup now c)); [done|].
  intros u e m r Hu IH Hfresh. unfold sweep_entry.
  rewrite (Hfresh u e) by apply lookup_insert_eq. apply IH.
  intros v e' Hv. apply (Hfresh v). rewrite lookup_insert_ne; [done|].
  intros ->. congruence.
Qed.

Lemma evict_from_back_subset max back : ∀ m v e,
  (evict_from_back max m back).1 !! v = Some e → m !! v = Some e.
Proof.
  induction back as [|x back IH]; intros m v e; simpl; [done|].
  case_decide; [|done]. intros Hv%IH. by apply lookup_delete_Some in Hv as [_ ?].
Qed.

Lemma evict_from_back_room max m back :
  (size m < max)%nat → evict_from_back max m back = (m, back).
Proof. intros ?. destruct back; simpl; [done|]. case_decide; [lia | done]. Qed.

Lemma evict_from_back_full max m x back :
  is_Some (m !! x) → size m = max → (1 ≤ max)%nat →
  evict_from_back max m (x :: back) = (delete x m, back).
Proof.
  intros Hx Hsize Hmax. simpl. case_decide; [|lia].
  apply evict_from_back_room. rewrite map_size_delete_Some by done. lia.
Qed.

Lemma cacheUpdate_subset c v e :
  cache_map (cacheUpdate c) !! v = Some e → cache_map c !! v = Some e.
Proof.
  unfold cacheUpdate.
  pose proof (evict_from_back_subset (max_entries c) (reverse (lru_list c))
                (cache_map c) v e) as Hsub.
  by destruct (evict_from_back _ _ _).
Qed.

(** With at most [max_entries] entries, [cacheUpdate] evicts at most the
    last element of the list. *)
Lemma lru_list_cacheUpdate c :
  cache_inv c → (1 ≤ max_entries c)%nat →
  (size (cache_map c) ≤ max_entries c)%nat →
  lru_list (cacheUpdate c) = firstn (max_entries c - 1) (lru_list c).
Proof.
  intros Hc Hmax Hsize. pose proof (cache_inv_size c Hc) as Hlen.
  destruct Hc as [Hnd Hel]. unfold cacheUpdate.
  destruct (decide (size (cache_map c) < max_entries c)%nat) as [Hlt|Hge].
  - rewrite evict_from_back_room by done. simpl.
    rewrite reverse_involutive, take_ge by lia. done.
  - destruct (reverse (lru_list c)) as [|x back] eqn:Hrev.
    + apply (f_equal length) in Hrev. rewrite length_reverse in Hrev.
      simpl in Hrev. lia.
    + apply (f_equal reverse) in Hrev.
      rewrite reverse_involutive, reverse_cons in Hrev.
      rewrite evict_from_back_full; [|apply Hel; rewrite Hrev, elem_of_app, elem_of_cons; auto|lia|lia].
      simpl. rewrite Hrev. rewrite take_app_length'; [done|].
      rewrite Hrev, length_app in Hlen. simpl in Hlen. lia.
Qed.

Lemma holds_recent_new max clean_sec t0 :
  holds_recent max [] (new_Cache max clean_sec t0).
Proof.
  split_and!; [apply cache_inv_new | done | by destruct max |].
  intros v e. simpl. by rewrite lookup_empty.
Qed.

Lemma holds_recent_put max ps c u r t :
  (1 ≤ max)%nat → holds_recent max ps c →
  u ∉ urls ps → cache_mode r ≠ CACHE_NO_STORE →
  (∀ p, p ∈ ps → isExpired t p.1.2 = false) →
  holds_recent max (ps ++ [(u, r, t)]) (put u (Some r) t c).
Proof.
  intros Hmax (Hc & Hm & Hlru & Hfrom) Hu Hmode Hfresh.
  assert (∀ v e, cache_map c !! v = Some e → isExpired t (response e) = false)
    as Hfresh'.
  { intros v e [t' Hin]%Hfrom. apply (Hfresh _ Hin). }
  pose proof (cache_inv_put u (Some r) t c Hc) as Hinv.
  pose proof (max_entries_put u (Some r) t c) as Hmax'.
  revert Hinv Hmax'. unfold put. rewrite decide_False by done.
  set (c1 := if decide _ then _ else c).
  assert (cache_map c1 = cache_map c ∧ lru_list c1 = lru_list c
          ∧ max_entries c1 = max_entries c ∧ cache_inv c1) as (Hm1 & Hl1 & Hx1 & Hc1).
  { subst c1. case_decide; [|done].
    rewrite cleanExpiredResponse_fresh by done. by destruct Hc. }
  clearbody c1.
  assert (u ∉ lru_list c) as Hul.
  { rewrite Hlru. intros Hin. apply (subseteq_take max (reverse (urls ps))) in Hin.
    apply Hu. by apply elem_of_reverse. }
  assert (cache_map c1 !! u = None) as ->.
  { rewrite Hm1. destruct Hc as [_ Hel].
    destruct (cache_map c !! u) eqn:Heq; [|done]. exfalso. apply Hul, Hel. eauto. }
  intros Hinv Hmax'.
  assert (lru_list (cacheUpdate c1) = firstn (max - 1) (lru_list c)) as Hl2.
  { rewrite lru_list_cacheUpdate, Hx1, Hm, Hl1; [done|done|lia|].
    rewrite Hm1, Hx1, (cache_inv_size c Hc), Hlru, length_take. lia. }
  split_and!; [done | by rewrite Hmax' | |].
  - simpl. rewrite Hl2, lru_remove_absent.
    2:{ intros Hin. by apply (subseteq_take (max - 1) (lru_list c)) in Hin. }
    unfold urls. rewrite !fmap_app, reverse_app. simpl.
    rewrite Hlru, take_take. destruct max as [|n]; [lia|]. simpl.
    do 2 f_equal; lia.
  - intros v e. simpl. rewrite lookup_insert. case_decide as Hv.
    + intros [= <-]. subst v. exists t. simpl. rewrite elem_of_app, elem_of_cons. auto.
    + intros He%cacheUpdate_subset. rewrite Hm1 in He.
      destruct (Hfrom v e He) as [t' Hin]. exists t'. rewrite elem_of_app. auto.
Qed.

Lemma holds_recent_put_all max qs : ∀ ps c,
  (1 ≤ max)%nat → holds_recent max ps c →
  NoDup (urls (ps ++ qs)) →
  (∀ p, p ∈ qs → cache_mode p.1.2 ≠ CACHE_NO_STORE) →
  (∀ p q, p ∈ ps ++ qs → q ∈ qs → isExpired q.2 p.1.2 = false) →
  holds_recent max (ps ++ qs) (put_all qs c).
Proof.
  induction qs as [|[[u r] t] qs IH]; intros ps c Hmax Hh Hnd Hmode Hfresh.
  { by rewrite app_nil_r. }
  simpl. replace (ps ++ (u, r, t) :: qs) with ((ps ++ [(u, r, t)]) ++ qs) in *
    by (by rewrite <- app_assoc).
  apply IH; [done| |done| |].
  - apply holds_recent_put; [done..| | |].
    + unfold urls in Hnd. rewrite !fmap_app in Hnd. simpl in Hnd.
      rewrite <- app_assoc in Hnd. apply NoDup_app in Hnd as (_ & Hnd & _).
      intros Hin. apply (Hnd u Hin). rewrite elem_of_app, elem_of_cons. auto.
    + apply (Hmode (u, r, t)). by left.
    + intros p Hp. apply (Hfresh p (u, r, t)); [|by left].
      rewrite !elem_of_app. auto.
  - intros p Hp. apply Hmode. by right.
  - intros p q Hp Hq. apply Hfresh; [done | by right].
Qed.

(** A run of [get] calls changes neither the responses stored nor the
    elements of the list. *)
Lemma gets_keep gets : ∀ c,
  Forall is_get gets → cache_inv c →
  cache_inv (foldl run_op c gets)
  ∧ ∀ v, response <$> cache_map (foldl run_op c gets) !! v
         = response <$> cache_map c !! v.
Proof.
  induction gets as [|o gets IH]; intros c Hg Hc; simpl; [done|].
  apply Forall_cons in Hg as [Ho Hg]. destruct o as [u now|]; [|done]. simpl.
  destruct (IH (get u now c).2 Hg (cache_inv_get u now c Hc)) as [Hc' Hresp].
  split; [done|]. intros v. by rewrite Hresp, get_keeps_responses.
Qed.

(** ** The statements about the cache *)

(** C2. [Cache::get] answers [NOT_IN_CACHE] with a null pointer for a url
    that is not in the map; else [EXPIRED] with the stored response when its
    [expire_time] is empty or parses to a time before now; else
    [REQUIRES_VALIDATION] with the stored response when its mode is
    [CACHE_MUST_REVALIDATE]; else [VALID] with the stored response, and then
    the url is at the front of the LRU list and the entry's [last_checked] is
    now. Only in the last case does the cache change. The new list is the url
    followed by the elements of the old list that differ from it, in their
    order: a url that stood once in the list, between [before] and [after],
    leaves [url :: before ++ after]. *)
Theorem get_classifies u now c :
  get u now c =
    match cache_map c !! u with
    | None => (NOT_IN_CACHE, None, c)
    | Some e =>
        if bool_decide (expire_time (response e) = ""
                        ∨ parseHttpDate (expire_time (response e)) < now)
        then (EXPIRED, Some (response e), c)
        else if bool_decide (cache_mode (response e) = CACHE_MUST_REVALIDATE)
        then (REQUIRES_VALIDATION, Some (response e), c)
        else (VALID, Some (response e),
              mkCache (<[u := mkCacheEntry (response e) (url e) now]> (cache_map c))
                (u :: filter (λ v, v ≠ u) (lru_list c))
                (max_entries c) (cleanup_interval c) (last_cleanup c))
    end
  ∧ (∀ r before after,
       (get u now c).1 = (VALID, Some r) →
       lru_list c = before ++ u :: after → u ∉ before → u ∉ after →
       lru_list (get u now c).2 = u :: before ++ after).
Proof.
  split.
  2:{ intros r before after Hvalid Hlist Hb Ha. revert Hvalid.
      rewrite get_unfold. destruct (cache_map c !! u) as [e|]; [|done].
      destruct (isExpired now (response e)); [done|].
      destruct (decide (cache_mode (response e) = CACHE_MUST_REVALIDATE)); [done|].
      intros _. simpl. f_equal. rewrite Hlist. unfold lru_remove.
      rewrite filter_app, filter_cons_False by (by intros ?).
      f_equal; apply lru_remove_absent; done. }
  rewrite get_unfold. destruct (cache_map c !! u) as [e|]; [|done].
  unfold isExpired. destruct (decide (expire_time (response e) = "")) as [He|He].
  - rewrite bool_decide_eq_true_2 by auto. done.
  - destruct (decide (now > parseHttpDate (expire_time (response e)))) as [Hlt|Hge].
    + rewrite !bool_decide_eq_true_2; [done | right; lia | done].
    + rewrite (bool_decide_eq_false_2 (now > _)) by done.
      rewrite (bool_decide_eq_false_2 (_ ∨ _)) by (intros [?|?]; [done | lia]).
      destruct (decide (cache_mode (response e) = CACHE_MUST_REVALIDATE)).
      * by rewrite bool_decide_eq_true_2.
      * by rewrite bool_decide_eq_false_2.
Qed.

(** C4. In every state of a cache built with [max_entries >= 1] and driven
    by [get] and [put], the map has at most [max_entries] entries. *)
Theorem size_never_exceeds_max_entries size clean_sec t0 c :
  (1 ≤ size)%nat → reachable size clean_sec t0 c →
  (cache_size c ≤ size)%nat ∧ max_entries c = size.
Proof.
  intros Hsize Hr.
  destruct (reachable_bounded size clean_sec t0 c Hsize Hr). done.
Qed.

(** C5. In every state reached from the empty cache the keys of the map are
    the elements of the LRU list, which has no duplicates; [get] and [put]
    both preserve this. *)
Theorem keys_are_lru_elements :
  (∀ size clean_sec t0 c, reachable size clean_sec t0 c → cache_inv c)
  ∧ (∀ u now c, cache_inv c → cache_inv (get u now c).2)
  ∧ (∀ u resp now c, cache_inv c → cache_inv (put u resp now c)).
Proof.
  split_and!.
  - apply reachable_cache_inv.
  - apply cache_inv_get.
  - apply cache_inv_put.
Qed.

(** C6, amended: for [max_entries >= 1]. After [put] calls with pairwise
    distinct urls, responses whose mode is not [CACHE_NO_STORE] and that are
    not expired at the time of any of the calls, made on the empty cache, and
    after any number of [get] calls: a [get] for one of the last
    [max_entries] urls put answers another status than [NOT_IN_CACHE] and
    returns the response put with it, and a [get] for any url put before them
    answers [NOT_IN_CACHE] and returns null. *)
Theorem most_recent_survive max clean_sec t0 old recent gets :
  (1 ≤ max)%nat → length recent = max →
  NoDup (urls (old ++ recent)) →
  (∀ p, p ∈ old ++ recent → cache_mode p.1.2 ≠ CACHE_NO_STORE) →
  (∀ p q, p ∈ old ++ recent → q ∈ old ++ recent → isExpired q.2 p.1.2 = false) →
  Forall is_get gets →
  most_recent_survive_statement max clean_sec t0 old recent gets.
Proof.
  intros Hmax Hlen Hnd Hmode Hfresh Hgets. unfold most_recent_survive_statement.
  set (c := foldl run_op _ gets).
  destruct (holds_recent_put_all max (old ++ recent) [] (new_Cache max clean_sec t0))
    as (Hc & _ & Hlru & Hfrom); [done|apply holds_recent_new|done|done|done|].
  simpl in Hlru, Hfrom.
  destruct (gets_keep gets _ Hgets Hc) as [_ Hresp]. fold c in Hresp.
  assert (firstn max (reverse (urls (old ++ recent))) = reverse (urls recent)) as Hkeep.
  { unfold urls. rewrite !fmap_app, reverse_app.
    apply take_app_length'. by rewrite length_reverse, !length_fmap. }
  rewrite Hkeep in Hlru. destruct Hc as [_ Hel].
  assert (∀ u, response <$> cache_map c !! u = None ↔ u ∉ urls recent) as Hnone.
  { intros u. rewrite Hresp, fmap_None, <- (elem_of_reverse u (urls recent)), <- Hlru, Hel.
    rewrite eq_None_not_Some. done. }
  split.
  - intros u r t now Hin.
    assert (u ∈ urls recent) as Hu.
    { unfold urls. apply list_elem_of_fmap. exists (u, r).
      split; [done|]. apply list_elem_of_fmap. by exists (u, r, t). }
    rewrite get_status, get_returns.
    destruct (cache_map c !! u) as [e|] eqn:He.
    2:{ exfalso. apply (proj1 (Hnone u)); [by rewrite He | done]. }
    split; [done|]. simpl. f_equal.
    assert (response <$> cache_map (put_all (old ++ recent) (new_Cache max clean_sec t0)) !! u
            = Some (response e)) as Hput by (by rewrite <- Hresp, He).
    apply fmap_Some in Hput as (e' & He' & Heq).
    destruct (Hfrom u e' He') as [t' Hin']. rewrite <- Heq in Hin'.
    apply (NoDup_fst_functional ((old ++ recent).*1) u).
    + exact Hnd.
    + apply list_elem_of_fmap. by exists (u, response e, t').
    + apply list_elem_of_fmap. exists (u, r, t). split; [done|].
      rewrite elem_of_app. auto.
  - intros u r t now Hin.
    assert (u ∉ urls recent) as Hu.
    { unfold urls in Hnd. rewrite !fmap_app in Hnd.
      apply NoDup_app in Hnd as (_ & Hdis & _). apply Hdis.
      apply list_elem_of_fmap. exists (u, r).
      split; [done|]. apply list_elem_of_fmap. by exists (u, r, t). }
    apply Hnone in Hu. apply fmap_None in Hu.
    rewrite get_unfold, Hu. done.
Qed.

(** C7. [Cache::put] with a null response or with a response whose mode is
    [CACHE_NO_STORE] leaves the cache as it was: same map, same list, same
    [last_cleanup]. *)
Theorem put_no_store_is_noop u resp now c :
  (resp = None ∨ ∃ r, resp = Some r ∧ cache_mode r = CACHE_NO_STORE) →
  put u resp now c = c.
Proof.
  intros [->|(r & -> & Hmode)]; [done|].
  unfold put. by rewrite decide_True.
Qed.

(** C9. [Cache::get] removes nothing: on a state reached from the empty
    cache it leaves the keys of the map, the responses stored under them and
    the elements of the LRU list as they were; an expired entry is answered
    with [EXPIRED] and stays where it is, the cache being unchanged. *)
Theorem get_removes_nothing size clean_sec t0 c u now :
  reachable size clean_sec t0 c →
  dom (cache_map (get u now c).2) = dom (cache_map c)
  ∧ (∀ v, response <$> cache_map (get u now c).2 !! v = response <$> cache_map c !! v)
  ∧ (∀ v, v ∈ lru_list (get u now c).2 ↔ v ∈ lru_list c)
  ∧ (∀ e, cache_map c !! u = Some e → isExpired now (response e) = true →
          get u now c = (EXPIRED, Some (response e), c)).
Proof.
  intros Hc%reachable_cache_inv. split_and!.
  - apply set_eq. intros v. rewrite !elem_of_dom, <- !(fmap_is_Some response).
    by rewrite get_keeps_responses.
  - apply get_keeps_responses.
  - intros v. by apply get_keeps_lru_elements.
  - intros e He Hexp. by rewrite get_unfold, He, Hexp.
Qed.

(** C10. A response with visibility [CACHE_PRIVATE] never reaches the cache:
    [isCacheable], called by [handleCaching] with [isPrivateCache = false],
    is false for it whatever its status code and other directives are, and
    [handleCaching] logs it as not cacheable and leaves the cache as it was. *)
Theorem private_response_not_cached resp u request_id now c log :
  cache_visibility resp = CACHE_PRIVATE →
  isCacheable resp false = false
  ∧ ∃ reason,
      handleCaching resp u request_id now (c, log)
      = (c, log ++ [(request_id, NOT_CACHEABLE, reason)]).
Proof.
  intros Hpriv.
  assert (isCacheable resp false = false) as Hno.
  { unfold isCacheable. case_decide; [done|]. by rewrite decide_True. }
  split; [done|]. unfold handleCaching. rewrite Hno. simpl. eauto.
Qed.

(** * Properties of the response parser *)

(** ** Which members each step writes *)

Lemma parse_status_line_directives r l :
  directives_of (parse_status_line r l) = directives_of r.
Proof.
  unfold parse_status_line. destruct (Str.extract_word l) as [[v rest]|]; [|done].
  destruct (Str.extract_int rest); [|done..]. by case_decide.
Qed.

Lemma header_field_directives r k v r' :
  header_field r k v = Some r' → directives_of r' = directives_of r.
Proof.
  unfold header_field. repeat case_decide.
  - by intros [= <-].
  - destruct (Str.stoi v); simpl; [|done]. by intros [= <-].
  - by intros [= <-].
Qed.

Lemma header_line_directives r l r' :
  header_line r l = Some r' → directives_of r' = directives_of r.
Proof.
  unfold header_line. destruct (Str.find_char _ _).
  - apply header_field_directives.
  - by intros [= <-].
Qed.

Lemma header_loop_directives ls : ∀ r r' ls',
  header_loop r ls = Some (r', ls') → directives_of r' = directives_of r.
Proof.
  induction ls as [|l ls IH]; intros r r' ls'; simpl.
  { by intros [= <- <-]. }
  case_decide; [by intros [= <- <-]|].
  destruct (header_line r l) as [r1|] eqn:Hl; simpl; [|done].
  intros Hloop%IH. rewrite Hloop. by apply header_line_directives in Hl.
Qed.

Lemma assign_max_age_frame n d r :
  head_of (assign_max_age n d r) = head_of r
  ∧ body (assign_max_age n d r) = body r
  ∧ expire_time (assign_max_age n d r) = expire_time r
  ∧ no_store (assign_max_age n d r) = no_store r
  ∧ no_cache (assign_max_age n d r) = no_cache r
  ∧ must_revalidate (assign_max_age n d r) = must_revalidate r
  ∧ cache_mode (assign_max_age n d r) = cache_mode r
  ∧ cache_visibility (assign_max_age n d r) = cache_visibility r.
Proof. unfold assign_max_age. by destruct (_ ≫= _). Qed.

Lemma cc_directive_frame st raw :
  head_of (cc_directive st raw).1 = head_of st.1
  ∧ body (cc_directive st raw).1 = body st.1
  ∧ expire_time (cc_directive st raw).1 = expire_time st.1.
Proof.
  destruct st as [r b]. unfold cc_directive.
  repeat case_decide; simpl; try done.
  - destruct b; [done|]. destruct (assign_max_age_frame 8 (trim_directive raw) r).
    prop.
  - destruct (assign_max_age_frame 9 (trim_directive raw) r). prop.
Qed.

Lemma cc_directives_frame raws : ∀ st,
  head_of (foldl cc_directive st raws).1 = head_of st.1
  ∧ body (foldl cc_directive st raws).1 = body st.1
  ∧ expire_time (foldl cc_directive st raws).1 = expire_time st.1.
Proof.
  induction raws as [|raw raws IH]; intros st; simpl; [done|].
  destruct (IH (cc_directive st raw)) as (-> & -> & ->).
  apply cc_directive_frame.
Qed.

Lemma parseCacheControl_frame r :
  head_of (parseCacheControl r) = head_of r
  ∧ body (parseCacheControl r) = body r
  ∧ expire_time (parseCacheControl r) = expire_time r.
Proof.
  unfold parseCacheControl. destruct (header r !! HEADER_CACHECTRL) as [v|]; [|done].
  pose proof (cc_directives_frame (Str.getlines "," v) (r, false)) as Hf.
  destruct (foldl _ _ _) as [r1 b]. simpl in Hf. by case_match.
Qed.

Lemma setExpiredTime_frame r :
  head_of (setExpiredTime r) = head_of r
  ∧ body (setExpiredTime r) = body r
  ∧ directives_of (setExpiredTime r) = directives_of r.
Proof.
  unfold setExpiredTime.
  repeat (case_match; try done).
Qed.

(** ** The directives [no-store], [no-cache] and the two [revalidate] *)

Lemma cc_directive_flags st raw :
  let d := trim_directive raw in
  (d ≠ CACHECTR_NO_CACHE → no_cache (cc_directive st raw).1 = no_cache st.1)
  ∧ (d ≠ CACHECTR_REVALIDATE → d ≠ CACHECTR_PROXY_REVALIDATE →
     must_revalidate (cc_directive st raw).1 = must_revalidate st.1)
  ∧ (d = CACHECTR_NO_STORE → no_store (cc_directive st raw).1 = true)
  ∧ (no_store st.1 = true → no_store (cc_directive st raw).1 = true).
Proof.
  destruct st as [r b]. unfold cc_directive. simpl.
  destruct (assign_max_age_frame 8 (trim_directive raw) r) as (_&_&_&?&?&?&_).
  destruct (assign_max_age_frame 9 (trim_directive raw) r) as (_&_&_&?&?&?&_).
  repeat case_decide; simpl; split_and!; try congruence; try prop; try done;
    destruct b; simpl; congruence.
Qed.

Lemma cc_directives_no_store raws : ∀ st,
  no_cache st.1 = false → must_revalidate st.1 = false →
  (no_store st.1 = true ∨ CACHECTR_NO_STORE ∈ trim_directive <$> raws) →
  CACHECTR_NO_CACHE ∉ trim_directive <$> raws →
  CACHECTR_REVALIDATE ∉ trim_directive <$> raws →
  CACHECTR_PROXY_REVALIDATE ∉ trim_directive <$> raws →
  no_store (foldl cc_directive st raws).1 = true
  ∧ no_cache (foldl cc_directive st raws).1 = false
  ∧ must_revalidate (foldl cc_directive st raws).1 = false.
Proof.
  induction raws as [|raw raws IH]; intros st Hnc Hmr Hns H1 H2 H3; simpl.
  { destruct Hns as [?|Hns]; [done|]. by apply elem_of_nil in Hns. }
  rewrite fmap_cons in *. apply not_elem_of_cons in H1 as [? ?].
  apply not_elem_of_cons in H2 as [? ?]. apply not_elem_of_cons in H3 as [? ?].
  destruct (cc_directive_flags st raw) as (Hc & Hm & Hs & Hs').
  apply IH; [rewrite Hc; auto | rewrite Hm; auto | | done..].
  destruct Hns as [?|[?|?]%elem_of_cons]; auto.
Qed.

Lemma parseResponse_steps r buf R :
  parseResponse r buf = Some R →
  ∃ status_line lines r2 lines',
    Str.getlines LF buf = status_line :: lines
    ∧ header_loop (parse_status_line r status_line) lines = Some (r2, lines')
    ∧ R = setExpiredTime
            (parseCacheControl
               (if is_chunked r2 then r2 else set_body (read_body lines') r2)).
Proof.
  unfold parseResponse. destruct (Str.getlines LF buf) as [|l ls]; [done|].
  destruct (header_loop _ ls) as [[r2 ls']|] eqn:Hloop; simpl; [|done].
  intros [= <-]. by exists l, ls, r2, ls'.
Qed.

(** the object on which [parseCacheControl] runs inside [parseResponse] *)
Lemma parseResponse_before_directives buf R :
  parseResponse new_Response buf = Some R →
  ∃ r3, R = setExpiredTime (parseCacheControl r3)
        ∧ directives_of r3 = directives_of new_Response
        ∧ header r3 = header R.
Proof.
  intros (l & ls & r2 & ls' & _ & Hloop & ->)%parseResponse_steps.
  eexists. split; [done|].
  apply header_loop_directives in Hloop.
  rewrite parse_status_line_directives in Hloop.
  destruct (setExpiredTime_frame
              (parseCacheControl
                 (if is_chunked r2 then r2 else set_body (read_body ls') r2)))
    as (Hh & _ & _).
  destruct (parseCacheControl_frame
              (if is_chunked r2 then r2 else set_body (read_body ls') r2))
    as (Hh' & _ & _).
  split; [by destruct (is_chunked r2)|]. unfold head_of in *. congruence.
Qed.

(** ** The statements about [parseCacheControl] *)

(** C1, as the code has it. For a response whose [Cache-Control] value has
    the directive [no-store] and none of [no-cache], [must-revalidate],
    [proxy-revalidate], [parseResponse] ends with [no_store] set and with
    [cache_mode] equal to [CACHE_NORMAL], not [CACHE_NO_STORE]: the last
    statement of [parseCacheControl] tests [no_cache] twice and [no_store]
    not at all. *)
Theorem no_store_alone_ends_as_normal buf R value :
  parseResponse new_Response buf = Some R →
  header R !! HEADER_CACHECTRL = Some value →
  CACHECTR_NO_STORE ∈ trim_directive <$> Str.getlines "," value →
  CACHECTR_NO_CACHE ∉ trim_directive <$> Str.getlines "," value →
  CACHECTR_REVALIDATE ∉ trim_directive <$> Str.getlines "," value →
  CACHECTR_PROXY_REVALIDATE ∉ trim_directive <$> Str.getlines "," value →
  no_store R = true ∧ cache_mode R = CACHE_NORMAL ∧ cache_mode R ≠ CACHE_NO_STORE.
Proof.
  intros (r3 & -> & Hd & Hh)%parseResponse_before_directives Hv Hs Hc Hm Hp.
  destruct (setExpiredTime_frame (parseCacheControl r3)) as (_ & _ & Hf).
  assert (no_store (setExpiredTime (parseCacheControl r3))
          = no_store (parseCacheControl r3)
          ∧ cache_mode (setExpiredTime (parseCacheControl r3))
            = cache_mode (parseCacheControl r3)) as [-> ->].
  { unfold directives_of in Hf. by simplify_eq. }
  unfold directives_of in Hd. simpl in Hd.
  unfold parseCacheControl. rewrite Hh, Hv.
  destruct (cc_directives_no_store (Str.getlines "," value) (r3, false))
    as (Hs' & Hc' & Hm'); simpl; [congruence|congruence|auto|done..|].
  destruct (foldl _ _ _) as [r1 b]. simpl in *. rewrite Hc', Hm'. simpl.
  split_and!; [done..|]. unfold CACHE_NORMAL, CACHE_NO_STORE. lia.
Qed.

Lemma append_cons a s t : String a s +:+ t = String a (s +:+ t).
Proof. reflexivity. Qed.

Lemma append_nil_l t : "" +:+ t = t.
Proof. reflexivity. Qed.

Lemma prefix_app p : ∀ s,
  String.prefix p s = true ↔ ∃ rest, s = p +:+ rest.
Proof.
  induction p as [|a p IH]; intros s.
  { split; [by exists s | by destruct s]. }
  destruct s as [|b s]; cbn [String.prefix].
  { split; [done | by intros [? ?]]. }
  destruct (Ascii.ascii_dec a b) as [<-|Hne].
  - rewrite IH. split; intros [rest Hr]; exists rest.
    + by rewrite append_cons, <- Hr.
    + rewrite append_cons in Hr. congruence.
  - split; [done|]. intros [rest Hr]. rewrite append_cons in Hr. congruence.
Qed.

Lemma find_at_front pat s :
  Str.find pat s = Some 0%nat ↔ String.prefix pat s = true.
Proof.
  destruct s as [|a s]; cbn [Str.find]; destruct (String.prefix pat _); try done.
  split; [|done]. by destruct (Str.find pat s).
Qed.

(** A directive that begins with [s-maxage=] changes nothing at all:
    [find] answers 0 for it, and 0 is false. *)
Lemma cc_directive_smaxage_skipped st raw :
  Str.find CACHECTR_SMAXAGE (trim_directive raw) = Some 0%nat →
  cc_directive st raw = st.
Proof.
  destruct st as [r b]. unfold cc_directive. intros Hfind.
  pose proof Hfind as [rest Hd]%find_at_front%prefix_app.
  cbv beta iota delta [String.append CACHECTR_SMAXAGE] in Hd. fold String.append in Hd.
  rewrite decide_False by (by rewrite Hd).
  rewrite decide_False by (by rewrite Hd).
  rewrite decide_False by (rewrite Hd; by intros [?|?]).
  rewrite decide_False by (by rewrite Hd).
  rewrite decide_False by (by rewrite Hd).
  rewrite decide_False by (rewrite find_at_front, Hd; by vm_compute).
  rewrite decide_False by (rewrite Hfind; by intros []).
  done.
Qed.

(** A directive of none of the known forms reaches the [s-maxage] branch
    and, on a public response, is read as if it were [s-maxage=N]. *)
Lemma cc_directive_unknown_public r b raw :
  trim_directive raw ≠ CACHECTR_NO_STORE →
  trim_directive raw ≠ CACHECTR_NO_CACHE →
  trim_directive raw ≠ CACHECTR_REVALIDATE →
  trim_directive raw ≠ CACHECTR_PROXY_REVALIDATE →
  trim_directive raw ≠ CACHECTR_PRIVATE →
  trim_directive raw ≠ CACHECTR_PUBLIC →
  Str.find CACHECTR_MAXAGE (trim_directive raw) ≠ Some 0%nat →
  Str.find CACHECTR_SMAXAGE (trim_directive raw) ≠ Some 0%nat →
  cache_visibility r = CACHE_PUBLIC →
  cc_directive (r, b) raw = (assign_max_age 9 (trim_directive raw) r, true).
Proof.
  intros H1 H2 H3 H4 H5 H6 H7 H8 Hpub. unfold cc_directive.
  rewrite !decide_False by done.
  rewrite decide_False by (by intros [?|?]).
  rewrite !decide_False by done.
  by rewrite !decide_True by done.
Qed.

(** C3, as the code has it. The branch for [s-maxage] is taken when
    [directive.find("s-maxage=")] is not 0, that is for every directive that
    reaches it and does not begin with [s-maxage=]. So a directive
    [s-maxage=N] changes nothing, and an unknown directive on a public
    response overwrites [max_age] (with -1 when no number follows its ninth
    character) and makes later [max-age] directives ignored. *)
Theorem smaxage_branch_is_inverted :
  (∀ st raw,
     Str.find CACHECTR_SMAXAGE (trim_directive raw) = Some 0%nat →
     cc_directive st raw = st)
  ∧ (∀ r b,
       cache_visibility r = CACHE_PUBLIC →
       cc_directive (r, b) "foo" = (set_max_age (-1) r, true))
  ∧ (max_age <$> parseResponse new_Response
                   (response_with_cache_control "s-maxage=10, max-age=5")
     = Some 5)
  ∧ (max_age <$> parseResponse new_Response
                   (response_with_cache_control "public, s-maxage=10")
     = Some (-1))
  ∧ (max_age <$> parseResponse new_Response
                   (response_with_cache_control "max-age=60, foo")
     = Some (-1))
  ∧ (max_age <$> parseResponse new_Response
                   (response_with_cache_control "max-age=60, foo, max-age=30")
     = Some (-1)).
Proof.
  split; [apply cc_directive_smaxage_skipped|].
  split.
  { intros r b Hpub. by rewrite cc_directive_unknown_public. }
  split_and!; vm_compute; reflexivity.
Qed.

(** * Serialising a parsed response and parsing it again *)

(** ** Strings *)

Lemma append_assoc a b c : (a +:+ b) +:+ c = a +:+ (b +:+ c).
Proof. induction a as [|x a IH]; [done|]. by rewrite !append_cons, IH. Qed.

Lemma append_nil_r a : a +:+ "" = a.
Proof. induction a as [|x a IH]; [done|]. by rewrite append_cons, IH. Qed.

Lemma occurs_app c a b : occurs c (a +:+ b) ↔ occurs c a ∨ occurs c b.
Proof.
  induction a as [|x a IH]; [simpl; prop|].
  rewrite append_cons. simpl. rewrite IH. prop.
Qed.

Lemma getlines_app_delim d s t :
  ¬ occurs d s → Str.getlines d (s +:+ String d t) = s :: Str.getlines d t.
Proof.
  induction s as [|a s IH]; intros Hd.
  - rewrite append_nil_l. simpl. by rewrite decide_True.
  - rewrite append_cons. simpl in *. rewrite decide_False by prop.
    rewrite IH by prop. done.
Qed.

Lemma getlines_no_delim d s : Forall (λ l, ¬ occurs d l) (Str.getlines d s).
Proof.
  induction s as [|a s IH]; simpl; [constructor|]. case_decide.
  - constructor; [simpl; prop | done].
  - destruct (Str.getlines d s) as [|l ls].
    + constructor; [|done]. simpl. intros [?|[]]. done.
    + apply Forall_cons in IH as [Hl Hls]. constructor; [|done].
      simpl. intros [?|?]; [done | by apply Hl].
Qed.

Lemma getlines_read_body ls :
  Forall (λ l, ¬ occurs LF l) ls → Str.getlines LF (read_body ls) = ls.
Proof.
  induction 1 as [|l ls Hl Hls IH]; [done|].
  simpl. by rewrite getlines_app_delim, IH.
Qed.

Lemma drop_cons n a s : Str.drop (S n) (String a s) = Str.drop n s.
Proof. reflexivity. Qed.

Lemma occurs_take d n : ∀ s, occurs d (Str.take n s) → occurs d s.
Proof.
  induction n as [|n IH]; intros [|a s]; simpl; try done.
  intros [?|?]; [by left | right; by apply IH].
Qed.

Lemma occurs_drop d n : ∀ s, occurs d (Str.drop n s) → occurs d s.
Proof.
  induction n as [|n IH]; intros [|a s]; simpl; try done.
  intros ?. right. by apply IH.
Qed.

Lemma find_char_take c : ∀ s n,
  Str.find_char c s = Some n → ¬ occurs c (Str.take n s).
Proof.
  induction s as [|a s IH]; intros n; simpl; [done|].
  case_decide.
  - intros [= <-]. simpl. prop.
  - destruct (Str.find_char c s) as [m|] eqn:Hm; simpl; [|done].
    intros [= <-]. simpl. intros [?|?]; [done|]. by apply (IH m).
Qed.

Lemma find_char_app c k t :
  ¬ occurs c k →
  ∃ n, Str.find_char c (k +:+ String c t) = Some n
       ∧ Str.take n (k +:+ String c t) = k
       ∧ Str.drop (S n) (k +:+ String c t) = t.
Proof.
  induction k as [|a k IH]; intros Hk.
  - exists 0%nat. rewrite append_nil_l. simpl. by rewrite decide_True.
  - simpl in Hk. destruct IH as (n & Hf & Ht & Hd); [prop|].
    exists (S n). rewrite append_cons. split_and!.
    + simpl. rewrite decide_False by prop. by rewrite Hf.
    + simpl. by rewrite Ht.
    + by rewrite drop_cons.
Qed.

Lemma erase_front_lstrip c s :
  Str.erase_front (Str.find_first_not_of c s) s = lstrip c s.
Proof.
  induction s as [|a s IH]; [done|]. simpl. case_decide; [|done].
  rewrite <- IH. by destruct (Str.find_first_not_of c s).
Qed.

Lemma erase_after_rstrip c s :
  Str.erase_after (Str.find_last_not_of c s) s = rstrip c s.
Proof.
  induction s as [|a s IH]; [done|]. simpl. rewrite <- IH.
  destruct (Str.find_last_not_of c s) as [i|] eqn:Hi; simpl.
  - destruct s as [|b s]; [done|]. done.
  - destruct s; simpl; by case_decide.
Qed.

Lemma no_leading_lstrip c s : no_leading c (lstrip c s).
Proof. induction s as [|a s IH]; simpl; [done|]. by case_decide. Qed.

Lemma no_leading_rstrip c d s : no_leading c s → no_leading c (rstrip d s).
Proof.
  destruct s as [|a s]; simpl; [done|]. intros Ha.
  destruct (rstrip d s); [by case_decide | done].
Qed.

Lemma lstrip_no_leading c s : no_leading c s → lstrip c s = s.
Proof. destruct s as [|a s]; simpl; [done|]. intros ?. by rewrite decide_False. Qed.

Lemma occurs_lstrip e c s : occurs e (lstrip c s) → occurs e s.
Proof.
  induction s as [|a s IH]; simpl; [done|]. case_decide; simpl; prop.
Qed.

Lemma occurs_rstrip e c s : occurs e (rstrip c s) → occurs e s.
Proof.
  induction s as [|a s IH]; simpl; [done|].
  destruct (rstrip c s); [case_decide|]; simpl in *; prop.
Qed.

Lemma rstrip_idemp c s : rstrip c (rstrip c s) = rstrip c s.
Proof.
  induction s as [|a s IH]; simpl; [done|].
  destruct (rstrip c s) as [|b t] eqn:Ht.
  - case_decide; [done|]. simpl. by rewrite decide_False.
  - simpl. simpl in IH. by rewrite IH.
Qed.

Lemma rstrip_snoc c s : rstrip c (s +:+ String c "") = rstrip c s.
Proof.
  induction s as [|a s IH].
  - rewrite append_nil_l. simpl. by rewrite decide_True.
  - rewrite append_cons. simpl. by rewrite IH.
Qed.

(** ** Numbers: what [<<] writes, [>>] reads back *)

Lemma mod10_digit n : 0 ≤ n `mod` 10 ≤ 9.
Proof. pose proof (Z.mod_pos_bound n 10). lia. Qed.

Lemma digit_char_is_nat d :
  0 ≤ d ≤ 9 → Ascii.is_nat (Str.digit_char d) = Some (Z.to_nat d).
Proof.
  intros Hd.
  assert (d = 0 ∨ d = 1 ∨ d = 2 ∨ d = 3 ∨ d = 4 ∨ d = 5 ∨ d = 6 ∨ d = 7
          ∨ d = 8 ∨ d = 9) as Hcases by lia.
  repeat (destruct Hcases as [->|Hcases]; [reflexivity|]). by subst.
Qed.

Lemma is_nat_plain a :
  is_Some (Ascii.is_nat a) →
  Ascii.is_space a = false ∧ a ≠ "-"%char ∧ a ≠ "+"%char ∧ a ≠ LF.
Proof.
  intros [d Hd]. split_and!.
  - destruct (Ascii.is_space a) eqn:Hs; [|done]. exfalso. revert Hd Hs.
    destruct a as [[] [] [] [] [] [] [] []]; simpl; congruence.
  - by intros ->.
  - by intros ->.
  - by intros ->.
Qed.

Lemma digits_go_app fuel : ∀ n acc rest,
  Str.digits_go fuel n acc +:+ rest = Str.digits_go fuel n (acc +:+ rest).
Proof.
  induction fuel as [|fuel IH]; intros n acc rest; simpl; [done|].
  case_decide; [done|]. by rewrite IH.
Qed.

Lemma digits_go_step f n acc :
  Str.digits_go (S f) n acc
  = if decide (n / 10 = 0) then String (Str.digit_char (n mod 10)) acc
    else Str.digits_go f (n / 10) (String (Str.digit_char (n mod 10)) acc).
Proof. reflexivity. Qed.

Lemma starts_with_digit_char d acc :
  0 ≤ d ≤ 9 → Str.starts_with_digit (String (Str.digit_char d) acc) = true.
Proof.
  intros Hd. cbn [Str.starts_with_digit]. apply bool_decide_eq_true_2.
  rewrite digit_char_is_nat by done. eauto.
Qed.

Lemma digits_go_starts f : ∀ n acc,
  0 ≤ n → Str.starts_with_digit (Str.digits_go (S f) n acc) = true.
Proof.
  induction f as [|f IH]; intros n acc Hn; rewrite digits_go_step; case_decide.
  - apply starts_with_digit_char, mod10_digit.
  - apply starts_with_digit_char, mod10_digit.
  - apply starts_with_digit_char, mod10_digit.
  - apply IH. apply Z.div_pos; lia.
Qed.

Lemma read_digits_char acc d tail :
  0 ≤ d ≤ 9 →
  Str.read_digits acc (String (Str.digit_char d) tail)
  = Str.read_digits (acc * 10 + d) tail.
Proof.
  intros Hd. cbn [Str.read_digits]. rewrite digit_char_is_nat by done.
  by rewrite Z2Nat.id by lia.
Qed.

Lemma digits_go_read f : ∀ n tail,
  0 ≤ n < 2 ^ Z.of_nat (S f) →
  Str.read_digits 0 (Str.digits_go (S f) n tail) = Str.read_digits n tail.
Proof.
  induction f as [|f IH]; intros n tail Hn; rewrite digits_go_step;
    pose proof (Z.div_mod n 10); pose proof (mod10_digit n);
    case_decide as Hq.
  - rewrite read_digits_char by done. f_equal. lia.
  - change (2 ^ Z.of_nat 1) with 2 in Hn.
    destruct Hq. apply Z.div_small. lia.
  - rewrite read_digits_char by done. f_equal. lia.
  - rewrite IH.
    + rewrite read_digits_char by done. f_equal. lia.
    + split; [apply Z.div_pos; lia|].
      apply Z.div_lt_upper_bound; [lia|].
      rewrite (Nat2Z.inj_succ (S f)), Z.pow_succ_r in Hn by lia. lia.
Qed.

Lemma read_digits_stop acc s :
  Str.starts_with_digit s = false → Str.read_digits acc s = (acc, s).
Proof.
  destruct s as [|a s]; cbn [Str.starts_with_digit Str.read_digits]; [done|].
  intros Ha. destruct (Ascii.is_nat a); [|done].
  by rewrite bool_decide_eq_true_2 in Ha by eauto.
Qed.

Lemma digits_fuel n : 0 ≤ n → n < 2 ^ Z.of_nat (S (Z.to_nat (Z.log2 n))).
Proof.
  intros Hn. rewrite Nat2Z.inj_succ, Z2Nat.id by apply Z.log2_nonneg.
  destruct (decide (n = 0)) as [->|]; [done|].
  apply Z.log2_spec. lia.
Qed.

(** reading back the digits written for [n] *)
Lemma read_digits_digits n rest :
  0 ≤ n → Str.starts_with_digit rest = false →
  Str.starts_with_digit (Str.digits n +:+ rest) = true
  ∧ Str.read_digits 0 (Str.digits n +:+ rest) = (n, rest).
Proof.
  intros Hn Hrest. unfold Str.digits. rewrite digits_go_app, append_nil_l.
  split; [by apply digits_go_starts|].
  rewrite digits_go_read by (split; [done | by apply digits_fuel]).
  by apply read_digits_stop.
Qed.

Lemma skip_ws_plain a s :
  Ascii.is_space a = false → Str.skip_ws (String a s) = String a s.
Proof. intros Ha. cbn [Str.skip_ws]. by rewrite Ha. Qed.

Lemma starts_with_digit_cons s :
  Str.starts_with_digit s = true →
  ∃ a s', s = String a s' ∧ is_Some (Ascii.is_nat a).
Proof.
  destruct s as [|a s']; cbn [Str.starts_with_digit]; [done|].
  intros Ha%bool_decide_eq_true. eauto.
Qed.

(** [>>] gets back the number that [<<] wrote in front of a blank *)
Lemma extract_int_of_int n t :
  Str.INT_MIN ≤ n ≤ Str.INT_MAX →
  Str.extract_int (String " " (Str.of_int n +:+ String " " t))
  = Str.IntOk n (String " " t).
Proof.
  intros Hn. unfold Str.extract_int, Str.of_int.
  change (Str.skip_ws (String " " ?x)) with (Str.skip_ws x).
  assert (Str.starts_with_digit (String " " t) = false) as Hrest by reflexivity.
  case_decide as Hneg.
  - destruct (read_digits_digits (- n) (String " " t)) as [Hs Hr]; [lia|done|].
    rewrite append_cons, skip_ws_plain by done.
    unfold Str.scan_int. rewrite decide_True by done. rewrite Hs, Hr.
    rewrite Z.opp_involutive.
    rewrite !decide_False by (unfold Str.INT_MIN, Str.INT_MAX in *; lia). done.
  - destruct (read_digits_digits n (String " " t)) as [Hs Hr]; [lia|done|].
    destruct (starts_with_digit_cons _ Hs) as (a & s' & Heq & Ha).
    destruct (is_nat_plain a Ha) as (Hsp & Hm & Hp & _).
    rewrite Heq in *. rewrite skip_ws_plain by done.
    unfold Str.scan_int. rewrite !decide_False by done. rewrite Hs, Hr.
    rewrite !decide_False by (unfold Str.INT_MIN, Str.INT_MAX in *; lia). done.
Qed.

(** ** The status line *)

Lemma occurs_skip_ws c s : occurs c (Str.skip_ws s) → occurs c s.
Proof.
  induction s as [|a s IH]; cbn [Str.skip_ws]; [done|].
  destruct (Ascii.is_space a); [|done]. simpl. prop.
Qed.

Lemma span_word_parts s :
  wordlike (Str.span_word s).1 ∧ ∀ c, occurs c (Str.span_word s).2 → occurs c s.
Proof.
  induction s as [|a s [IHw IHr]]; cbn [Str.span_word]; [done|].
  destruct (Ascii.is_space a) eqn:Ha; [done|].
  destruct (Str.span_word s) as [w r]. simpl in *. split; [done|].
  intros c Hc. right. by apply IHr.
Qed.

Lemma span_word_app w t :
  wordlike w → Str.span_word (w +:+ String " " t) = (w, String " " t).
Proof.
  induction w as [|a w IH]; [done|]. intros [Ha Hw].
  rewrite append_cons. cbn [Str.span_word]. by rewrite Ha, IH.
Qed.

Lemma extract_word_text w t :
  w ≠ "" → wordlike w →
  Str.extract_word (w +:+ String " " t) = Some (w, String " " t).
Proof.
  intros Hne Hw. unfold Str.extract_word.
  destruct w as [|a w]; [done|]. destruct Hw as [Ha Hw].
  rewrite append_cons, skip_ws_plain, <- append_cons by done.
  by rewrite span_word_app.
Qed.

Lemma extract_word_parts s w r :
  Str.extract_word s = Some (w, r) →
  w ≠ "" ∧ wordlike w ∧ ∀ c, occurs c r → occurs c s.
Proof.
  unfold Str.extract_word.
  destruct (span_word_parts (Str.skip_ws s)) as [Hw Hr].
  destruct (Str.span_word (Str.skip_ws s)) as [[|a w'] r']; [done|].
  intros [= <- <-]. split_and!; [done..|].
  intros c Hc. by apply occurs_skip_ws, Hr.
Qed.

Lemma occurs_read_digits c s : ∀ acc,
  occurs c (Str.read_digits acc s).2 → occurs c s.
Proof.
  induction s as [|a s IH]; intros acc; cbn [Str.read_digits]; [done|].
  destruct (Ascii.is_nat a); [|done]. intros ?%IH. by right.
Qed.

Lemma scan_int_rest c s v r :
  Str.scan_int s = Some (v, r) → occurs c r → occurs c s.
Proof.
  unfold Str.scan_int. intros Hs Hc.
  assert (∀ s1, (let '(v, r) := Str.read_digits 0 s1 in
                 Some (if false then - v else v, r)) = Some (v, r)
                ∨ (let '(v, r) := Str.read_digits 0 s1 in
                   Some (if true then - v else v, r)) = Some (v, r)
                → occurs c s1) as Hread.
  { intros s1 Hor. pose proof (occurs_read_digits c s1 0) as Ho.
    destruct (Str.read_digits 0 s1) as [v' r'].
    apply Ho. simpl. destruct Hor as [[= _ <-]|[= _ <-]]; done. }
  destruct s as [|a t]; [done|].
  repeat case_decide; destruct (Str.starts_with_digit _); try done.
  - right. apply Hread. by right.
  - right. apply Hread. by left.
  - apply Hread. by left.
Qed.

Lemma extract_int_parts s :
  match Str.extract_int s with
  | Str.IntOk n r =>
      Str.INT_MIN ≤ n ≤ Str.INT_MAX ∧ ∀ c, occurs c r → occurs c s
  | Str.IntFail n => Str.INT_MIN ≤ n ≤ Str.INT_MAX
  | Str.IntEof => True
  end.
Proof.
  unfold Str.extract_int. destruct (Str.skip_ws s) as [|a t] eqn:Hskip; [done|].
  destruct (Str.scan_int (String a t)) as [[v r]|] eqn:Hscan.
  - repeat case_decide; try done.
    split; [lia|]. intros c Hc. apply occurs_skip_ws. rewrite Hskip.
    by apply (scan_int_rest c _ v r).
  - done.
Qed.

Lemma wordlike_no_LF w : wordlike w → ¬ occurs LF w.
Proof.
  induction w as [|a w IH]; simpl; [prop|].
  intros [Ha Hw] [->|?]; [done | by apply IH].
Qed.

Lemma occurs_digits_go c f : ∀ n acc,
  occurs c (Str.digits_go f n acc) → occurs c acc ∨ is_Some (Ascii.is_nat c).
Proof.
  assert (∀ n, is_Some (Ascii.is_nat (Str.digit_char (n mod 10)))) as Hd.
  { intros n. rewrite digit_char_is_nat by apply mod10_digit. eauto. }
  induction f as [|f IH]; intros n acc; [by left|].
  rewrite digits_go_step. case_decide.
  - intros [<-|?]; [right; apply Hd | by left].
  - intros [[<-|?]|?]%IH; [right; apply Hd | by left | by right].
Qed.

Lemma of_int_no_LF n : ¬ occurs LF (Str.of_int n).
Proof.
  assert (∀ m, ¬ occurs LF (Str.digits m)) as Hd.
  { intros m [[]|[d Hd]]%occurs_digits_go. done. }
  unfold Str.of_int. case_decide; [|apply Hd].
  intros [?|?]; [done | by apply (Hd (- n))].
Qed.

Lemma parse_status_line_inv l :
  ¬ occurs LF l → status_inv (parse_status_line new_Response l).
Proof.
  intros Hl. unfold parse_status_line.
  destruct (Str.extract_word l) as [[w rest]|] eqn:Hw; [|by left].
  apply extract_word_parts in Hw as (Hne & Hword & Hrest). right.
  pose proof (extract_int_parts rest) as Hint.
  destruct (Str.extract_int rest) as [n r|n|]; simpl.
  - destruct Hint as [Hn Hr]. case_decide; simpl.
    + do 3 (split; [done|]). prop.
    + do 3 (split; [done|]). intros Hc. by apply Hl, Hrest, Hr.
  - do 3 (split; [done|]). prop.
  - do 2 (split; [done|]). split; [|prop].
    unfold Str.INT_MIN, Str.INT_MAX. lia.
Qed.

Lemma status_text_no_LF r : status_inv r → ¬ occurs LF (status_text r).
Proof.
  unfold status_text. intros [(-> & -> & ->)|(_ & Hw & _ & Hm)].
  { vm_compute. intros [?|[?|[?|[?|[]]]]]; done. }
  rewrite !occurs_app. simpl.
  pose proof (wordlike_no_LF _ Hw). pose proof (of_int_no_LF (status_code r)).
  intros [?|[[?|[]]|[?|[[?|[]]|[?|[?|[]]]]]]]; done.
Qed.

(** the status code survives [toString] and [parse_status_line] *)
Lemma parse_status_text r :
  status_inv r →
  status_code (parse_status_line new_Response (status_text r)) = status_code r.
Proof.
  unfold status_text. intros [(-> & -> & ->)|(Hne & Hw & Hn & _)].
  { by vm_compute. }
  unfold parse_status_line.
  change (http_version r +:+ " " +:+ Str.of_int (status_code r) +:+ " "
            +:+ status_message r +:+ String CR "")
    with (http_version r
            +:+ String " " (Str.of_int (status_code r)
                              +:+ String " " (status_message r +:+ String CR ""))).
  rewrite extract_word_text, extract_int_of_int by done.
  by case_decide.
Qed.

Lemma parse_status_line_frame r l :
  header (parse_status_line r l) = header r
  ∧ is_chunked (parse_status_line r l) = is_chunked r
  ∧ content_length (parse_status_line r l) = content_length r
  ∧ body (parse_status_line r l) = body r.
Proof.
  unfold parse_status_line. destruct (Str.extract_word l) as [[v rest]|]; [|done].
  destruct (Str.extract_int rest); [|done..]. by case_decide.
Qed.

(** ** Header lines *)

Lemma trim_value_strips x : trim_value x = rstrip CR (lstrip " " x).
Proof. unfold trim_value. by rewrite erase_front_lstrip, erase_after_rstrip. Qed.

Lemma trim_value_good x : ¬ occurs LF x → good_value (trim_value x).
Proof.
  intros Hx. rewrite trim_value_strips. split_and!.
  - apply rstrip_idemp.
  - apply no_leading_rstrip, no_leading_lstrip.
  - by intros ?%occurs_rstrip%occurs_lstrip.
Qed.

Lemma trim_value_text v :
  good_value v → trim_value (String " " (v +:+ String CR "")) = v.
Proof.
  intros (Hr & Hl & _). rewrite trim_value_strips.
  cbn [lstrip]. rewrite decide_True by done.
  rewrite lstrip_no_leading.
  - by rewrite rstrip_snoc.
  - destruct v as [|a v]; [done|]. by rewrite append_cons.
Qed.

Lemma header_line_text r kv :
  good_entry kv → header_line r (entry_line kv) = header_field r kv.1 kv.2.
Proof.
  destruct kv as [k v]. intros [[Hk _] Hv]. unfold header_line, entry_line.
  cbn [fst snd].
  change (k +:+ ": " +:+ v +:+ String CR "")
    with (k +:+ String ":" (String " " (v +:+ String CR ""))).
  destruct (find_char_app ":" k (String " " (v +:+ String CR "")) Hk)
    as (n & -> & -> & ->).
  by rewrite trim_value_text.
Qed.

Lemma entry_line_not_end kv :
  entry_line kv ≠ String CR "" ∧ entry_line kv ≠ "".
Proof.
  destruct kv as [[|a [|b k]] v]; unfold entry_line; cbn [fst snd];
    rewrite ?append_cons, ?append_nil_l; done.
Qed.

Lemma header_loop_text l : ∀ r rest,
  Forall good_entry l →
  header_loop r ((entry_line <$> l) ++ String CR "" :: rest)
  = r' ← header_fields r l; Some (r', rest).
Proof.
  induction l as [|kv l IH]; intros r rest Hl.
  { simpl. try rewrite decide_True by auto. done. }
  apply Forall_cons in Hl as [Hkv Hl]. rewrite fmap_cons. cbn [app header_loop].
  destruct (entry_line_not_end kv).
  rewrite decide_False by (by intros [?|?]).
  rewrite header_line_text by done. cbn [header_fields].
  destruct (header_field r kv.1 kv.2) as [r1|]; [|done].
  simpl. by apply IH.
Qed.

Lemma header_field_inv r k v r' :
  good_entry (k, v) → header_inv r → header_field r k v = Some r' → header_inv r'.
Proof.
  intros Hkv (Hall & Hlen & Hch). unfold header_field, header_inv, length_of, header_chunked in *.
  assert (HEADER_TRANSFER ≠ HEADER_CONTENT_LEN) as Hne by done.
  destruct (decide (k = HEADER_TRANSFER ∧ Str.find HEADER_CHUNCK v ≠ None))
    as [[-> Hfind]|Hnot].
  - intros [= <-]. simpl. split_and!; [by apply map_Forall_insert_2 | |done].
    by rewrite lookup_insert_ne.
  - destruct (decide (k = HEADER_CONTENT_LEN)) as [->|Hk].
    + destruct (Str.stoi v) as [n|] eqn:Hn; simpl; [|done]. intros [= <-]. simpl.
      split_and!; [by apply map_Forall_insert_2 | by rewrite lookup_insert_eq |].
      by rewrite lookup_insert_ne.
    + intros [= <-]. simpl.
      split_and!; [by apply map_Forall_insert_2 | by rewrite lookup_insert_ne |].
      destruct (decide (k = HEADER_TRANSFER)) as [->|].
      * rewrite lookup_insert_eq. intros Hb%bool_decide_eq_true. prop.
      * by rewrite lookup_insert_ne.
Qed.

Lemma header_line_inv r line r' :
  ¬ occurs LF line → header_inv r → header_line r line = Some r' → header_inv r'.
Proof.
  intros Hline Hr. unfold header_line.
  destruct (Str.find_char ":" line) as [n|] eqn:Hn; [|by intros [= <-]].
  apply header_field_inv; [|done]. split; [split|]; cbn [fst snd].
  - by apply find_char_take.
  - by intros ?%occurs_take.
  - apply trim_value_good. by intros ?%occurs_drop.
Qed.

Lemma header_loop_inv lines : ∀ r r' rest,
  Forall (λ l, ¬ occurs LF l) lines → header_inv r →
  header_loop r lines = Some (r', rest) →
  header_inv r' ∧ Forall (λ l, ¬ occurs LF l) rest.
Proof.
  induction lines as [|line lines IH]; intros r r' rest Hl Hr; simpl.
  { by intros [= <- <-]. }
  apply Forall_cons in Hl as [Hline Hl].
  case_decide; [by intros [= <- <-]|].
  destruct (header_line r line) as [r1|] eqn:Hr1; simpl; [|done].
  apply IH; [done|]. by apply (header_line_inv r line).
Qed.

Lemma header_inv_new : header_inv new_Response.
Proof.
  split_and!; [apply map_Forall_empty | done | done].
Qed.

(** ** The headers, one line each *)

Lemma foldl_insert_notin l : ∀ m k,
  k ∉ l.*1 → foldl insert_entry m l !! k = m !! k.
Proof.
  induction l as [|[k' v'] l IH]; intros m k Hk; [done|].
  rewrite fmap_cons in Hk. apply not_elem_of_cons in Hk as [Hne Hk].
  simpl. rewrite IH by done. unfold insert_entry. simpl.
  by rewrite lookup_insert_ne.
Qed.

Lemma foldl_insert_in l : ∀ m k v,
  NoDup (l.*1) → (k, v) ∈ l → foldl insert_entry m l !! k = Some v.
Proof.
  induction l as [|[k' v'] l IH]; intros m k v Hnd Hin.
  { by apply elem_of_nil in Hin. }
  rewrite fmap_cons in Hnd. apply NoDup_cons in Hnd as [Hk' Hnd].
  apply elem_of_cons in Hin as [[= -> ->]|Hin]; simpl.
  - rewrite foldl_insert_notin by done. unfold insert_entry. simpl.
    by rewrite lookup_insert_eq.
  - by apply IH.
Qed.

Lemma foldl_insert_entries (h : gmap string string) l :
  l ≡ₚ map_to_list h → foldl insert_entry ∅ l = h.
Proof.
  intros Hl. apply map_eq. intros k.
  assert (NoDup (l.*1)) as Hnd.
  { rewrite Hl. apply NoDup_fst_map_to_list. }
  destruct (h !! k) as [v|] eqn:Hk.
  - apply foldl_insert_in; [done|]. rewrite Hl. by apply elem_of_map_to_list.
  - rewrite foldl_insert_notin; [done|].
    intros ([k' v] & -> & Hin)%list_elem_of_fmap. rewrite Hl in Hin.
    apply elem_of_map_to_list in Hin. simpl in *. congruence.
Qed.

Lemma header_field_results r k v r' :
  header_field r k v = Some r' →
  header r' = <[k := v]> (header r)
  ∧ status_of r' = status_of r
  ∧ (is_chunked r' = true
     ↔ is_chunked r = true ∨ (k = HEADER_TRANSFER ∧ Str.find HEADER_CHUNCK v ≠ None))
  ∧ (k ≠ HEADER_CONTENT_LEN → content_length r' = content_length r)
  ∧ (k = HEADER_CONTENT_LEN → Str.stoi v = Some (content_length r')).
Proof.
  unfold header_field.
  destruct (decide (k = HEADER_TRANSFER ∧ Str.find HEADER_CHUNCK v ≠ None))
    as [[-> Hfind]|Hnot].
  - intros [= <-]. simpl. split_and!; [done|done|prop|done|done].
  - destruct (decide (k = HEADER_CONTENT_LEN)) as [->|Hk].
    + destruct (Str.stoi v) as [n|]; simpl; [|done]. intros [= <-]. simpl.
      split_and!; [done|done|prop|done|done].
    + intros [= <-]. simpl. split_and!; [done|done|prop|done|done].
Qed.

Lemma header_fields_results l : ∀ r r',
  NoDup (l.*1) → header_fields r l = Some r' →
  header r' = foldl insert_entry (header r) l
  ∧ status_of r' = status_of r
  ∧ (is_chunked r' = true
     ↔ is_chunked r = true
       ∨ ∃ v, (HEADER_TRANSFER, v) ∈ l ∧ Str.find HEADER_CHUNCK v ≠ None)
  ∧ (HEADER_CONTENT_LEN ∉ l.*1 → content_length r' = content_length r)
  ∧ (∀ v, (HEADER_CONTENT_LEN, v) ∈ l → Str.stoi v = Some (content_length r')).
Proof.
  induction l as [|[k v] l IH]; intros r r' Hnd.
  { intros [= <-]. split_and!; [done|done| |done|].
    - split; [auto|]. intros [?|(v & Hin & _)]; [done|]. by apply elem_of_nil in Hin.
    - intros v Hin. by apply elem_of_nil in Hin. }
  rewrite fmap_cons in Hnd. apply NoDup_cons in Hnd as [Hk Hnd].
  cbn [header_fields fst snd].
  destruct (header_field r k v) as [r1|] eqn:Hr1; simpl; [|done].
  apply header_field_results in Hr1 as (Hh1 & Hs1 & Hc1 & Hl1 & Hl1').
  intros (Hh & Hs & Hc & Hl & Hl')%IH; [|done].
  split_and!.
  - by rewrite Hh, Hh1.
  - by rewrite Hs, Hs1.
  - rewrite Hc, Hc1. split.
    + intros [[?|[-> ?]]|(v' & Hin & ?)]; [by left|right..].
      * exists v. split; [by left | done].
      * exists v'. split; [by right | done].
    + intros [?|(v' & [[= <- <-]|Hin]%elem_of_cons & ?)]; [by left; left| |].
      * left. by right.
      * right. by exists v'.
  - intros [Hne Hnot]%not_elem_of_cons. by rewrite Hl, Hl1.
  - intros v' [[= <- <-]|Hin]%elem_of_cons; [|by apply Hl'].
    rewrite Hl by done. by apply Hl1'.
Qed.

Lemma header_fields_total l : ∀ r,
  (∀ v, (HEADER_CONTENT_LEN, v) ∈ l → is_Some (Str.stoi v)) →
  is_Some (header_fields r l).
Proof.
  induction l as [|[k v] l IH]; intros r Hok; [by eexists|].
  cbn [header_fields fst snd].
  assert (is_Some (header_field r k v)) as [r1 ->].
  { unfold header_field. repeat case_decide; [by eexists| |by eexists].
    subst k. destruct (Hok v) as [n ->]; [by left|]. by eexists. }
  simpl. apply IH. intros v' Hin. apply Hok. by right.
Qed.

Lemma header_entries_Permutation h : header_entries h ≡ₚ map_to_list h.
Proof. apply merge_sort_Permutation. Qed.

(** parsing the headers of [h], one line per header, rebuilds [h] *)
Lemma header_fields_entries h n r :
  length_of h n → header r = ∅ → is_chunked r = false → content_length r = -1 →
  ∃ r', header_fields r (header_entries h) = Some r'
        ∧ header r' = h ∧ content_length r' = n
        ∧ is_chunked r' = header_chunked h ∧ status_of r' = status_of r.
Proof.
  intros Hlen Hh Hc Hl. pose proof (header_entries_Permutation h) as Hperm.
  assert (NoDup ((header_entries h).*1)) as Hnd.
  { rewrite Hperm. apply NoDup_fst_map_to_list. }
  assert (∀ k v, (k, v) ∈ header_entries h ↔ h !! k = Some v) as Hin.
  { intros k v. rewrite Hperm. apply elem_of_map_to_list. }
  unfold length_of in Hlen.
  destruct (header_fields_total (header_entries h) r) as [r' Hr'].
  { intros v Hv%Hin. rewrite Hv in Hlen. eauto. }
  exists r'. split; [done|].
  apply header_fields_results in Hr' as (Hh' & Hs' & Hc' & Hl' & Hl''); [|done].
  split_and!.
  - rewrite Hh', Hh. by apply foldl_insert_entries.
  - destruct (h !! HEADER_CONTENT_LEN) as [v|] eqn:Hv.
    + apply Hin in Hv. apply Hl'' in Hv. congruence.
    + rewrite Hl'; [congruence|].
      intros ([k v] & Heq & Hkv%Hin)%list_elem_of_fmap. simpl in Heq. congruence.
  - unfold header_chunked. destruct (is_chunked r') eqn:Hch.
    + destruct (proj1 Hc' eq_refl) as [?|(v & Hv%Hin & Hfind)]; [congruence|].
      rewrite Hv. symmetry. by apply bool_decide_eq_true_2.
    + destruct (h !! HEADER_TRANSFER) as [v|] eqn:Hv; [|done].
      symmetry. apply bool_decide_eq_false_2. intros Hfind.
      assert (false = true) as Habs; [|done].
      apply Hc'. right. exists v. split; [by apply Hin | done].
  - done.
Qed.

Lemma header_loop_status lines : ∀ r r' rest,
  header_loop r lines = Some (r', rest) → status_of r' = status_of r.
Proof.
  induction lines as [|line lines IH]; intros r r' rest; simpl.
  { by intros [= <- <-]. }
  case_decide; [by intros [= <- <-]|].
  destruct (header_line r line) as [r1|] eqn:Hr1; simpl; [|done].
  intros ->%IH. unfold header_line in Hr1.
  destruct (Str.find_char _ _); [|congruence].
  by apply header_field_results in Hr1 as (_ & ? & _).
Qed.

(** ** The text of [toString], line by line *)

Lemma toString_split r :
  toString r
  = status_text r
      +:+ String LF (headers_text (header_entries (header r))
                       (String CR (String LF (body r)))).
Proof. unfold toString, status_text. by rewrite !append_assoc. Qed.

Lemma header_text_split kv tail :
  header_text kv +:+ tail = entry_line kv +:+ String LF tail.
Proof. unfold header_text, entry_line. by rewrite !append_assoc. Qed.

Lemma entry_line_no_LF kv : good_entry kv → ¬ occurs LF (entry_line kv).
Proof.
  intros [[_ Hk] (_ & _ & Hv)]. unfold entry_line. rewrite !occurs_app. simpl.
  intros [?|[[?|[?|[]]]|[?|[?|[]]]]]; done.
Qed.

Lemma headers_text_lines es tail :
  Forall good_entry es →
  Str.getlines LF (headers_text es tail) = (entry_line <$> es) ++ Str.getlines LF tail.
Proof.
  induction 1 as [|kv es Hkv Hes IH]; [done|].
  cbn [headers_text]. rewrite header_text_split.
  rewrite getlines_app_delim by (by apply entry_line_no_LF).
  by rewrite IH, fmap_cons.
Qed.

Lemma toString_lines r :
  status_inv r → Forall good_entry (header_entries (header r)) →
  Str.getlines LF (toString r)
  = status_text r
      :: (entry_line <$> header_entries (header r))
      ++ String CR "" :: Str.getlines LF (body r).
Proof.
  intros Hs Hh. rewrite toString_split.
  rewrite getlines_app_delim by (by apply status_text_no_LF).
  rewrite headers_text_lines by done.
  change (String CR (String LF (body r)))
    with (String CR "" +:+ String LF (body r)).
  rewrite getlines_app_delim; [done|]. simpl. intros [?|[]]. done.
Qed.

(** ** What [parseResponse] leaves in a fresh object *)

Lemma parsed_shape_ext r r' :
  head_of r = head_of r' → body r = body r' → parsed_shape r → parsed_shape r'.
Proof.
  unfold head_of, parsed_shape, status_inv, header_inv.
  intros [= -> -> -> -> -> ->] ->. done.
Qed.

Lemma parseResponse_shape buf R :
  parseResponse new_Response buf = Some R → parsed_shape R.
Proof.
  intros (l & ls & r2 & ls' & Hlines & Hloop & ->)%parseResponse_steps.
  pose proof (getlines_no_delim LF buf) as Hno. rewrite Hlines in Hno.
  apply Forall_cons in Hno as [Hl Hls].
  destruct (parse_status_line_frame new_Response l) as (Hh1 & Hc1 & Hl1 & Hb1).
  pose proof (parse_status_line_inv l Hl) as Hs1.
  pose proof (header_loop_status _ _ _ _ Hloop) as Hst.
  apply header_loop_inv in Hloop as [Hinv Hrest]; [|done|].
  2:{ unfold header_inv. rewrite Hh1, Hc1, Hl1. apply header_inv_new. }
  set (r3 := if is_chunked r2 then r2 else set_body (read_body ls') r2).
  destruct (setExpiredTime_frame (parseCacheControl r3)) as (Hf1 & Hf2 & _).
  destruct (parseCacheControl_frame r3) as (Hf3 & Hf4 & _).
  apply (parsed_shape_ext r3); [congruence | congruence |].
  unfold status_of in Hst. injection Hst as Hcode Hmsg Hver Hbody.
  assert (status_inv r2) as Hs2.
  { unfold status_inv in *. by rewrite Hcode, Hmsg, Hver. }
  subst r3. destruct (is_chunked r2) eqn:Hch.
  - split_and!; [done | done | | ].
    + exists []. split; [done|]. by rewrite Hbody, Hb1.
    + intros _. by rewrite Hbody, Hb1.
  - split_and!; [done | exact Hinv | exists ls'; by split | simpl; congruence].
Qed.

(** parsing the text of a parsed response *)
Lemma reparse R :
  parsed_shape R →
  ∃ R', parseResponse new_Response (toString R) = Some R'
        ∧ status_code R' = status_code R
        ∧ header R' = header R
        ∧ body R' = body R
        ∧ content_length R' = content_length R
        ∧ is_chunked R' = header_chunked (header R).
Proof.
  intros (Hs & (Hall & Hlen & Hch) & (ls & Hls & Hbody) & Hcb).
  assert (Forall good_entry (header_entries (header R))) as Hgood.
  { rewrite header_entries_Permutation. apply map_Forall_to_list in Hall.
    eapply Forall_impl; [exact Hall|]. by intros [k v]. }
  set (r1 := parse_status_line new_Response (status_text R)).
  destruct (parse_status_line_frame new_Response (status_text R))
    as (Hh1 & Hc1 & Hl1 & Hb1). fold r1 in Hh1, Hc1, Hl1, Hb1.
  destruct (header_fields_entries (header R) (content_length R) r1)
    as (r2 & Hr2 & Hh2 & Hl2 & Hc2 & Hst2); [done..|].
  unfold status_of in Hst2. injection Hst2 as Hcode2 _ _ Hbody2.
  unfold parseResponse. rewrite toString_lines by done.
  fold r1. rewrite header_loop_text by done. rewrite Hr2. simpl.
  set (r3 := if is_chunked r2 then r2
             else set_body (read_body (Str.getlines LF (body R))) r2).
  destruct (setExpiredTime_frame (parseCacheControl r3)) as (Hf1 & Hf2 & _).
  destruct (parseCacheControl_frame r3) as (Hf3 & Hf4 & _).
  eexists. split; [done|].
  assert (head_of r3 = head_of r2) as Hf5 by (subst r3; by destruct (is_chunked r2)).
  rewrite Hf3, Hf5 in Hf1. unfold head_of in Hf1.
  injection Hf1 as -> _ _ -> -> ->. rewrite Hf2, Hf4.
  split_and!; [|done| |done|done].
  - rewrite Hcode2. by apply parse_status_text.
  - subst r3. destruct (is_chunked r2) eqn:Hr2c.
    + rewrite Hbody2, Hb1. symmetry. apply Hcb, Hch. congruence.
    + simpl. by rewrite Hbody, getlines_read_body.
Qed.

(** ** The statement about the round trip *)

(** C8, amended. For every response [R] that [parseResponse] builds in a
    fresh object, from any buffer it accepts, parsing [R.toString()] succeeds
    and gives a response with the same status code, header map, body and
    content length; its [is_chunked] flag says whether the stored
    [Transfer-Encoding] value has [chunked] in it, and so is the flag of [R]
    whenever [R]'s flag is not set by a [Transfer-Encoding] line that a later
    one replaced. *)
Theorem reparsing_toString buf R :
  parseResponse new_Response buf = Some R →
  ∃ R', parseResponse new_Response (toString R) = Some R'
        ∧ status_code R' = status_code R
        ∧ header R' = header R
        ∧ body R' = body R
        ∧ content_length R' = content_length R
        ∧ is_chunked R' = header_chunked (header R)
        ∧ ((is_chunked R = true → header_chunked (header R) = true) →
           is_chunked R' = is_chunked R).
Proof.
  intros Hshape%parseResponse_shape.
  destruct (reparse R Hshape) as (R' & HR' & Hcode & Hh & Hb & Hl & Hc).
  exists R'. split_and!; try done.
  intros Himp. rewrite Hc.
  destruct Hshape as (_ & (_ & _ & Hch) & _).
  destruct (is_chunked R) eqn:HR; [by rewrite Himp|].
  destruct (header_chunked (header R)); [|done]. symmetry. by apply Hch.
Qed.

(** * Properties of the request parser

    ** [parseRequest] lets no exception through *)

Lemma find_single c s : Str.find (String c "") s = Str.find_char c s.
Proof.
  induction s as [|a s IH]; [done|].
  cbn [Str.find Str.find_char String.prefix].
  destruct (ascii_dec c a) as [->|Hne].
  - rewrite decide_True by done. by destruct s.
  - rewrite decide_False by congruence. by rewrite IH.
Qed.

Lemma find_char_lt c s : ∀ n,
  Str.find_char c s = Some n → (n < String.length s)%nat.
Proof.
  induction s as [|a s IH]; intros n; simpl; [done|].
  case_decide.
  - intros [= <-]. lia.
  - destruct (Str.find_char c s) as [k|]; simpl; [|done].
    intros [= <-]. specialize (IH k eq_refl). lia.
Qed.

Lemma substr_drop n : ∀ s,
  (n ≤ String.length s)%nat → Str.substr n s = Some (Str.drop n s).
Proof.
  induction n as [|n IH]; intros [|a s]; simpl; intros Hn; try done; [lia|].
  apply IH. lia.
Qed.

Lemma bind_Some {A B} (f : A → option B) x : Some x ≫= f = f x.
Proof. reflexivity. Qed.

Lemma header_value_total line : is_Some (Request.header_value line).
Proof.
  unfold Request.header_value. rewrite find_single.
  destruct (Str.find_char ":" line) as [i|] eqn:Hi.
  - apply find_char_lt in Hi. rewrite substr_drop by lia. simpl. eauto.
  - simpl. eauto.
Qed.

Lemma setHostnameAndPort_total line r :
  is_Some (Request.setHostnameAndPort line r).
Proof.
  unfold Request.setHostnameAndPort.
  destruct (header_value_total line) as [v ->]. rewrite bind_Some, find_single.
  destruct (Str.find_char ":" v) as [i|] eqn:Hi; [|eauto].
  apply find_char_lt in Hi. rewrite substr_drop by lia. rewrite bind_Some. eauto.
Qed.

Lemma parse_line_total isheader line r :
  is_Some (Request.parse_line isheader line r).
Proof.
  unfold Request.parse_line. destruct isheader; [eauto|].
  destruct (header_value_total line) as [v Hv].
  repeat case_decide; rewrite ?Hv; simpl; eauto using setHostnameAndPort_total.
Qed.

Lemma parse_lines_total lines : ∀ isheader r,
  is_Some (Request.parse_lines isheader lines r).
Proof.
  induction lines as [|line lines IH]; intros isheader r; simpl; [eauto|].
  case_decide; [eauto|].
  destruct (parse_line_total isheader (Str.pop_back_if CR line) r) as [r' ->].
  simpl. apply IH.
Qed.

(** ** The text [Request_line] writes, line by line *)

Lemma pop_back_snoc c s : Str.pop_back_if c (s +:+ String c "") = s.
Proof.
  induction s as [|a s IH]; [simpl; by rewrite decide_True|].
  rewrite append_cons. cbn [Str.pop_back_if]. rewrite IH.
  by destruct s.
Qed.

Lemma find_char_None c s : ¬ occurs c s → Str.find_char c s = None.
Proof.
  induction s as [|a s IH]; simpl; [done|]. intros Hs.
  rewrite decide_False by prop. rewrite IH by prop. done.
Qed.

Lemma header_value_text name v :
  ¬ occurs ":" name → no_leading " " v →
  Request.header_value (name +:+ String ":" (String " " v)) = Some v.
Proof.
  intros Hname Hv. unfold Request.header_value. rewrite find_single.
  destruct (find_char_app ":" name (String " " v) Hname) as (n & Hn & _ & Hdrop).
  rewrite Hn. pose proof (find_char_lt _ _ _ Hn).
  rewrite substr_drop by lia. rewrite Hdrop, bind_Some.
  rewrite erase_front_lstrip. cbn [lstrip]. rewrite decide_True by done.
  by rewrite lstrip_no_leading.
Qed.

(** a line that begins with one header name does not begin with another *)
Ltac other_name :=
  let H := fresh in
  intros H; apply find_at_front in H; vm_compute in H; discriminate H.

Ltac same_name := apply find_at_front, prefix_app; eauto.

Lemma parse_line_host v r :
  Request.parse_line false (HOST +:+ v) r
  = Request.setHostnameAndPort (HOST +:+ v) r.
Proof. unfold Request.parse_line. rewrite decide_True; [done | same_name]. Qed.

Lemma parse_line_userAgent v r :
  no_leading " " v →
  Request.parse_line false (USERAGENT +:+ v) r = Some (Request.set_userAgent v r).
Proof.
  intros Hv. unfold Request.parse_line.
  rewrite decide_False by other_name. rewrite decide_True by same_name.
  change (USERAGENT +:+ v) with ("User-Agent" +:+ String ":" (String " " v)).
  rewrite header_value_text; [done| |done].
  simpl. prop_discriminate.
Qed.

Lemma parse_line_connection v r :
  no_leading " " v →
  Request.parse_line false (CONNECTION +:+ v) r = Some (Request.set_connection v r).
Proof.
  intros Hv. unfold Request.parse_line.
  do 2 rewrite decide_False by other_name. rewrite decide_True by same_name.
  change (CONNECTION +:+ v) with ("Connection" +:+ String ":" (String " " v)).
  rewrite header_value_text; [done| |done].
  simpl. prop_discriminate.
Qed.

Lemma parse_line_IfNoneMatch v r :
  no_leading " " v →
  Request.parse_line false (IFNONEMATCH +:+ v) r = Some (Request.set_IfNoneMatch v r).
Proof.
  intros Hv. unfold Request.parse_line.
  do 3 rewrite decide_False by other_name. rewrite decide_True by same_name.
  change (IFNONEMATCH +:+ v) with ("If-None-Match" +:+ String ":" (String " " v)).
  rewrite header_value_text; [done| |done].
  simpl. prop_discriminate.
Qed.

Lemma parse_line_IfModifiedSince v r :
  no_leading " " v →
  Request.parse_line false (IFMODIFIED +:+ v) r
  = Some (Request.set_IfModifiedSince v r).
Proof.
  intros Hv. unfold Request.parse_line.
  do 4 rewrite decide_False by other_name. rewrite decide_True by same_name.
  change (IFMODIFIED +:+ v) with ("If-Modified-Since" +:+ String ":" (String " " v)).
  rewrite header_value_text; [done| |done].
  simpl. prop_discriminate.
Qed.

Lemma take_app_length s t : Str.take (String.length s) (s +:+ t) = s.
Proof. induction s as [|a s IH]; simpl; [by destruct t|]. by rewrite IH. Qed.

Lemma setHostnameAndPort_host h r :
  no_leading " " h → ¬ occurs ":" h →
  Request.setHostnameAndPort (HOST +:+ h) r = Some (Request.set_host h r).
Proof.
  intros Hh Hc. unfold Request.setHostnameAndPort.
  change (HOST +:+ h) with ("Host" +:+ String ":" (String " " h)).
  rewrite header_value_text; [|simpl; prop_discriminate|done].
  rewrite bind_Some, find_single, find_char_None by done. done.
Qed.

Lemma setHostnameAndPort_host_port h p r :
  no_leading " " h → ¬ occurs ":" h → h ≠ "" →
  Request.setHostnameAndPort (HOST +:+ h +:+ ":" +:+ p) r
  = Some (Request.set_port p (Request.set_host h r)).
Proof.
  intros Hh Hc Hne. unfold Request.setHostnameAndPort.
  change (HOST +:+ h +:+ ":" +:+ p)
    with ("Host" +:+ String ":" (String " " (h +:+ String ":" p))).
  rewrite header_value_text; [|simpl; prop_discriminate|by destruct h].
  rewrite bind_Some, find_single.
  destruct (find_char_app ":" h p Hc) as (n & Hn & Htake & Hdrop).
  rewrite Hn. pose proof (find_char_lt _ _ _ Hn).
  rewrite substr_drop by lia. by rewrite bind_Some, Htake, Hdrop.
Qed.

Lemma Request_line_parts r :
  Request.Request_line r
  = (Request.method r +:+ " " +:+ Request.url r +:+ " HTTP/1.1") +:+ CRLF
      +:+ host_part r
      +:+ header_part USERAGENT (Request.userAgent r)
      +:+ header_part CONNECTION (Request.connection r)
      +:+ header_part IFNONEMATCH (Request.IfNoneMatch r)
      +:+ header_part IFMODIFIED (Request.IfModifiedSince r)
      +:+ CRLF.
Proof.
  unfold Request.Request_line, host_part, header_part.
  repeat case_decide; rewrite ?append_assoc, ?append_nil_l, ?append_nil_r; reflexivity.
Qed.

Lemma getlines_line line tail :
  ¬ occurs LF line →
  Str.getlines LF (line +:+ CRLF +:+ tail)
  = (line +:+ String CR "") :: Str.getlines LF tail.
Proof.
  intros Hl. rewrite <- getlines_app_delim.
  - by rewrite append_assoc.
  - rewrite occurs_app. simpl. intros [?|[?|[]]]; [done | discriminate].
Qed.

Lemma parse_lines_line b line rest r :
  line ≠ "" →
  Request.parse_lines b ((line +:+ String CR "") :: rest) r
  = Request.parse_line b line r ≫= Request.parse_lines false rest.
Proof.
  intros Hl. cbn [Request.parse_lines]. rewrite pop_back_snoc.
  by rewrite decide_False.
Qed.

Lemma parse_header_part name v tail r r' :
  ¬ occurs LF (name +:+ v) → name +:+ v ≠ "" →
  Request.parse_line false (name +:+ v) r = Some r' →
  Request.parse_lines false (Str.getlines LF (header_part name v +:+ tail)) r
  = Request.parse_lines false (Str.getlines LF tail)
      (if decide (v ≠ "") then r' else r).
Proof.
  intros Hlf Hne Hline. unfold header_part. case_decide; [|done].
  replace ((name +:+ v +:+ CRLF) +:+ tail) with ((name +:+ v) +:+ CRLF +:+ tail)
    by (by rewrite !append_assoc).
  rewrite getlines_line by done.
  rewrite parse_lines_line by done. by rewrite Hline.
Qed.

Lemma extract_word_space s : Str.extract_word (String " " s) = Str.extract_word s.
Proof. reflexivity. Qed.

Lemma setHeader_text m u r :
  m ≠ "" → wordlike m → u ≠ "" → wordlike u →
  Request.setHeader (m +:+ " " +:+ u +:+ " HTTP/1.1") r
  = Request.set_url u
      (Request.set_method m
         (Request.set_requestHeader (m +:+ " " +:+ u +:+ " HTTP/1.1") r)).
Proof.
  intros Hm Hmw Hu Huw. unfold Request.setHeader.
  change (m +:+ " " +:+ u +:+ " HTTP/1.1")
    with (m +:+ String " " (u +:+ String " " "HTTP/1.1")).
  rewrite extract_word_text by done.
  rewrite extract_word_space, extract_word_text by done. done.
Qed.

Lemma parse_lines_end b rest r :
  Request.parse_lines b (String CR "" :: rest) r = Some r.
Proof. cbn. by rewrite decide_True. Qed.

Lemma parse_host_part r tail q :
  no_leading " " (Request.host r) → ¬ occurs LF (Request.host r) →
  ¬ occurs ":" (Request.host r) → ¬ occurs LF (Request.port r) →
  Request.parse_lines false (Str.getlines LF (host_part r +:+ tail)) q
  = Request.parse_lines false (Str.getlines LF tail)
      (if decide (Request.host r ≠ "") then
         if decide (Request.port r ≠ "" ∧ Request.port r ≠ "80")
         then Request.set_port (Request.port r) (Request.set_host (Request.host r) q)
         else Request.set_host (Request.host r) q
       else q).
Proof.
  intros Hh Hhl Hhc Hp. unfold host_part. case_decide as Hhost; [|done].
  case_decide as Hport.
  - replace ((HOST +:+ Request.host r +:+ (":" +:+ Request.port r) +:+ CRLF) +:+ tail)
      with ((HOST +:+ Request.host r +:+ ":" +:+ Request.port r) +:+ CRLF +:+ tail)
      by (by rewrite !append_assoc).
    rewrite getlines_line.
    2:{ rewrite !occurs_app. simpl. prop_discriminate. }
    rewrite parse_lines_line by done.
    by rewrite parse_line_host, setHostnameAndPort_host_port.
  - replace ((HOST +:+ Request.host r +:+ "" +:+ CRLF) +:+ tail)
      with ((HOST +:+ Request.host r) +:+ CRLF +:+ tail)
      by (by rewrite !append_assoc, ?append_nil_l).
    rewrite getlines_line.
    2:{ rewrite !occurs_app. simpl. prop_discriminate. }
    rewrite parse_lines_line by done.
    by rewrite parse_line_host, setHostnameAndPort_host.
Qed.

Lemma Request_line_read_back r :
  writable r →
  Request.parseRequest (Request.new (Request.Request_line r)) = Some (read_back r).
Proof.
  intros ((Hm & Hmw) & (Hu & Huw) & ((Hh & Hhl) & Hhc) & Hp
          & [Ha Hal] & [Hc Hcl] & [Hn Hnl] & [Hi Hil]).
  unfold Request.parseRequest.
  change (Request.httpRequest (Request.new ?s)) with s.
  remember (Request.new (Request.Request_line r)) as r0 eqn:Hr0.
  rewrite Request_line_parts.
  assert (¬ occurs LF (Request.method r +:+ " " +:+ Request.url r +:+ " HTTP/1.1"))
    as Hfirst.
  { rewrite !occurs_app. pose proof (wordlike_no_LF _ Hmw).
    pose proof (wordlike_no_LF _ Huw). simpl. prop_discriminate. }
  rewrite getlines_line by done.
  rewrite parse_lines_line by (by destruct (Request.method r)).
  cbn [Request.parse_line]. rewrite bind_Some, setHeader_text by done.
  rewrite parse_host_part by done.
  erewrite (parse_header_part USERAGENT);
    [|rewrite occurs_app; simpl; prop_discriminate|done|by apply parse_line_userAgent].
  erewrite (parse_header_part CONNECTION);
    [|rewrite occurs_app; simpl; prop_discriminate|done|by apply parse_line_connection].
  erewrite (parse_header_part IFNONEMATCH);
    [|rewrite occurs_app; simpl; prop_discriminate|done|by apply parse_line_IfNoneMatch].
  erewrite (parse_header_part IFMODIFIED);
    [|rewrite occurs_app; simpl; prop_discriminate|done|by apply parse_line_IfModifiedSince].
  change (Str.getlines LF CRLF) with [String CR ""]. rewrite parse_lines_end.
  f_equal. subst r0. unfold read_back. destruct r as [? ? h ua u co p m inm ims].
  simpl in *.
  destruct (decide (p = "")) as [->|Hpe];
    repeat case_decide; subst; simpl; try reflexivity; exfalso; prop.
Qed.

(** X1. [parseRequest] reads back what [Request_line] writes. For a request
    whose method and url are words, whose host has no colon and whose header
    values have no line feed and no space at their front, parsing the text of
    [Request_line] succeeds and gives the same method, url, host, user agent,
    connection and validators; the port comes back too, except that the port
    [80], and any port of a request without host, is not written and comes
    back empty. Writing the parsed request again gives the same text. *)
Theorem parseRequest_Request_line r :
  writable r →
  Request.parseRequest (Request.new (Request.Request_line r)) = Some (read_back r)
  ∧ Request.Request_line (read_back r) = Request.Request_line r.
Proof.
  intros Hw. split; [by apply Request_line_read_back|].
  unfold read_back, Request.Request_line. simpl.
  repeat case_decide; try reflexivity; exfalso; prop.
Qed.

(** ** What follows the first empty line *)

Lemma getlines_nonempty d a s : Str.getlines d (String a s) ≠ [].
Proof. simpl. case_decide; [done|]. by destruct (Str.getlines d s). Qed.

Lemma getlines_app d s : ∀ t,
  Str.getlines d (s +:+ String d t)
  = Str.getlines d (s +:+ String d "") ++ Str.getlines d t.
Proof.
  induction s as [|a s IH]; intros t.
  { rewrite !append_nil_l. simpl. by rewrite !decide_True by done. }
  rewrite !append_cons. cbn [Str.getlines]. case_decide.
  - by rewrite IH.
  - rewrite IH.
    destruct (Str.getlines d (s +:+ String d "")) as [|l ls] eqn:Hl; [|done].
    exfalso. destruct s; simpl in Hl.
    + by rewrite decide_True in Hl.
    + revert Hl. apply getlines_nonempty.
Qed.

Lemma parse_lines_stop ls : ∀ b rest r,
  Request.parse_lines b (ls ++ String CR "" :: rest) r
  = Request.parse_lines b (ls ++ [String CR ""]) r.
Proof.
  induction ls as [|l ls IH]; intros b rest r.
  { by rewrite !app_nil_l, !parse_lines_end. }
  rewrite <- !app_comm_cons. cbn [Request.parse_lines]. case_decide; [done|].
  destruct (Request.parse_line b _ r) as [r'|]; [|done]. rewrite !bind_Some. apply IH.
Qed.

Lemma header_line_with_text b line text r :
  Request.parse_line b line (with_httpRequest text r)
  = with_httpRequest text <$> Request.parse_line b line r.
Proof.
  unfold Request.parse_line. destruct b.
  { unfold Request.setHeader. simpl.
    destruct (Str.extract_word line) as [[m rest]|]; [|done].
    by destruct (Str.extract_word rest) as [[u ?]|]. }
  repeat case_decide; try done;
    unfold Request.setHostnameAndPort;
    destruct (Request.header_value line) as [v|]; try done.
  rewrite !bind_Some. destruct (Str.find ":" v); [|done].
  by destruct (Str.substr _ v).
Qed.

Lemma parse_lines_with_text ls : ∀ b text r,
  Request.parse_lines b ls (with_httpRequest text r)
  = with_httpRequest text <$> Request.parse_lines b ls r.
Proof.
  induction ls as [|l ls IH]; intros b text r; [done|].
  cbn [Request.parse_lines]. case_decide; [done|].
  rewrite header_line_with_text.
  destruct (Request.parse_line b _ r) as [r'|]; [|done]. simpl. apply IH.
Qed.

Lemma Request_line_with_text text r :
  Request.Request_line (with_httpRequest text r) = Request.Request_line r.
Proof. reflexivity. Qed.

(** X2. [parseRequest] stops at the first empty line: whatever follows the
    blank line that ends the headers (the body of a [POST]) changes no member
    but [httpRequest], and the request [Request_line] writes for the origin
    server is the same with and without it. *)
Theorem parseRequest_ignores_body head body_text :
  Request.parseRequest (Request.new (head +:+ CRLF +:+ CRLF +:+ body_text))
  = with_httpRequest (head +:+ CRLF +:+ CRLF +:+ body_text)
      <$> Request.parseRequest (Request.new (head +:+ CRLF +:+ CRLF))
  ∧ Request.Request_line
      <$> Request.parseRequest (Request.new (head +:+ CRLF +:+ CRLF +:+ body_text))
    = Request.Request_line
        <$> Request.parseRequest (Request.new (head +:+ CRLF +:+ CRLF)).
Proof.
  assert (Request.parseRequest (Request.new (head +:+ CRLF +:+ CRLF +:+ body_text))
          = with_httpRequest (head +:+ CRLF +:+ CRLF +:+ body_text)
              <$> Request.parseRequest (Request.new (head +:+ CRLF +:+ CRLF))) as Heq.
  { unfold Request.parseRequest.
    change (Request.httpRequest (Request.new ?s)) with s.
    change (Request.new (head +:+ CRLF +:+ CRLF +:+ body_text))
      with (with_httpRequest (head +:+ CRLF +:+ CRLF +:+ body_text)
              (Request.new (head +:+ CRLF +:+ CRLF))).
    rewrite parse_lines_with_text. f_equal.
    replace (head +:+ CRLF +:+ CRLF +:+ body_text)
      with ((head +:+ String CR "") +:+ String LF (String CR "" +:+ String LF body_text))
      by (by rewrite !append_assoc).
    replace (head +:+ CRLF +:+ CRLF)
      with ((head +:+ String CR "") +:+ String LF (String CR "" +:+ String LF ""))
      by (by rewrite !append_assoc).
    rewrite (getlines_app LF _ (_ +:+ String LF body_text)).
    rewrite (getlines_app LF _ (_ +:+ String LF "")).
    rewrite !(getlines_app_delim LF (String CR "")) by (simpl; prop_discriminate).
    by rewrite parse_lines_stop. }
  split; [done|]. rewrite Heq.
  by destruct (Request.parseRequest (Request.new (head +:+ CRLF +:+ CRLF))).
Qed.

(** ** Host and port *)

Lemma find_char_split c s : ∀ n,
  Str.find_char c s = Some n → s = Str.take n s +:+ String c (Str.drop (S n) s).
Proof.
  induction s as [|a s IH]; intros n; simpl; [done|].
  case_decide as Ha.
  - intros [= <-]. by subst a.
  - destruct (Str.find_char c s) as [k|]; simpl; [|done].
    intros [= <-]. cbn [Str.take]. rewrite append_cons.
    f_equal. by apply IH.
Qed.

(** X3. [setHostnameAndPort] cuts the value of the line at its first colon:
    the host it stores never has a colon in it; either the value has none,
    the host is the whole value and the port keeps what it held, or the value
    is the host, a colon and the port. (A bracketed IPv6 address is cut
    inside the brackets.) *)
Theorem setHostnameAndPort_splits_at_first_colon line r :
  ∃ v r',
    Request.header_value line = Some v
    ∧ Request.setHostnameAndPort line r = Some r'
    ∧ ¬ occurs ":" (Request.host r')
    ∧ ((v = Request.host r' ∧ Request.port r' = Request.port r)
       ∨ v = Request.host r' +:+ ":" +:+ Request.port r').
Proof.
  destruct (header_value_total line) as [v Hv]. exists v.
  unfold Request.setHostnameAndPort. rewrite Hv, bind_Some, find_single.
  destruct (Str.find_char ":" v) as [i|] eqn:Hi.
  - pose proof (find_char_lt _ _ _ Hi). rewrite substr_drop by lia.
    rewrite bind_Some. eexists. split_and!; [done..| |]; simpl.
    + by apply find_char_take.
    + right. by apply find_char_split.
  - eexists. split_and!; [done..| |]; simpl.
    + intros Hocc. clear Hv. induction v as [|a v IH]; simpl in *; [done|].
      case_decide; [done|]. destruct (Str.find_char ":" v); [done|].
      destruct Hocc as [?|?]; [done | by apply IH].
    + by left.
Qed.

(** X4. [parseRequest] lets no exception through, whatever the text: every
    position it gives to [substr] is inside the line. So [receiveClient]
    never answers [400 Bad Request]; a text it cannot make sense of ends as
    [501], its method not being one of the three. *)
Theorem receiveClient_never_replies_400 http_request :
  is_Some (Request.parseRequest (Request.new http_request))
  ∧ ∀ reason, receiveClient http_request ≠ ReplyError 400 reason.
Proof.
  assert (is_Some (Request.parseRequest (Request.new http_request))) as Hsome.
  { apply parse_lines_total. }
  split; [done|]. intros reason. unfold receiveClient.
  case_decide; [done|]. destruct Hsome as [request ->].
  repeat case_decide; done.
Qed.

(** * Further properties of the cache

    ** What the sweep removes *)

Lemma sweep_entry_fields now u e c :
  max_entries (sweep_entry now u e c) = max_entries c
  ∧ cleanup_interval (sweep_entry now u e c) = cleanup_interval c
  ∧ last_cleanup (sweep_entry now u e c) = last_cleanup c.
Proof. unfold sweep_entry. by destruct (isExpired _ _). Qed.

(** the state of the loop of [cleanExpiredResponse] after the entries [m] *)
Lemma cleanExpiredResponse_loop now c :
  let c' := cleanExpiredResponse now c in
  (∀ u, cache_map c' !! u
        = if expired_key now c u then None else cache_map c !! u)
  ∧ lru_list c' = filter (λ u, expired_key now c u = false) (lru_list c)
  ∧ max_entries c' = max_entries c
  ∧ cleanup_interval c' = cleanup_interval c
  ∧ last_cleanup c' = now.
Proof.
  unfold cleanExpiredResponse.
  set (seen (m : gmap string CacheEntry) (u : string) :=
         match m !! u with
         | Some e => isExpired now (response e)
         | None => false
         end).
  set (P (r : Cache) (m : gmap string CacheEntry) :=
         (∀ u, cache_map r !! u = if seen m u then None else cache_map c !! u)
         ∧ lru_list r = filter (λ u, seen m u = false) (lru_list c)
         ∧ max_entries r = max_entries c
         ∧ cleanup_interval r = cleanup_interval c
         ∧ last_cleanup r = now).
  cut (P (map_fold (sweep_entry now) (set_last_cleanup now c) (cache_map c))
         (cache_map c)); [done|].
  apply (map_fold_weak_ind P); unfold P.
  - split_and!; try done. simpl. induction (lru_list c) as [|x l IH]; [done|].
    rewrite filter_cons_True by done. by rewrite <- IH.
  - intros i x m r Hi (Hmap & Hlru & Hmax & Hint & Hlast).
    assert (∀ u, seen (<[i:=x]> m) u
                 = if decide (u = i) then isExpired now (response x) else seen m u)
      as Hseen.
    { intros u. unfold seen. rewrite lookup_insert.
      destruct (decide (i = u)); subst.
      - by rewrite decide_True.
      - by rewrite decide_False by congruence. }
    assert (seen m i = false) as Hsi by (unfold seen; by rewrite Hi).
    destruct (sweep_entry_fields now i x r) as (Hf1 & Hf2 & Hf3).
    split_and!; [| |congruence..].
    + intros u. rewrite Hseen. unfold sweep_entry.
      destruct (isExpired now (response x)) eqn:Hx; simpl.
      * rewrite lookup_delete. case_decide; subst.
        -- by rewrite decide_True.
        -- rewrite decide_False by congruence. apply Hmap.
      * case_decide; subst; [|apply Hmap]. by rewrite Hmap, Hsi.
    + unfold sweep_entry. destruct (isExpired now (response x)) eqn:Hx; simpl.
      * rewrite Hlru. unfold lru_remove. rewrite list_filter_filter.
        apply list_filter_iff. intros u. rewrite Hseen.
        case_decide as Hu; [split; [by intros [? _] | done]|].
        split; [by intros [_ ?] | done].
      * rewrite Hlru. apply list_filter_iff. intros u. rewrite Hseen.
        case_decide as Hu; [|done]. by rewrite Hu, Hsi.
Qed.

(** X5. [cleanExpiredResponse] removes exactly the entries that are expired
    at the time of the sweep: the map keeps the other entries as they are,
    the LRU list keeps the other urls in their order, [last_cleanup] becomes
    the time of the sweep, and the capacity and the interval stay. *)
Theorem cleanExpiredResponse_removes_the_expired now c :
  cache_map (cleanExpiredResponse now c)
  = filter (λ ue, isExpired now (response ue.2) = false) (cache_map c)
  ∧ lru_list (cleanExpiredResponse now c)
    = filter (λ u, expired_key now c u = false) (lru_list c)
  ∧ last_cleanup (cleanExpiredResponse now c) = now
  ∧ max_entries (cleanExpiredResponse now c) = max_entries c
  ∧ cleanup_interval (cleanExpiredResponse now c) = cleanup_interval c.
Proof.
  destruct (cleanExpiredResponse_loop now c) as (Hmap & Hlru & Hmax & Hint & Hlast).
  split_and!; try done.
  apply map_eq. intros u. rewrite Hmap. unfold expired_key.
  destruct (cache_map c !! u) as [e|] eqn:Hu.
  - destruct (isExpired now (response e)) eqn:He; symmetry.
    + apply map_lookup_filter_None. right. intros e' He'. simpl. congruence.
    + by apply map_lookup_filter_Some.
  - symmetry. apply map_lookup_filter_None. by left.
Qed.

(** ** A response put is the response found *)

(** the cache on which [put] works once the sweep is done *)
Lemma put_after_sweep u r now c :
  cache_mode r ≠ CACHE_NO_STORE →
  put u (Some r) now c =
    let c1 := if decide (sweep_due now c) then cleanExpiredResponse now c else c in
    match cache_map c1 !! u with
    | Some it =>
        updateLRU u
          (set_cache_map
             (<[u := mkCacheEntry r (url it) (last_checked it)]> (cache_map c1)) c1)
    | None =>
        updateLRU u
          (set_cache_map
             (<[u := mkCacheEntry r u 0]> (cache_map (cacheUpdate c1)))
             (cacheUpdate c1))
    end.
Proof. intros Hmode. unfold put, sweep_due. by rewrite decide_False. Qed.

Lemma put_lookup_self u r now c :
  cache_mode r ≠ CACHE_NO_STORE →
  response <$> cache_map (put u (Some r) now c) !! u = Some r.
Proof.
  intros Hmode. rewrite put_after_sweep by done. cbv zeta.
  set (c1 := if decide (sweep_due now c) then _ else _).
  destruct (cache_map c1 !! u); simpl; by rewrite lookup_insert_eq.
Qed.

(** X6. What [put] stores under a url is what the next [get] for the url
    finds, whatever the cache held before: for a response whose mode is not
    [CACHE_NO_STORE] the answer is the response itself, with [EXPIRED] when it
    is expired at the time of the [get], else [REQUIRES_VALIDATION] when its
    mode is [CACHE_MUST_REVALIDATE], else [VALID]. *)
Theorem get_after_put u r now now' c :
  cache_mode r ≠ CACHE_NO_STORE →
  (get u now' (put u (Some r) now c)).1
  = (if isExpired now' r then EXPIRED
     else if decide (cache_mode r = CACHE_MUST_REVALIDATE) then REQUIRES_VALIDATION
     else VALID,
     Some r).
Proof.
  intros Hmode. pose proof (put_lookup_self u r now c Hmode) as Hput.
  rewrite get_unfold.
  destruct (cache_map (put u (Some r) now c) !! u) as [e|]; [|done].
  simpl in Hput. injection Hput as ->.
  destruct (isExpired now' r); [done|]. by case_decide.
Qed.

(** ** What [put] evicts *)

Lemma sweep_keeps_fresh now c v e :
  cache_map c !! v = Some e → isExpired now (response e) = false →
  cache_map (cleanExpiredResponse now c) !! v = Some e.
Proof.
  intros Hv He. destruct (cleanExpiredResponse_loop now c) as (Hmap & _).
  rewrite Hmap. unfold expired_key. by rewrite Hv, He.
Qed.

Lemma sweep_subset now c v e :
  cache_map (cleanExpiredResponse now c) !! v = Some e → cache_map c !! v = Some e.
Proof.
  destruct (cleanExpiredResponse_loop now c) as (Hmap & _).
  rewrite Hmap. by destruct (expired_key now c v).
Qed.

Lemma sweep_size now c :
  (size (cache_map (cleanExpiredResponse now c)) ≤ size (cache_map c))%nat.
Proof. apply cleanExpiredResponse_frame. Qed.

(** an entry of the cache after [put] is the one just stored or was there
    before *)
Lemma put_entries u r now c v e :
  cache_mode r ≠ CACHE_NO_STORE →
  cache_map (put u (Some r) now c) !! v = Some e →
  (v = u ∧ response e = r
   ∧ (url e = u ∨ ∃ it, cache_map c !! u = Some it ∧ url e = url it))
  ∨ (v ≠ u ∧ cache_map c !! v = Some e).
Proof.
  intros Hmode. rewrite put_after_sweep by done. cbv zeta.
  set (c1 := if decide (sweep_due now c) then _ else _).
  assert (∀ w x, cache_map c1 !! w = Some x → cache_map c !! w = Some x) as Hsub.
  { subst c1. case_decide; [apply sweep_subset | done]. }
  destruct (cache_map c1 !! u) as [it|] eqn:Hu; simpl;
    rewrite lookup_insert; case_decide as Hv; subst.
  - intros [= <-]. left. split_and!; [done..|]. right. exists it. eauto.
  - intros He. right. split; [done|]. by apply Hsub.
  - intros [= <-]. left. split_and!; [done..|]. by left.
  - intros He%cacheUpdate_subset. right. split; [done|]. by apply Hsub.
Qed.

(** X7. A cache driven by [get] and [put] never holds a response whose mode
    is [CACHE_NO_STORE], and every entry is stored under the url it
    records. *)
Theorem cache_never_holds_no_store size clean_sec t0 c :
  reachable size clean_sec t0 c →
  ∀ u e, cache_map c !! u = Some e →
         cache_mode (response e) ≠ CACHE_NO_STORE ∧ url e = u.
Proof.
  induction 1 as [|c o Hr IH]; intros u e; simpl.
  { by rewrite lookup_empty. }
  destruct o as [u' now|u' [r|] now]; cbn [run_op].
  - rewrite get_unfold. destruct (cache_map c !! u') as [e0|] eqn:Hu'; [|apply IH].
    destruct (isExpired _ _); [apply IH|]. case_decide; [apply IH|]. simpl.
    rewrite lookup_insert. case_decide; subst; [|apply IH].
    intros [= <-]. simpl. by apply IH.
  - destruct (decide (cache_mode r = CACHE_NO_STORE)) as [Hmode|Hmode].
    { unfold put. rewrite decide_True by done. apply IH. }
    intros [(-> & <- & Hurl)|(_ & He)]%put_entries; [|by apply IH|done].
    split; [done|]. destruct Hurl as [?|(it & Hit & ->)]; [done|].
    by apply (IH _ _ Hit).
  - apply IH.
Qed.

(** X8. A [put] of a new url into a full cache, at a time when no sweep is
    due, evicts exactly one entry, the one whose url is at the back of the LRU
    list: afterwards the map is the old one without that url and with the new
    entry, and the list is the new url followed by the old list without its
    last element. *)
Theorem put_into_full_cache_evicts_the_last c u r now :
  cache_inv c → (1 ≤ max_entries c)%nat → size (cache_map c) = max_entries c →
  cache_map c !! u = None → cache_mode r ≠ CACHE_NO_STORE → ¬ sweep_due now c →
  ∃ others victim,
    lru_list c = others ++ [victim]
    ∧ cache_map (put u (Some r) now c)
      = <[u := mkCacheEntry r u 0]> (delete victim (cache_map c))
    ∧ lru_list (put u (Some r) now c) = u :: others.
Proof.
  intros Hc Hmax Hsize Hu Hmode Hdue.
  pose proof (cache_inv_size c Hc) as Hlen. destruct Hc as [Hnd Hel].
  destruct (reverse (lru_list c)) as [|victim back] eqn:Hrev.
  { apply (f_equal length) in Hrev. rewrite length_reverse in Hrev.
    simpl in Hrev. lia. }
  assert (lru_list c = reverse back ++ [victim]) as Hlru.
  { apply (f_equal reverse) in Hrev.
    by rewrite reverse_involutive, reverse_cons in Hrev. }
  exists (reverse back), victim. split; [done|].
  rewrite put_after_sweep by done. cbv zeta. rewrite decide_False by done.
  rewrite Hu. unfold cacheUpdate. rewrite Hrev.
  rewrite evict_from_back_full; [| |done|done].
  2:{ apply Hel. rewrite Hlru, elem_of_app, elem_of_cons. auto. }
  simpl. split; [done|]. f_equal. apply lru_remove_absent.
  intros Hin. assert (u ∈ lru_list c) as Hin'.
  { rewrite Hlru, elem_of_app. by left. }
  apply Hel in Hin'. rewrite Hu in Hin'. by destruct Hin'.
Qed.

Lemma cacheUpdate_room c :
  (size (cache_map c) < max_entries c)%nat → cacheUpdate c = c.
Proof.
  intros Hroom. unfold cacheUpdate. rewrite evict_from_back_room by done.
  rewrite reverse_involutive. by destruct c.
Qed.

(** X9. [put] removes no entry that is not expired, as long as the url put
    is already cached in a cache within its capacity, or the cache has room:
    the eviction loop only runs into entries when a new url meets a full
    cache. *)
Theorem put_keeps_fresh_entries c u resp now v e :
  (is_Some (cache_map c !! u) ∧ (size (cache_map c) ≤ max_entries c)%nat)
  ∨ (size (cache_map c) < max_entries c)%nat →
  v ≠ u → cache_map c !! v = Some e → isExpired now (response e) = false →
  cache_map (put u resp now c) !! v = Some e.
Proof.
  intros Hroom Hvu Hv He. destruct resp as [r|]; [|done].
  destruct (decide (cache_mode r = CACHE_NO_STORE)) as [Hmode|Hmode].
  { unfold put. by rewrite decide_True. }
  rewrite put_after_sweep by done. cbv zeta.
  set (c1 := if decide (sweep_due now c) then _ else _).
  assert (cache_map c1 !! v = Some e) as Hv1.
  { subst c1. case_decide; [by apply sweep_keeps_fresh | done]. }
  assert (max_entries c1 = max_entries c
          ∧ (size (cache_map c1) ≤ size (cache_map c))%nat) as [Hmax Hsize].
  { subst c1. case_decide; [apply cleanExpiredResponse_frame | done]. }
  assert (∀ w x, cache_map c1 !! w = Some x → cache_map c !! w = Some x) as Hsub.
  { subst c1. case_decide; [apply sweep_subset | done]. }
  destruct (cache_map c1 !! u) as [it|] eqn:Hu; simpl.
  { by rewrite lookup_insert_ne. }
  rewrite cacheUpdate_room; [by rewrite lookup_insert_ne|].
  rewrite Hmax. destruct Hroom as [[[it Hit] Hle]|Hlt]; [|lia].
  assert (cache_map c1 ⊆ delete u (cache_map c)) as Hsubset.
  { apply map_subseteq_spec. intros w x Hw. apply lookup_delete_Some.
    split; [|by apply Hsub]. intros <-. congruence. }
  apply map_subseteq_size in Hsubset.
  rewrite map_size_delete_Some in Hsubset by eauto.
  assert (size (cache_map c) ≠ 0%nat).
  { intros Hz%map_size_empty_inv. by rewrite Hz, lookup_empty in Hit. }
  lia.
Qed.

(** ** The entry used last is safe from the next eviction *)

Lemma put_keeps_front c u e l v resp now :
  cache_inv c → (2 ≤ max_entries c)%nat →
  (size (cache_map c) ≤ max_entries c)%nat →
  lru_list c = u :: l → cache_map c !! u = Some e →
  isExpired now (response e) = false → v ≠ u →
  cache_map (put v resp now c) !! u = Some e.
Proof.
  intros Hc Hmax Hsize Hlru Hu He Hvu. destruct resp as [r|]; [|done].
  destruct (decide (cache_mode r = CACHE_NO_STORE)) as [Hmode|Hmode].
  { unfold put. by rewrite decide_True. }
  rewrite put_after_sweep by done. cbv zeta.
  set (c1 := if decide (sweep_due now c) then _ else _).
  assert (cache_inv c1 ∧ cache_map c1 !! u = Some e
          ∧ max_entries c1 = max_entries c
          ∧ (size (cache_map c1) ≤ size (cache_map c))%nat
          ∧ ∃ l1, lru_list c1 = u :: l1) as (Hc1 & Hu1 & Hmax1 & Hsize1 & l1 & Hlru1).
  { subst c1. case_decide; [|by eauto 10].
    destruct (cleanExpiredResponse_frame now c) as [? ?].
    split_and!; [by apply cache_inv_cleanExpiredResponse
                | by apply sweep_keeps_fresh | done | done |].
    destruct (cleanExpiredResponse_loop now c) as (_ & -> & _).
    rewrite Hlru, filter_cons_True; [eauto|].
    unfold expired_key. by rewrite Hu, He. }
  clearbody c1. destruct (cache_map c1 !! v) as [it|] eqn:Hv; simpl.
  { by rewrite lookup_insert_ne. }
  rewrite lookup_insert_ne by done.
  pose proof (cache_inv_cacheUpdate c1 Hc1) as [_ Hel].
  assert (u ∈ lru_list (cacheUpdate c1)) as Hin.
  { rewrite lru_list_cacheUpdate by (done || lia). rewrite Hlru1, Hmax1.
    destruct (max_entries c) as [|[|n]]; [lia..|]. simpl. by left. }
  apply Hel in Hin as [x Hx]. rewrite Hx.
  apply cacheUpdate_subset in Hx. congruence.
Qed.

(** X10. The LRU policy at work: an entry that [get] has just answered
    [VALID] is at the front of the list and outlives the next [put] of any
    other url, in a cache that is within its capacity of two entries or more,
    provided it is not expired at the time of that [put]. *)
Theorem served_entry_survives_next_put c u now r v resp now' :
  cache_inv c → (2 ≤ max_entries c)%nat →
  (size (cache_map c) ≤ max_entries c)%nat →
  (get u now c).1 = (VALID, Some r) → v ≠ u → isExpired now' r = false →
  response <$> cache_map (put v resp now' (get u now c).2) !! u = Some r.
Proof.
  intros Hc Hmax Hsize Hget Hvu Hfresh.
  pose proof (cache_inv_get u now c Hc) as Hc'.
  pose proof (max_entries_get u now c) as Hmax'.
  pose proof (size_get u now c) as Hsize'.
  revert Hget Hc' Hmax' Hsize'. rewrite get_unfold.
  destruct (cache_map c !! u) as [e0|] eqn:Hu; [|done].
  destruct (isExpired now (response e0)); [done|]. case_decide; [done|].
  cbn [fst snd]. intros [= <-] Hc' Hmax' Hsize'.
  rewrite (put_keeps_front _ u (mkCacheEntry (response e0) (url e0) now)
             (lru_remove u (lru_list c)));
    [done|done|lia|lia|done| |done|done].
  simpl. by rewrite lookup_insert_eq.
Qed.

(** ** When [put] sweeps *)

(** X11. A [put] that comes more than [cleanup_interval] seconds after the
    last sweep leaves no expired entry behind: afterwards [last_cleanup] is
    the time of the [put], and every entry but the one just stored is not
    expired at that time. A [put] that comes earlier leaves [last_cleanup] as
    it was. *)
Theorem put_sweeps_when_due u r now c :
  cache_mode r ≠ CACHE_NO_STORE →
  (sweep_due now c →
   last_cleanup (put u (Some r) now c) = now
   ∧ ∀ v e, v ≠ u → cache_map (put u (Some r) now c) !! v = Some e →
            isExpired now (response e) = false)
  ∧ (¬ sweep_due now c →
     last_cleanup (put u (Some r) now c) = last_cleanup c).
Proof.
  intros Hmode. rewrite put_after_sweep by done. cbv zeta.
  assert (∀ c1, last_cleanup (cacheUpdate c1) = last_cleanup c1) as Hupd.
  { intros c1. unfold cacheUpdate. by destruct (evict_from_back _ _ _). }
  split; intros Hdue.
  - rewrite decide_True by done.
    destruct (cleanExpiredResponse_loop now c) as (Hmap & _ & _ & _ & Hlast).
    assert (∀ v e, cache_map (cleanExpiredResponse now c) !! v = Some e →
                   isExpired now (response e) = false) as Hfresh.
    { intros v e. rewrite Hmap. unfold expired_key.
      destruct (cache_map c !! v) as [e'|]; [|done].
      destruct (isExpired now (response e')) eqn:He'; [done|]. by intros [= <-]. }
    destruct (cache_map (cleanExpiredResponse now c) !! u) as [it|]; simpl.
    + split; [done|]. intros v e Hv. rewrite lookup_insert_ne by done. apply Hfresh.
    + rewrite Hupd. split; [done|]. intros v e Hv.
      rewrite lookup_insert_ne by done. intros He%cacheUpdate_subset.
      by apply (Hfresh v).
  - rewrite decide_False by done.
    destruct (cache_map c !! u) as [it|]; simpl; [done|]. apply Hupd.
Qed.

(** * Further properties of the response parser

    ** The cache mode after [parseCacheControl] *)

(** what one directive does to the flags, the mode and the visibility *)
Lemma cc_directive_effect st raw :
  let d := trim_directive raw in
  let r := st.1 in
  let r' := (cc_directive st raw).1 in
  no_store r' = no_store r || bool_decide (d = CACHECTR_NO_STORE)
  ∧ no_cache r' = no_cache r || bool_decide (d = CACHECTR_NO_CACHE)
  ∧ must_revalidate r'
    = must_revalidate r
      || bool_decide (d = CACHECTR_REVALIDATE ∨ d = CACHECTR_PROXY_REVALIDATE)
  ∧ cache_mode r'
    = (if decide (restrictive d) then mode_of_directive d else cache_mode r)
  ∧ (cache_visibility r' = cache_visibility r
     ∨ cache_visibility r' = CACHE_PUBLIC ∨ cache_visibility r' = CACHE_PRIVATE).
Proof.
  destruct st as [r b]. cbn [fst]. unfold cc_directive, restrictive, mode_of_directive.
  set (d := trim_directive raw).
  destruct (assign_max_age_frame 8 d r) as (_&_&_&?&?&?&?&?).
  destruct (assign_max_age_frame 9 d r) as (_&_&_&?&?&?&?&?).
  destruct (decide (d = CACHECTR_NO_STORE)) as [->|Hns]; cbn [fst].
  { simpl. rewrite !orb_false_r, orb_true_r. auto 10. }
  destruct (decide (d = CACHECTR_NO_CACHE)) as [->|Hnc]; cbn [fst].
  { simpl. rewrite !orb_false_r, orb_true_r. auto 10. }
  destruct (decide (d = CACHECTR_REVALIDATE ∨ d = CACHECTR_PROXY_REVALIDATE))
    as [Hmr|Hmr]; cbn [fst].
  { rewrite (bool_decide_eq_true_2 _ Hmr), decide_True by prop.
    rewrite !bool_decide_eq_false_2 by done. simpl.
    rewrite !orb_false_r, orb_true_r. auto 10. }
  rewrite !bool_decide_eq_false_2, !orb_false_r by done.
  rewrite (decide_False (P := _ ∨ _)) by prop.
  repeat case_decide; cbn [fst]; simpl; try destruct b; auto 10.
Qed.

Lemma cc_directives_flags raws : ∀ st,
  let r' := (foldl cc_directive st raws).1 in
  (no_store r' = true
   ↔ no_store st.1 = true ∨ CACHECTR_NO_STORE ∈ trim_directive <$> raws)
  ∧ (no_cache r' = true
     ↔ no_cache st.1 = true ∨ CACHECTR_NO_CACHE ∈ trim_directive <$> raws)
  ∧ (must_revalidate r' = true
     ↔ must_revalidate st.1 = true
       ∨ CACHECTR_REVALIDATE ∈ trim_directive <$> raws
       ∨ CACHECTR_PROXY_REVALIDATE ∈ trim_directive <$> raws).
Proof.
  induction raws as [|raw raws IH]; intros st; cbn [foldl].
  { rewrite fmap_nil. split_and!; (split; [by left|]).
    - by intros [?|?%elem_of_nil].
    - by intros [?|?%elem_of_nil].
    - by intros [?|[?%elem_of_nil|?%elem_of_nil]]. }
  destruct (IH (cc_directive st raw)) as (Hs & Hc & Hm).
  destruct (cc_directive_effect st raw) as (Hs1 & Hc1 & Hm1 & _).
  cbv zeta in *. rewrite Hs, Hc, Hm, Hs1, Hc1, Hm1, fmap_cons.
  rewrite !orb_true_iff, !bool_decide_eq_true, !elem_of_cons.
  split_and!; split; intros H; decompose [or] H; auto 10.
Qed.

Lemma cc_directives_mode_kept raws : ∀ st,
  Forall (λ raw, ¬ restrictive (trim_directive raw)) raws →
  cache_mode (foldl cc_directive st raws).1 = cache_mode st.1.
Proof.
  induction raws as [|raw raws IH]; intros st Hall; cbn [foldl]; [done|].
  apply Forall_cons in Hall as [Hraw Hall]. rewrite IH by done.
  destruct (cc_directive_effect st raw) as (_ & _ & _ & Hmode & _).
  cbv zeta in Hmode. by rewrite Hmode, decide_False.
Qed.

Lemma cc_directives_mode_last before raw after st :
  restrictive (trim_directive raw) →
  Forall (λ raw', ¬ restrictive (trim_directive raw')) after →
  cache_mode (foldl cc_directive st (before ++ raw :: after)).1
  = mode_of_directive (trim_directive raw).
Proof.
  intros Hraw Hafter. rewrite foldl_app. cbn [foldl].
  rewrite cc_directives_mode_kept by done.
  destruct (cc_directive_effect (foldl cc_directive st before) raw)
    as (_ & _ & _ & Hmode & _).
  cbv zeta in Hmode. by rewrite Hmode, decide_True.
Qed.

(** the four ways a directive acts on the flags and the mode *)
Lemma cc_directive_cases st raw :
  let d := trim_directive raw in
  let r := st.1 in
  let r' := (cc_directive st raw).1 in
  (d = CACHECTR_NO_STORE ∧ cache_mode r' = CACHE_NO_STORE
   ∧ no_store r' = true ∧ no_cache r' = no_cache r
   ∧ must_revalidate r' = must_revalidate r)
  ∨ (d = CACHECTR_NO_CACHE ∧ cache_mode r' = CACHE_MUST_REVALIDATE
     ∧ no_store r' = no_store r ∧ no_cache r' = true
     ∧ must_revalidate r' = must_revalidate r)
  ∨ ((d = CACHECTR_REVALIDATE ∨ d = CACHECTR_PROXY_REVALIDATE)
     ∧ cache_mode r' = CACHE_MUST_REVALIDATE
     ∧ no_store r' = no_store r ∧ no_cache r' = no_cache r
     ∧ must_revalidate r' = true)
  ∨ (¬ restrictive d ∧ cache_mode r' = cache_mode r
     ∧ no_store r' = no_store r ∧ no_cache r' = no_cache r
     ∧ must_revalidate r' = must_revalidate r).
Proof.
  destruct (cc_directive_effect st raw) as (Hs & Hc & Hm & Hmode & _).
  cbv zeta in *. revert Hs Hc Hm Hmode.
  generalize (cc_directive st raw).1 as r'. intros r'.
  set (d := trim_directive raw). unfold restrictive, mode_of_directive.
  intros -> -> -> ->.
  destruct (decide (d = CACHECTR_NO_STORE)) as [Hd|Hns].
  { left. rewrite Hd. simpl. by rewrite !orb_false_r, orb_true_r. }
  destruct (decide (d = CACHECTR_NO_CACHE)) as [Hd|Hnc].
  { right. left. rewrite Hd. simpl. by rewrite !orb_false_r, orb_true_r. }
  destruct (decide (d = CACHECTR_REVALIDATE ∨ d = CACHECTR_PROXY_REVALIDATE))
    as [Hd|Hmr].
  { right. right. left. rewrite (bool_decide_eq_true_2 _ Hd).
    rewrite !bool_decide_eq_false_2 by done.
    rewrite decide_True by (clear -Hd; prop).
    by rewrite !orb_false_r, orb_true_r. }
  right. right. right.
  rewrite !bool_decide_eq_false_2 by done.
  rewrite decide_False by (clear -Hns Hnc Hmr; prop).
  rewrite !orb_false_r. split_and!; try done. clear -Hns Hnc Hmr. prop.
Qed.

(** what the loop keeps true of the mode and the flags *)
Lemma cc_directives_inv raws : ∀ st,
  let inv (r : Response) :=
    (cache_mode r = 0 ∨ cache_mode r = CACHE_MUST_REVALIDATE
     ∨ cache_mode r = CACHE_NO_STORE)
    ∧ (cache_mode r = CACHE_NO_STORE → no_store r = true)
    ∧ (no_cache r = true ∨ must_revalidate r = true →
       cache_mode r = CACHE_MUST_REVALIDATE ∨ cache_mode r = CACHE_NO_STORE)
    ∧ (cache_mode r = CACHE_MUST_REVALIDATE ∨ cache_mode r = CACHE_NO_STORE →
       no_store r = true ∨ no_cache r = true ∨ must_revalidate r = true)
    ∧ (cache_visibility r = CACHE_PUBLIC ∨ cache_visibility r = CACHE_PRIVATE) in
  inv st.1 → inv (foldl cc_directive st raws).1.
Proof.
  induction raws as [|raw raws IH]; intros st; cbn [foldl]; [done|].
  cbv zeta in *. intros (Hrange & Hfive & Hflag & Hback & Hvis). apply IH.
  destruct (cc_directive_effect st raw) as (_ & _ & _ & _ & Hv).
  cbv zeta in Hv.
  assert (CACHE_MUST_REVALIDATE ≠ CACHE_NO_STORE) as Hne by done.
  destruct (cc_directive_cases st raw)
    as [(_ & -> & -> & -> & ->)|[(_ & -> & -> & -> & ->)
       |[(_ & -> & -> & -> & ->)|(_ & -> & -> & -> & ->)]]];
    (split_and!; [| | | |clear -Hv Hvis; destruct Hv as [->|Hv]; [done | prop]]);
    clear Hv Hvis; auto.
Qed.

(** the members [parseCacheControl] leaves in the response [parseResponse]
    returns *)
Lemma parseResponse_directives buf R :
  parseResponse new_Response buf = Some R →
  ∃ r3, directives_of r3 = directives_of new_Response
        ∧ header r3 = header R
        ∧ directives_of R = directives_of (parseCacheControl r3).
Proof.
  intros (r3 & -> & Hd & Hh)%parseResponse_before_directives.
  exists r3. split_and!; [done..|].
  by destruct (setExpiredTime_frame (parseCacheControl r3)) as (_ & _ & ->).
Qed.

(** X12. The modes a parsed response can have. Without a [Cache-Control]
    header the mode stays 0 and no flag is set. With one, the mode is
    [CACHE_NORMAL] when neither [no_cache] nor [must_revalidate] is set,
    else [CACHE_MUST_REVALIDATE], or [CACHE_NO_STORE] with [no_store] set as
    well. The mode is never [CACHE_IMMUTABLE], and the visibility is
    [CACHE_PUBLIC] or [CACHE_PRIVATE]. *)
Theorem parsed_cache_mode buf R :
  parseResponse new_Response buf = Some R →
  ((header R !! HEADER_CACHECTRL = None ∧ cache_mode R = 0
    ∧ no_store R = false ∧ no_cache R = false ∧ must_revalidate R = false
    ∧ max_age R = -1 ∧ cache_visibility R = CACHE_PUBLIC)
   ∨ (is_Some (header R !! HEADER_CACHECTRL) ∧ cache_mode R = CACHE_NORMAL
      ∧ no_cache R = false ∧ must_revalidate R = false)
   ∨ (is_Some (header R !! HEADER_CACHECTRL)
      ∧ cache_mode R = CACHE_MUST_REVALIDATE
      ∧ (no_cache R = true ∨ must_revalidate R = true))
   ∨ (is_Some (header R !! HEADER_CACHECTRL) ∧ cache_mode R = CACHE_NO_STORE
      ∧ no_store R = true ∧ (no_cache R = true ∨ must_revalidate R = true)))
  ∧ cache_mode R ≠ CACHE_IMMUTABLE
  ∧ (cache_visibility R = CACHE_PUBLIC ∨ cache_visibility R = CACHE_PRIVATE).
Proof.
  intros (r3 & Hd & Hh & HR)%parseResponse_directives.
  unfold directives_of in Hd, HR. simpl in Hd.
  injection Hd as Hs3 Hc3 Hm3 Ha3 Hmode3 Hv3.
  injection HR as -> -> -> -> -> ->. rewrite <- Hh.
  unfold parseCacheControl.
  destruct (header r3 !! HEADER_CACHECTRL) as [value|] eqn:Hvalue.
  2:{ split_and!; [left; by split_and! | by rewrite Hmode3 | by left]. }
  pose proof (cc_directives_inv (Str.getlines "," value) (r3, false)) as Hinv.
  cbv zeta in Hinv. cbn [fst] in Hinv.
  match type of Hinv with ?A → _ => assert A as Hstart end.
  { rewrite Hmode3, Hc3, Hm3, Hv3, Hs3. split_and!; auto.
    - done.
    - by intros [?|?].
    - by intros [?|?]. }
  destruct (Hinv Hstart) as (Hrange & Hfive & Hflag & Hback & Hvis).
  clear Hinv Hstart.
  destruct (foldl cc_directive (r3, false) (Str.getlines "," value)) as [r1 b].
  cbn [fst] in *.
  assert (CACHE_MUST_REVALIDATE ≠ CACHE_IMMUTABLE
          ∧ CACHE_NO_STORE ≠ CACHE_IMMUTABLE ∧ CACHE_NORMAL ≠ CACHE_IMMUTABLE
          ∧ (0 : Z) ≠ CACHE_IMMUTABLE) as (? & ? & ? & ?) by done.
  destruct (no_cache r1) eqn:Hnc; destruct (must_revalidate r1) eqn:Hmr; simpl;
    (split_and!; [|try (destruct Hrange as [-> | [-> | ->]]; done)|done]).
  - destruct Hflag as [Hmode|Hmode]; [auto| |]; rewrite Hmode; eauto 10.
  - destruct Hflag as [Hmode|Hmode]; [auto| |]; rewrite Hmode; eauto 10.
  - destruct Hflag as [Hmode|Hmode]; [auto| |]; rewrite Hmode; eauto 10.
  - right. left. eauto.
  - done.
Qed.

(** X13. Which restrictive directive decides. When the [Cache-Control] value
    has none of [no-cache], [must-revalidate], [proxy-revalidate], the mode
    ends as [CACHE_NORMAL]. When it has one of them, the mode is the one
    assigned at the last directive among these three and [no-store]:
    [CACHE_NO_STORE] when [no-store] comes last, [CACHE_MUST_REVALIDATE]
    otherwise. *)
Theorem cache_mode_follows_last_directive buf R value :
  parseResponse new_Response buf = Some R →
  header R !! HEADER_CACHECTRL = Some value →
  ((∀ d, d ∈ directives value → ¬ revalidating d) → cache_mode R = CACHE_NORMAL)
  ∧ (∀ before d after,
       directives value = before ++ d :: after →
       restrictive d → Forall (λ d', ¬ restrictive d') after →
       (∃ d', d' ∈ directives value ∧ revalidating d') →
       cache_mode R = mode_of_directive d).
Proof.
  intros (r3 & Hd & Hh & HR)%parseResponse_directives Hvalue.
  unfold directives_of in Hd, HR. simpl in Hd.
  injection Hd as Hs3 Hc3 Hm3 Ha3 Hmode3 Hv3.
  injection HR as _ _ _ _ -> _.
  unfold parseCacheControl. rewrite Hh, Hvalue. unfold directives.
  destruct (cc_directives_flags (Str.getlines "," value) (r3, false))
    as (_ & Hc & Hm).
  cbn [fst] in Hc, Hm. rewrite Hc3 in Hc. rewrite Hm3 in Hm.
  split.
  - intros Hnone.
    destruct (foldl cc_directive (r3, false) (Str.getlines "," value)) as [r1 b].
    cbn [fst] in *.
    destruct (no_cache r1).
    { destruct (proj1 Hc eq_refl) as [?|Hin]; [done|].
      destruct (Hnone _ Hin). by left. }
    destruct (must_revalidate r1); [|done].
    destruct (proj1 Hm eq_refl) as [?|[Hin|Hin]]; [done| |];
      destruct (Hnone _ Hin); [right; by left | right; by right].
  - intros before d after Hsplit Hrestr Hafter (d' & Hin & Hd').
    apply fmap_app_inv in Hsplit as (raws1 & raws2 & -> & Hcons & Hraws).
    symmetry in Hcons.
    apply fmap_cons_inv in Hcons as (raw & raws3 & -> & -> & ->).
    rewrite Forall_fmap in Hafter.
    pose proof (cc_directives_mode_last raws1 raw raws3 (r3, false) Hrestr Hafter)
      as Hlast.
    rewrite Hraws in *.
    destruct (foldl cc_directive (r3, false) (raws1 ++ raw :: raws3)) as [r1 b].
    cbn [fst] in *.
    assert (no_cache r1 = true ∨ must_revalidate r1 = true) as Hflags.
    { destruct Hd' as [-> | [-> | ->]].
      - left. apply Hc. by right.
      - right. apply Hm. right. by left.
      - right. apply Hm. right. by right. }
    destruct Hflags as [-> | ->]; simpl; [done|].
    by destruct (no_cache r1).
Qed.

(** ** The expiry time *)

Lemma parse_status_line_expire_time r l :
  expire_time (parse_status_line r l) = expire_time r.
Proof.
  unfold parse_status_line. destruct (Str.extract_word l) as [[v rest]|]; [|done].
  destruct (Str.extract_int rest); [|done..]. by case_decide.
Qed.

Lemma header_loop_expire_time ls : ∀ r r' ls',
  header_loop r ls = Some (r', ls') → expire_time r' = expire_time r.
Proof.
  induction ls as [|l ls IH]; intros r r' ls'; simpl.
  { by intros [= <- <-]. }
  case_decide; [by intros [= <- <-]|].
  destruct (header_line r l) as [r1|] eqn:Hl; simpl; [|done].
  intros ->%IH. revert Hl. unfold header_line.
  destruct (Str.find_char _ _); [|by intros [= <-]].
  unfold header_field. repeat case_decide.
  - by intros [= <-].
  - destruct (Str.stoi _); simpl; [|done]. by intros [= <-].
  - by intros [= <-].
Qed.

(** X14. A response without [Date] and without [Expires] header gets no
    expiry time, whatever its [Cache-Control] says, and [Cache::isExpired]
    holds it for expired at every time. So every [get] for a url whose entry
    holds this response, whatever the url and the [last_checked] the entry
    records, answers [EXPIRED] with it and leaves the cache as it is; this is
    the case after every [put] that stores the response, in a fresh cache or
    in place of an older entry. *)
Theorem no_date_no_expires_is_always_expired buf R :
  parseResponse new_Response buf = Some R →
  header R !! HEADER_DATE = None → header R !! HEADER_EXPIRE = None →
  expire_time R = ""
  ∧ (∀ now, isExpired now R = true)
  ∧ (∀ u now c e, cache_map c !! u = Some e → response e = R →
                  get u now c = (EXPIRED, Some R, c))
  ∧ (∀ u now now' c, cache_mode R ≠ CACHE_NO_STORE →
       get u now' (put u (Some R) now c)
       = (EXPIRED, Some R, put u (Some R) now c)).
Proof.
  intros (l & ls & r2 & ls' & _ & Hloop & ->)%parseResponse_steps.
  set (r3 := if is_chunked r2 then r2 else set_body (read_body ls') r2).
  destruct (setExpiredTime_frame (parseCacheControl r3)) as (Hhead & _ & _).
  assert (header (setExpiredTime (parseCacheControl r3))
          = header (parseCacheControl r3)) as -> by (unfold head_of in Hhead; congruence).
  intros Hdate Hexp.
  assert (expire_time (setExpiredTime (parseCacheControl r3)) = "") as Hempty.
  { unfold setExpiredTime. rewrite Hdate, Hexp.
    destruct (parseCacheControl_frame r3) as (_ & _ & ->).
    apply header_loop_expire_time in Hloop.
    rewrite parse_status_line_expire_time in Hloop.
    subst r3. by destruct (is_chunked r2). }
  assert (∀ now, isExpired now (setExpiredTime (parseCacheControl r3)) = true)
    as Hexpired.
  { intros now. unfold isExpired. by rewrite decide_True. }
  assert (∀ u now c e,
            cache_map c !! u = Some e →
            response e = setExpiredTime (parseCacheControl r3) →
            get u now c
            = (EXPIRED, Some (setExpiredTime (parseCacheControl r3)), c)) as Hget.
  { intros u now c e Hu He. by rewrite get_unfold, Hu, He, Hexpired. }
  split_and!; [done..|].
  intros u now now' c Hmode.
  pose proof (put_lookup_self u _ now c Hmode) as Hself.
  destruct (cache_map (put u (Some (setExpiredTime (parseCacheControl r3))) now c)
              !! u) as [e|] eqn:Hu; [|done].
  injection Hself as He. by apply (Hget u now' _ e).
Qed.

(** ** The body *)

(** X15. Of a response that [parseResponse] finds chunked nothing is kept as
    body, what followed the headers in the buffer included; the body is then
    what [addChunkedData] is given. On a response that is not chunked
    [addChunkedData] does nothing. *)
Theorem chunked_body_is_the_chunks buf R chunk_data :
  parseResponse new_Response buf = Some R →
  (is_chunked R = true →
   body R = "" ∧ body (addChunkedData chunk_data R) = chunk_data)
  ∧ (is_chunked R = false → addChunkedData chunk_data R = R).
Proof.
  intros (_ & _ & _ & Hbody)%parseResponse_shape. unfold addChunkedData.
  split; intros Hch; rewrite Hch; [|done].
  rewrite (Hbody Hch). done.
Qed.

Lemma stoi_of_int n :
  0 ≤ n ≤ Str.INT_MAX → Str.stoi (Str.of_int n) = Some n.
Proof.
  intros Hn. unfold Str.stoi, Str.of_int. rewrite decide_False by lia.
  destruct (read_digits_digits n "") as [Hs Hr]; [lia|done|].
  rewrite append_nil_r in Hs, Hr.
  destruct (starts_with_digit_cons _ Hs) as (a & s' & Heq & Ha).
  destruct (is_nat_plain a Ha) as (Hsp & Hm & Hp & _).
  rewrite Heq in *. rewrite skip_ws_plain by done.
  unfold Str.scan_int. rewrite !decide_False by done. rewrite Hs, Hr.
  rewrite decide_True by (unfold Str.INT_MIN, Str.INT_MAX in *; lia). done.
Qed.

(** X16. [addResponseBody] appends to the body and rewrites the
    [Content-Length] header to the new length of the body: the header value
    read as a number is that length (for a body of at most [INT_MAX] bytes).
    The member [content_length] keeps the value parsed before. *)
Theorem addResponseBody_sets_content_length response_body r :
  Z.of_nat (String.length (body r +:+ response_body)) ≤ Str.INT_MAX →
  let r' := addResponseBody response_body r in
  body r' = body r +:+ response_body
  ∧ (header r' !! HEADER_CONTENT_LEN) ≫= Str.stoi
    = Some (Z.of_nat (String.length (body r')))
  ∧ (∀ k, k ≠ HEADER_CONTENT_LEN → header r' !! k = header r !! k)
  ∧ content_length r' = content_length r.
Proof.
  intros Hlen. unfold addResponseBody. simpl. split_and!; [done| |by intros; rewrite lookup_insert_ne|done].
  rewrite lookup_insert_eq. simpl. apply stoi_of_int. lia.
Qed.

(** ** The directive [max-age] *)

Lemma substr_app p : ∀ s, Str.substr (String.length p) (p +:+ s) = Some s.
Proof. induction p as [|a p IH]; intros s; [by destruct s | apply IH]. Qed.

Lemma assign_max_age_text n r :
  0 ≤ n ≤ Str.INT_MAX →
  assign_max_age 8 (CACHECTR_MAXAGE +:+ Str.of_int n) r = set_max_age n r.
Proof.
  intros Hn. unfold assign_max_age.
  change 8%nat with (String.length CACHECTR_MAXAGE).
  rewrite substr_app, bind_Some. by rewrite stoi_of_int.
Qed.

(** a recognised directive leaves [issmax_age] false, and [max_age] alone
    unless it begins with [max-age=] *)
Lemma cc_directive_recognised r raw :
  recognised (trim_directive raw) →
  (cc_directive (r, false) raw).2 = false
  ∧ (Str.find CACHECTR_MAXAGE (trim_directive raw) ≠ Some 0%nat →
     max_age (cc_directive (r, false) raw).1 = max_age r).
Proof.
  intros Hrec. unfold cc_directive. set (d := trim_directive raw) in *.
  destruct (decide (d = CACHECTR_NO_STORE)); [done|].
  destruct (decide (d = CACHECTR_NO_CACHE)); [done|].
  destruct (decide (d = CACHECTR_REVALIDATE ∨ d = CACHECTR_PROXY_REVALIDATE));
    [done|].
  destruct (decide (d = CACHECTR_PRIVATE)); [done|].
  destruct (decide (d = CACHECTR_PUBLIC)); [done|].
  destruct (decide (Str.find CACHECTR_MAXAGE d = Some 0%nat)); [done|].
  destruct (decide (Str.find CACHECTR_SMAXAGE d ≠ Some 0%nat)) as [Hs|]; [|done].
  exfalso. unfold recognised, restrictive in Hrec. clear -Hrec n n0 n1 n2 n3 n4 Hs.
  prop.
Qed.

Lemma cc_directives_recognised raws : ∀ r,
  Forall (λ raw, recognised (trim_directive raw)) raws →
  (foldl cc_directive (r, false) raws).2 = false
  ∧ (Forall (λ raw, Str.find CACHECTR_MAXAGE (trim_directive raw) ≠ Some 0%nat) raws →
     max_age (foldl cc_directive (r, false) raws).1 = max_age r).
Proof.
  induction raws as [|raw raws IH]; intros r Hall; cbn [foldl]; [done|].
  apply Forall_cons in Hall as [Hraw Hall].
  destruct (cc_directive_recognised r raw Hraw) as [Hb Hage].
  destruct (cc_directive (r, false) raw) as [r1 b]. cbn [fst snd] in *. subst b.
  destruct (IH r1 Hall) as [Hb' Hage']. split; [done|].
  intros [Hn Hns]%Forall_cons. rewrite Hage' by done. by apply Hage.
Qed.

Lemma cc_directive_max_age r n raw :
  0 ≤ n ≤ Str.INT_MAX →
  trim_directive raw = CACHECTR_MAXAGE +:+ Str.of_int n →
  cc_directive (r, false) raw = (set_max_age n r, false).
Proof.
  intros Hn Hd. unfold cc_directive. rewrite Hd.
  assert (∀ name, String.prefix CACHECTR_MAXAGE name = false →
                  CACHECTR_MAXAGE +:+ Str.of_int n ≠ name) as Hname.
  { intros name Hp Heq. rewrite <- Heq in Hp.
    assert (String.prefix CACHECTR_MAXAGE (CACHECTR_MAXAGE +:+ Str.of_int n) = true)
      by (apply prefix_app; eauto).
    congruence. }
  do 2 rewrite decide_False by (apply Hname; reflexivity).
  rewrite decide_False by (intros [?|?]; by eapply Hname).
  do 2 rewrite decide_False by (apply Hname; reflexivity).
  rewrite decide_True by (apply find_at_front, prefix_app; eauto).
  by rewrite assign_max_age_text.
Qed.

(** X17. How [max-age] is read when every directive is one the parser
    knows. If the [Cache-Control] value consists of recognised directives,
    the last one that begins with [max-age=] being [max-age=N] with N written
    as a decimal number between 0 and [INT_MAX], then [max_age] is N. *)
Theorem max_age_is_the_last_max_age buf R value before n after :
  parseResponse new_Response buf = Some R →
  header R !! HEADER_CACHECTRL = Some value →
  directives value = before ++ (CACHECTR_MAXAGE +:+ Str.of_int n) :: after →
  0 ≤ n ≤ Str.INT_MAX →
  Forall recognised before →
  Forall (λ d, recognised d ∧ Str.find CACHECTR_MAXAGE d ≠ Some 0%nat) after →
  max_age R = n.
Proof.
  intros (r3 & Hd & Hh & HR)%parseResponse_directives Hvalue Hsplit Hn Hbefore Hafter.
  unfold directives_of in HR. injection HR as _ _ _ -> _ _.
  unfold parseCacheControl. rewrite Hh, Hvalue. unfold directives in Hsplit.
  apply fmap_app_inv in Hsplit as (raws1 & raws2 & -> & Hcons & ->).
  symmetry in Hcons.
  apply fmap_cons_inv in Hcons as (raw & raws3 & Hraw & -> & ->).
  rewrite Forall_fmap in Hbefore. rewrite Forall_fmap in Hafter.
  rewrite foldl_app. cbn [foldl].
  destruct (cc_directives_recognised raws1 r3 Hbefore) as [Hb1 _].
  destruct (foldl cc_directive (r3, false) raws1) as [r1 b1]. cbn [snd] in Hb1.
  subst b1. rewrite (cc_directive_max_age r1 n raw) by done.
  destruct (cc_directives_recognised raws3 (set_max_age n r1)) as [_ Hage].
  { eapply Forall_impl; [exact Hafter|]. by intros ? [? ?]. }
  assert (Forall (λ raw, Str.find CACHECTR_MAXAGE (trim_directive raw) ≠ Some 0%nat)
            raws3) as Hrest.
  { eapply Forall_impl; [exact Hafter|]. by intros ? [? ?]. }
  specialize (Hage Hrest). cbn [max_age set_max_age] in Hage.
  destruct (foldl cc_directive (set_max_age n r1, false) raws3) as [r4 b4].
  cbn [fst] in Hage. by destruct (negb _ && _ && _).
Qed.

(** * Properties of the proxy

    ** From the response of the server to the answer from the cache *)

(** X18. The life of a fresh response. A parsed response with status 200,
    public, whose mode is [CACHE_NORMAL], with a [Date] header and a positive
    [max_age], expires at the date plus [max_age] seconds; [handleCaching]
    logs it with that expiry time and stores it, and from then on [get]
    answers [VALID] with this response up to the expiry time and [EXPIRED]
    after it. *)
Theorem fresh_response_is_served buf R date u request_id now now' c log :
  parseResponse new_Response buf = Some R →
  status_code R = 200 → cache_visibility R = CACHE_PUBLIC →
  cache_mode R = CACHE_NORMAL →
  header R !! HEADER_DATE = Some date → max_age R > 0 →
  formatHTTPDate (parseHttpDate date + seconds (max_age R)) ≠ "" →
  expire_time R = formatHTTPDate (parseHttpDate date + seconds (max_age R))
  ∧ (handleCaching R u request_id now (c, log)).2
    = log ++ [(request_id, WILL_EXPIRE, expire_time R)]
  ∧ (get u now' (handleCaching R u request_id now (c, log)).1).1
    = (if decide (now' > parseHttpDate (expire_time R)) then EXPIRED else VALID,
       Some R).
Proof.
  intros Hparse Hcode Hvis Hmode Hdate Hage Hfmt.
  assert (expire_time R
          = formatHTTPDate (parseHttpDate date + seconds (max_age R))) as Hexp.
  { apply parseResponse_steps in Hparse as (l & ls & r2 & ls' & _ & _ & HR).
    set (r4 := parseCacheControl _) in HR.
    destruct (setExpiredTime_frame r4) as (Hhead & _ & Hdir).
    rewrite <- HR in Hhead, Hdir.
    assert (header r4 = header R ∧ max_age r4 = max_age R) as [Hh Ha].
    { unfold head_of, directives_of in *. split; congruence. }
    rewrite HR at 1. unfold setExpiredTime. rewrite Hh, Hdate, Ha.
    by rewrite decide_True. }
  assert (isCacheable R false = true) as Hcacheable.
  { unfold isCacheable. rewrite decide_False.
    - rewrite decide_False; [done|]. intros [Hp _]. by rewrite Hvis in Hp.
    - intros [?|Hs]; [done | by rewrite Hmode in Hs]. }
  assert (cache_mode R ≠ CACHE_NO_STORE) as Hstore by (by rewrite Hmode).
  unfold handleCaching. rewrite Hcacheable. cbn [negb fst snd].
  rewrite decide_True by congruence. split_and!; [done..|].
  pose proof (put_lookup_self u R now c Hstore) as Hput.
  rewrite get_unfold.
  destruct (cache_map (put u (Some R) now c) !! u) as [e|]; [|done].
  simpl in Hput. injection Hput as ->. unfold isExpired.
  rewrite decide_False by congruence.
  rewrite (decide_False (P := cache_mode R = CACHE_MUST_REVALIDATE))
    by (by rewrite Hmode).
  destruct (decide (now' > parseHttpDate (expire_time R))).
  - by rewrite bool_decide_eq_true_2.
  - by rewrite bool_decide_eq_false_2.
Qed.

(** ** The error responses of the proxy *)

Lemma rstrip_absent c s : ¬ occurs c s → rstrip c s = s.
Proof.
  induction s as [|a s IH]; simpl; [done|]. intros Hs.
  rewrite IH by prop. destruct s; [|done]. rewrite decide_False by prop. done.
Qed.

Lemma digits_plain c n :
  ¬ is_Some (Ascii.is_nat c) → ¬ occurs c (Str.digits n).
Proof. intros Hc [[]|?]%occurs_digits_go. done. Qed.

Lemma good_value_length n : good_value (Str.of_int (Z.of_nat n)).
Proof.
  unfold Str.of_int. rewrite decide_False by lia.
  assert (∀ c, ¬ is_Some (Ascii.is_nat c) → ¬ occurs c (Str.digits (Z.of_nat n)))
    as Hd by (intros c Hc; by apply digits_plain).
  split_and!.
  - apply rstrip_absent, Hd. by intros [? ?].
  - destruct (Str.digits (Z.of_nat n)) as [|a s] eqn:Heq; [done|].
    intros ->. apply (Hd " "%char); [by intros [? ?]|]. by left.
  - apply Hd. by intros [? ?].
Qed.

Lemma getlines_single d s :
  s ≠ "" → ¬ occurs d s → Str.getlines d s = [s].
Proof.
  induction s as [|a s IH]; [done|]. intros _ Hs. simpl in *.
  rewrite decide_False by prop. destruct s as [|b s]; [done|].
  rewrite IH; [done | done | prop].
Qed.

Lemma sendErrorResponse_text code reason :
  (sendErrorResponse code reason).1
  = ("HTTP/1.1" +:+ String " " (Str.of_int code +:+ String " " (reason +:+ String CR "")))
      +:+ String LF
            (headers_text (error_headers code reason)
               (String CR (String LF (error_body code reason)))).
Proof.
  unfold sendErrorResponse, error_headers, headers_text, header_text.
  cbn [fst snd]. fold (error_body code reason).
  generalize (Str.of_int (Z.of_nat (String.length (error_body code reason)))).
  intros len. generalize (error_body code reason). intros page.
  unfold CRLF. repeat rewrite ?append_cons, ?append_nil_l, ?append_assoc.
  reflexivity.
Qed.

(** [occurs c s] for a text [s] put together with [+:+] *)
Ltac occurs_parts := repeat first [rewrite occurs_app | progress simpl].

Lemma error_headers_good code reason : Forall good_entry (error_headers code reason).
Proof.
  unfold error_headers.
  constructor; [|constructor; [|constructor; [|constructor]]].
  - split; [split; simpl; prop_discriminate|].
    split_and!; [reflexivity | done | simpl; prop_discriminate].
  - split; [split; simpl; prop_discriminate|].
    split_and!; [reflexivity | done | simpl; prop_discriminate].
  - split; [split; simpl; prop_discriminate|]. apply good_value_length.
Qed.

Lemma error_body_no_LF code reason :
  ¬ occurs LF reason → ¬ occurs LF (error_body code reason).
Proof.
  intros Hr. unfold error_body. pose proof (of_int_no_LF code).
  occurs_parts. prop_discriminate.
Qed.

Lemma header_field_plain r k v :
  k ≠ HEADER_TRANSFER → k ≠ HEADER_CONTENT_LEN →
  header_field r k v = Some (set_header (<[k := v]> (header r)) r).
Proof.
  intros Ht Hl. unfold header_field.
  rewrite decide_False by (by intros [? _]). by rewrite decide_False.
Qed.

Lemma header_field_length r n :
  0 ≤ n ≤ Str.INT_MAX →
  header_field r HEADER_CONTENT_LEN (Str.of_int n)
  = Some (set_content_length n
            (set_header (<[HEADER_CONTENT_LEN := Str.of_int n]> (header r)) r)).
Proof.
  intros Hn. unfold header_field.
  rewrite decide_False by (by intros [? _]). rewrite decide_True by done.
  by rewrite stoi_of_int.
Qed.

(** X19. The error page [sendErrorResponse] sends is a response its own
    parser accepts: for a reason without line feed, [parseResponse] reads back
    the status code, finds the three headers, the last of them
    [Content-Length] with the number of bytes of the page, and takes the page
    as body (the line feed that [parseResponse] puts after every body line
    apart). The line logged is the status line. *)
Theorem sendErrorResponse_is_well_formed code reason :
  Str.INT_MIN ≤ code ≤ Str.INT_MAX → ¬ occurs LF reason →
  Z.of_nat (String.length (error_body code reason)) ≤ Str.INT_MAX →
  (sendErrorResponse code reason).2
  = "HTTP/1.1 " +:+ Str.of_int code +:+ " " +:+ reason
  ∧ ∃ R, parseResponse new_Response (sendErrorResponse code reason).1 = Some R
         ∧ status_code R = code
         ∧ header R = list_to_map (error_headers code reason)
         ∧ content_length R = Z.of_nat (String.length (error_body code reason))
         ∧ is_chunked R = false
         ∧ body R = error_body code reason +:+ String LF "".
Proof.
  intros Hcode Hreason Hlen. split; [done|].
  unfold parseResponse. rewrite sendErrorResponse_text.
  rewrite getlines_app_delim.
  2:{ pose proof (of_int_no_LF code). occurs_parts. prop_discriminate. }
  rewrite headers_text_lines by apply error_headers_good.
  change (String CR (String LF (error_body code reason)))
    with (String CR "" +:+ String LF (error_body code reason)).
  rewrite getlines_app_delim by (simpl; prop_discriminate).
  rewrite (getlines_single LF (error_body code reason));
    [|done|by apply error_body_no_LF].
  unfold parse_status_line.
  rewrite extract_word_text by (done || (simpl; prop)).
  rewrite extract_int_of_int by done.
  rewrite decide_False by (by destruct reason).
  rewrite header_loop_text by apply error_headers_good.
  unfold error_headers. cbn [header_fields fst snd].
  rewrite header_field_plain, bind_Some by done.
  rewrite header_field_plain, bind_Some by done.
  rewrite header_field_length, !bind_Some by lia.
  cbn [is_chunked set_content_length set_header set_status_message
         set_status_code set_http_version new_Response].
  eexists. split; [reflexivity|].
  split_and!; try reflexivity.
Qed.

(** ** The loop that relays a chunked body *)

Lemma bytes_of_snoc buffers buffer :
  bytes_of (buffers ++ [buffer]) = bytes_of buffers +:+ buffer.
Proof.
  induction buffers as [|b l IH]; simpl; [by rewrite append_nil_r|].
  by rewrite IH, append_assoc.
Qed.

Lemma chunk_loop_spec server_fd : ∀ response client_fd,
  ∃ n,
    (chunk_loop server_fd response client_fd).2 = client_fd ++ take n server_fd
    ∧ (chunk_loop server_fd response client_fd).1
      = response +:+ bytes_of (take n server_fd)
    ∧ Forall (λ buffer, buffer ≠ "") (take n server_fd)
    ∧ (∀ k, (0 < k < n)%nat →
            ¬ ends_chunked (response +:+ bytes_of (take k server_fd)))
    ∧ ((length server_fd ≤ n)%nat ∨ server_fd !! n = Some ""
       ∨ ((0 < n)%nat ∧ ends_chunked (chunk_loop server_fd response client_fd).1)).
Proof.
  induction server_fd as [|buffer rest IH]; intros response client_fd.
  { exists 0%nat. simpl. rewrite append_nil_r, app_nil_r.
    split_and!; [done..|intros; lia|left; lia]. }
  cbn [chunk_loop]. case_decide as Hempty.
  { exists 0%nat. simpl. rewrite append_nil_r, app_nil_r. subst buffer.
    split_and!; [done..|intros; lia|right; by left]. }
  case_decide as Hend.
  { exists 1%nat. simpl. rewrite append_nil_r.
    split_and!; [done|done|by repeat constructor|intros; lia|].
    right. right. split; [lia | done]. }
  destruct (IH (response +:+ buffer) (client_fd ++ [buffer]))
    as (n & Hsent & Hresp & Hall & Hbefore & Hstop).
  exists (S n). simpl. rewrite Hsent, Hresp, <- app_assoc, append_assoc.
  split_and!; [done|done|by constructor| |].
  - intros k Hk. destruct k as [|k]; [lia|]. simpl. rewrite <- append_assoc.
    destruct k as [|k].
    + simpl. by rewrite append_nil_r.
    + apply Hbefore. lia.
  - destruct Hstop as [?|[?|[? Hends]]].
    + left. lia.
    + right. by left.
    + right. right. split; [lia|]. by rewrite Hresp, append_assoc in Hends.
Qed.

(** X20. What [handleChunkResponse] returns and relays. It reads from the
    server until a [recv] brings nothing or the bytes received so far end
    with the last-chunk marker [0 CR LF CR LF], looked for in all the bytes
    received and not in the last buffer alone. The bytes it returns are the
    buffers read up to there, and exactly these buffers have been sent on to
    the client, in order. *)
Theorem handleChunkResponse_relays_what_it_returns server_fd :
  ∃ n,
    (handleChunkResponse server_fd).2 = take n server_fd
    ∧ (handleChunkResponse server_fd).1 = bytes_of (take n server_fd)
    ∧ Forall (λ buffer, buffer ≠ "") (take n server_fd)
    ∧ (∀ k, (0 < k < n)%nat → ¬ ends_chunked (bytes_of (take k server_fd)))
    ∧ ((length server_fd ≤ n)%nat ∨ server_fd !! n = Some ""
       ∨ ((0 < n)%nat ∧ ends_chunked (handleChunkResponse server_fd).1)).
Proof.
  destruct (chunk_loop_spec server_fd "" []) as (n & H1 & H2 & H3 & H4 & H5).
  exists n. unfold handleChunkResponse.
  split_and!; [exact H1 | exact H2 | exact H3 | exact H4 | exact H5].
Qed.

(** ** The status line that is sent on and logged *)

Lemma last_char_app s t : t ≠ "" → last_char (s +:+ t) = last_char t.
Proof.
  intros Ht. induction s as [|a s IH]; [done|].
  rewrite append_cons. cbn [last_char]. rewrite IH.
  destruct t as [|b t]; [done|]. cbn [last_char]. by destruct (last_char t).
Qed.

Lemma find_last_not_in_app set s t a :
  last_char s = Some a → Str.find_char a set = None →
  Str.find_last_not_in set t = None →
  Str.find_last_not_in set (s +:+ t) = Some (String.length s - 1)%nat.
Proof.
  intros Hlast Ha Ht. induction s as [|b s IH]; [done|].
  rewrite append_cons. cbn [Str.find_last_not_in last_char String.length] in *.
  destruct (last_char s) as [c|] eqn:Hs.
  - injection Hlast as ->. rewrite IH by done.
    destruct s as [|c s]; [discriminate Hs|]. cbn [String.length]. f_equal. lia.
  - destruct s as [|c s]; [|cbn [last_char] in Hs; by destruct (last_char s)].
    injection Hlast as ->.
    rewrite append_nil_l, Ht. by rewrite decide_True.
Qed.

Lemma parse_status_line_text r version n reason :
  version ≠ "" → wordlike version → Str.INT_MIN ≤ n ≤ Str.INT_MAX →
  parse_status_line r
    (version +:+ " " +:+ Str.of_int n +:+ " " +:+ reason +:+ String CR "")
  = set_status_message (" " +:+ reason +:+ String CR "")
      (set_status_code n (set_http_version version r)).
Proof.
  intros Hv Hw Hn. unfold parse_status_line.
  change (version +:+ " " +:+ Str.of_int n +:+ " " +:+ reason +:+ String CR "")
    with (version +:+ String " " (Str.of_int n
                                     +:+ String " " (reason +:+ String CR ""))).
  by rewrite extract_word_text, extract_int_of_int by done.
Qed.

(** X21. What becomes of the status line. For a buffer that begins with the
    line [version SP code SP reason CR LF], the parsed [status_message] is the
    reason with the space before it and the CR after it. So the text
    [toString] sends to the client begins with
    [version SP code SP SP reason CR CR LF], one space and one CR more than
    was received; and the line [processGet] and [processPost] log for a reason
    that ends in a visible character is [HTTP/1.1 SP code SP SP reason],
    whatever the version was. *)
Theorem status_line_gains_a_space_and_a_CR buf R version n reason rest :
  buf = version +:+ " " +:+ Str.of_int n +:+ " " +:+ reason +:+ CRLF +:+ rest →
  parseResponse new_Response buf = Some R →
  version ≠ "" → wordlike version → Str.INT_MIN ≤ n ≤ Str.INT_MAX →
  ¬ occurs LF reason →
  status_message R = " " +:+ reason +:+ String CR ""
  ∧ (∃ tail,
       toString R
       = version +:+ " " +:+ Str.of_int n +:+ "  " +:+ reason
           +:+ String CR CRLF +:+ tail)
  ∧ (ends_plain reason →
     response_status_line R = "HTTP/1.1 " +:+ Str.of_int n +:+ "  " +:+ reason).
Proof.
  intros -> Hparse Hv Hw Hn Hreason.
  apply parseResponse_steps in Hparse as (l & ls & r2 & ls' & Hlines & Hloop & HR).
  replace (version +:+ " " +:+ Str.of_int n +:+ " " +:+ reason +:+ CRLF +:+ rest)
    with ((version +:+ " " +:+ Str.of_int n +:+ " " +:+ reason +:+ String CR "")
            +:+ String LF rest) in Hlines
    by (unfold CRLF; by rewrite !append_assoc).
  rewrite getlines_app_delim in Hlines.
  2:{ pose proof (wordlike_no_LF _ Hw). pose proof (of_int_no_LF n).
      occurs_parts. prop_discriminate. }
  injection Hlines as <- <-.
  rewrite parse_status_line_text in Hloop by done.
  apply header_loop_status in Hloop. unfold status_of in Hloop.
  injection Hloop as Hcode Hmsg Hver _. simpl in Hcode, Hmsg, Hver.
  set (r3 := if is_chunked r2 then r2 else set_body _ r2) in HR.
  destruct (setExpiredTime_frame (parseCacheControl r3)) as (Hf1 & _ & _).
  destruct (parseCacheControl_frame r3) as (Hf2 & _ & _).
  assert (head_of r3 = head_of r2) as Hf3 by (subst r3; by destruct (is_chunked r2)).
  rewrite <- HR, Hf2, Hf3 in Hf1. unfold head_of in Hf1.
  injection Hf1 as HcodeR HmsgR HverR _ _ _.
  rewrite Hcode in HcodeR. rewrite Hmsg in HmsgR. rewrite Hver in HverR.
  split_and!; [done| |].
  - unfold toString. rewrite HcodeR, HmsgR, HverR. eexists.
    unfold CRLF. repeat rewrite ?append_cons, ?append_nil_l, ?append_assoc.
    reflexivity.
  - intros (a & Hlast & Hcr & Hlf & Hsp). unfold response_status_line.
    rewrite HcodeR, HmsgR. rewrite decide_True by done.
    replace ("HTTP/1.1 " +:+ Str.of_int n +:+ " " +:+ " " +:+ reason +:+ String CR "")
      with (("HTTP/1.1 " +:+ Str.of_int n +:+ "  " +:+ reason) +:+ String CR "")
      by (repeat rewrite ?append_cons, ?append_nil_l, ?append_assoc; reflexivity).
    assert (reason ≠ "") as Hne by (by destruct reason).
    rewrite (find_last_not_in_app _ _ _ a).
    + unfold Str.erase_after.
      assert (String.length ("HTTP/1.1 " +:+ Str.of_int n +:+ "  " +:+ reason) ≠ 0%nat)
        as Hlen by done.
      replace (S (String.length ("HTTP/1.1 " +:+ Str.of_int n +:+ "  " +:+ reason) - 1))
        with (String.length ("HTTP/1.1 " +:+ Str.of_int n +:+ "  " +:+ reason))
        by lia.
      apply take_app_length.
    + rewrite <- !append_assoc. by rewrite last_char_app.
    + simpl. by rewrite !decide_False by done.
    + reflexivity.
Qed.

(** ** The reasons [handleCaching] logs *)

Lemma parsed_no_store_flag buf R :
  parseResponse new_Response buf = Some R →
  cache_mode R = CACHE_NO_STORE → no_store R = true.
Proof.
  intros (r3 & Hd & Hh & HR)%parseResponse_directives.
  unfold directives_of in Hd, HR. simpl in Hd.
  injection Hd as Hs3 Hc3 Hm3 Ha3 Hmode3 Hv3.
  injection HR as -> _ _ _ -> _.
  unfold parseCacheControl.
  destruct (header r3 !! HEADER_CACHECTRL) as [value|]; [|by rewrite Hmode3].
  pose proof (cc_directives_inv (Str.getlines "," value) (r3, false)) as Hinv.
  cbv zeta in Hinv. cbn [fst] in Hinv.
  match type of Hinv with ?A → _ => assert A as Hstart end.
  { rewrite Hmode3, Hc3, Hm3, Hv3, Hs3. split_and!; auto.
    - done.
    - by intros [?|?].
    - by intros [?|?]. }
  destruct (Hinv Hstart) as (_ & Hfive & _).
  destruct (foldl cc_directive (r3, false) (Str.getlines "," value)) as [r1 b].
  cbn [fst] in *. by destruct (negb _ && _ && _).
Qed.

(** X22. What [handleCaching] logs for a response that was parsed from a
    buffer and is not cacheable: the reason is [status code is not 200 OK]
    for another status; else [no-store directive] when [no_store] is set;
    else the response is private and the reason is [unknow]. The reason
    [cache-control: no-store] is never logged: a parsed response whose mode
    is [CACHE_NO_STORE] has [no_store] set. In every case the cache is left
    as it was. *)
Theorem handleCaching_reasons buf R u request_id now c log :
  parseResponse new_Response buf = Some R →
  isCacheable R false = false →
  ∃ reason,
    handleCaching R u request_id now (c, log)
    = (c, log ++ [(request_id, NOT_CACHEABLE, reason)])
    ∧ reason ≠ "cache-control: no-store"
    ∧ (reason = "status code is not 200 OK" ↔ status_code R ≠ 200)
    ∧ (reason = "no-store directive" ↔ status_code R = 200 ∧ no_store R = true)
    ∧ (reason = "unknow"
       ↔ status_code R = 200 ∧ no_store R = false
         ∧ cache_visibility R = CACHE_PRIVATE).
Proof.
  intros Hparse Hno. pose proof (parsed_no_store_flag buf R Hparse) as Hflag.
  unfold handleCaching. rewrite Hno. cbn [negb]. eexists. split; [done|].
  revert Hno. unfold isCacheable.
  destruct (decide (status_code R ≠ 200)) as [Hcode|Hcode].
  { intros _. split_and!; [done|done|..]; split; try done; intros [? _]; done. }
  assert (status_code R = 200) as H200 by (destruct (decide (status_code R = 200)); done).
  destruct (no_store R) eqn:Hns.
  { intros _. split_and!; [done| |done|]; split; try done; intros [_ [? _]]; done. }
  destruct (decide (cache_mode R = CACHE_NO_STORE)) as [Hmode|Hmode].
  { by specialize (Hflag Hmode). }
  rewrite decide_False by (by intros [?|?]).
  case_decide as Hpriv; [|done]. intros _. destruct Hpriv as [Hpriv _].
  split_and!; [done | split; [done | by intros ?] | split; [done | by intros [_ ?]] | done].
Qed.

(** * What the proxy forwards

    ** The requests [parseRequest] produces can be written and read back *)

Lemma occurs_pop_back c d s : occurs c (Str.pop_back_if d s) → occurs c s.
Proof.
  induction s as [|a s IH]; [done|]. cbn [Str.pop_back_if].
  destruct s as [|b s].
  - by case_decide.
  - intros [?|?]; [by left | right; by apply IH].
Qed.

Lemma substr_Some n : ∀ s v, Str.substr n s = Some v → v = Str.drop n s.
Proof.
  induction n as [|n IH]; intros [|a s] v; simpl; try congruence. apply IH.
Qed.

Lemma header_value_plain line v :
  ¬ occurs LF line → Request.header_value line = Some v → plain_text v.
Proof.
  intros Hline. unfold Request.header_value. rewrite find_single.
  set (pos := match Str.find_char ":" line with Some i => S i | None => 0%nat end).
  destruct (Str.substr pos line) as [v0|] eqn:Hsub; [|done].
  rewrite bind_Some, erase_front_lstrip. intros [= <-].
  apply substr_Some in Hsub as ->.
  split; [apply no_leading_lstrip|].
  intros Hocc%occurs_lstrip%occurs_drop. done.
Qed.

Lemma no_leading_take c n s : no_leading c s → no_leading c (Str.take n s).
Proof. destruct s, n; simpl; auto. Qed.

Lemma request_inv_new text : request_inv (Request.new text).
Proof. unfold request_inv, plain_text. simpl. prop. Qed.

Lemma request_inv_parse_line b line r r' :
  ¬ occurs LF line → request_inv r →
  Request.parse_line b line r = Some r' → request_inv r'.
Proof.
  intros Hline (Hm & Hu & Hum & Hh & Hp & Ha & Hc & Hn & Hi).
  unfold Request.parse_line. destruct b.
  { intros [= <-]. unfold Request.setHeader.
    destruct (Str.extract_word line) as [[m rest]|] eqn:Hw1.
    2:{ unfold request_inv. simpl. prop. }
    apply extract_word_parts in Hw1 as (Hm1 & Hmw1 & _).
    destruct (Str.extract_word rest) as [[u rest']|] eqn:Hw2.
    2:{ unfold request_inv. simpl. prop. }
    apply extract_word_parts in Hw2 as (Hu1 & Huw1 & _).
    unfold request_inv. simpl. prop. }
  assert (∀ v, Request.header_value line = Some v → plain_text v) as Hv.
  { intros v. by apply header_value_plain. }
  repeat case_decide.
  - unfold Request.setHostnameAndPort.
    destruct (Request.header_value line) as [hostHeader|] eqn:Hhv; [|done].
    destruct (Hv _ eq_refl) as [Hlead Hlf]. rewrite bind_Some, find_single.
    destruct (Str.find_char ":" hostHeader) as [colonPos|] eqn:Hcolon.
    + pose proof (find_char_lt _ _ _ Hcolon). rewrite substr_drop by lia.
      rewrite bind_Some. intros [= <-]. unfold request_inv.
      cbn -[Str.drop Str.take].
      pose proof (find_char_take _ _ _ Hcolon).
      assert (plain_text (Str.take colonPos hostHeader)).
      { split; [by apply no_leading_take | by intros ?%occurs_take]. }
      assert (¬ occurs LF (Str.drop (S colonPos) hostHeader))
        by (by intros ?%occurs_drop).
      prop.
    + intros [= <-]. unfold request_inv. cbn.
      assert (plain_text hostHeader) by (by split).
      assert (¬ occurs ":" hostHeader).
      { clear -Hcolon. induction hostHeader as [|a s IH]; simpl in *; [prop|].
        case_decide; [done|]. destruct (Str.find_char ":" s); [done|].
        intros [?|?]; [done | by apply IH]. }
      prop.
  - destruct (Request.header_value line) as [v|] eqn:Hhv; [|done].
    rewrite bind_Some. intros [= <-]. pose proof (Hv _ eq_refl).
    unfold request_inv. cbn. prop.
  - destruct (Request.header_value line) as [v|] eqn:Hhv; [|done].
    rewrite bind_Some. intros [= <-]. pose proof (Hv _ eq_refl).
    unfold request_inv. cbn. prop.
  - destruct (Request.header_value line) as [v|] eqn:Hhv; [|done].
    rewrite bind_Some. intros [= <-]. pose proof (Hv _ eq_refl).
    unfold request_inv. cbn. prop.
  - destruct (Request.header_value line) as [v|] eqn:Hhv; [|done].
    rewrite bind_Some. intros [= <-]. pose proof (Hv _ eq_refl).
    unfold request_inv. cbn. prop.
  - intros [= <-]. unfold request_inv. prop.
Qed.

Lemma request_inv_parse_lines lines : ∀ b r r',
  Forall (λ l, ¬ occurs LF l) lines → request_inv r →
  Request.parse_lines b lines r = Some r' → request_inv r'.
Proof.
  induction lines as [|line lines IH]; intros b r r' Hlines Hr;
    cbn [Request.parse_lines].
  { by intros [= <-]. }
  apply Forall_cons in Hlines as [Hline Hlines].
  case_decide; [by intros [= <-]|].
  destruct (Request.parse_line b _ r) as [r1|] eqn:Hstep; [|done].
  rewrite bind_Some. apply IH; [done|].
  eapply request_inv_parse_line; [|done|exact Hstep].
  by intros ?%occurs_pop_back.
Qed.

(** X23. Every request [parseRequest] fills in from a text whose first line
    has a second word can be written and read back: its method and url are
    words, its host has no colon, and no member has a line feed or a space at
    its front. So what X1 says of [Request_line] holds for the requests the
    proxy forwards. *)
Theorem parsed_request_is_writable text r :
  Request.parseRequest (Request.new text) = Some r →
  Request.url r ≠ "" → writable r.
Proof.
  unfold Request.parseRequest. intros Hparse Hurl.
  apply request_inv_parse_lines in Hparse;
    [|apply getlines_no_delim|apply request_inv_new].
  destruct Hparse as (Hm & Hu & Hum & Hh & Hp & Ha & Hc & Hn & Hi).
  unfold writable. clear -Hm Hu Hum Hh Hp Ha Hc Hn Hi Hurl. prop.
Qed.

(** ** The conditional request *)

Lemma header_or_empty_plain buf R key :
  parseResponse new_Response buf = Some R → plain_text (header_or_empty key R).
Proof.
  intros (_ & (Hall & _) & _)%parseResponse_shape. unfold header_or_empty.
  destruct (header R !! key) as [v|] eqn:Hkey; [|split; simpl; [done | by intros ?]].
  destruct (Hall key v Hkey) as (_ & _ & Hlead & Hlf). by split.
Qed.

(** X24. The request sent to revalidate a cached response. The client
    request is taken to be one that can be written: its method and url are
    words that are not empty, its host has no colon, and no member has a line
    feed or a space at its front (X23: every request parsed from a text whose
    first line has a request target is such a request; one without request
    target is not). For such a request and a cached response that was parsed
    from a buffer, the text [processGet] sends to the origin server parses
    back to the method, url and host of the client, with the [ETag] of the
    cached response as [If-None-Match] and its [Last-Modified] as
    [If-Modified-Since]; a validator the cached response does not have is
    left as the client sent it. *)
Theorem revalidation_request_carries_the_validators buf cached request :
  parseResponse new_Response buf = Some cached → writable request →
  ∃ r',
    Request.parseRequest
      (Request.new (Request.Request_line (validation_request request cached)))
    = Some r'
    ∧ Request.method r' = Request.method request
    ∧ Request.url r' = Request.url request
    ∧ Request.host r' = Request.host request
    ∧ Request.IfNoneMatch r'
      = (if decide (getETag cached ≠ "") then getETag cached
         else Request.IfNoneMatch request)
    ∧ Request.IfModifiedSince r'
      = (if decide (getLastModified cached ≠ "") then getLastModified cached
         else Request.IfModifiedSince request).
Proof.
  intros Hparse Hw.
  pose proof (header_or_empty_plain buf cached HEADER_ETAG Hparse) as Hetag.
  pose proof (header_or_empty_plain buf cached HEADER_LAST_MODIFY Hparse) as Hlm.
  fold (getETag cached) in Hetag. fold (getLastModified cached) in Hlm.
  assert (writable (validation_request request cached)) as Hw'.
  { unfold validation_request, writable in *.
    repeat case_decide; cbn; clear -Hw Hetag Hlm; prop. }
  exists (read_back (validation_request request cached)).
  split; [by apply Request_line_read_back|].
  unfold validation_request. repeat case_decide; done.
Qed.

End Proxy.

(** * Concrete runs *)

(** a cache for one entry after two [put] calls *)
Abbreviation one_slot_cache :=
  (foldl (run_op seconds_parseHttpDate) (new_Cache 1 300 0) two_puts).

(** C1 at the response [Cache-Control: no-store]. *)
Lemma no_store_alone_witness :
  ∃ R, parseResponse seconds_parseHttpDate seconds_formatHTTPDate new_Response
         (response_with_cache_control "no-store") = Some R
       ∧ no_store R = true ∧ cache_mode R = CACHE_NORMAL
       ∧ cache_mode R ≠ CACHE_NO_STORE.
Proof.
  eexists. split; [vm_compute; reflexivity|].
  apply (no_store_alone_ends_as_normal seconds_parseHttpDate seconds_formatHTTPDate
           (response_with_cache_control "no-store") _ "no-store").
  - vm_compute. reflexivity.
  - vm_compute. reflexivity.
  - refine (bool_decide_unpack _ _). vm_compute. exact I.
  - refine (bool_decide_unpack _ _). vm_compute. exact I.
  - refine (bool_decide_unpack _ _). vm_compute. exact I.
  - refine (bool_decide_unpack _ _). vm_compute. exact I.
Defined.

(** a cache for two entries after two [put] calls *)
Abbreviation two_slot_cache :=
  (foldl (run_op seconds_parseHttpDate) (new_Cache 2 300 0) two_puts).

(** C2 at that cache, whose list holds [b] before [a]: a [get] for [a]
    answers [VALID] and leaves [a] before [b]. *)
Lemma get_classifies_witness :
  (get seconds_parseHttpDate "a" 3 two_slot_cache).1 = (VALID, Some fresh_response)
  ∧ lru_list two_slot_cache = ["b"] ++ "a" :: []
  ∧ lru_list (get seconds_parseHttpDate "a" 3 two_slot_cache).2
    = "a" :: ["b"] ++ [].
Proof.
  assert ((get seconds_parseHttpDate "a" 3 two_slot_cache).1
          = (VALID, Some fresh_response)) as Hvalid by (vm_compute; reflexivity).
  split; [exact Hvalid|]. split; [vm_compute; reflexivity|].
  apply (proj2 (get_classifies seconds_parseHttpDate "a" 3 two_slot_cache)
           fresh_response ["b"] []).
  - exact Hvalid.
  - vm_compute. reflexivity.
  - refine (bool_decide_unpack _ _). vm_compute. exact I.
  - refine (bool_decide_unpack _ _). vm_compute. exact I.
Defined.

(** C4 at a cache for one entry after two [put] calls. *)
Lemma size_never_exceeds_witness :
  (cache_size one_slot_cache ≤ 1)%nat ∧ max_entries one_slot_cache = 1%nat.
Proof.
  apply (size_never_exceeds_max_entries seconds_parseHttpDate 1 300 0).
  - lia.
  - apply reachable_op, reachable_op, reachable_new.
Defined.

(** C5 at the same cache. *)
Lemma keys_are_lru_elements_witness :
  cache_inv one_slot_cache
  ∧ cache_inv (get seconds_parseHttpDate "b" 3 one_slot_cache).2.
Proof.
  destruct (keys_are_lru_elements seconds_parseHttpDate) as (Hr & Hg & _).
  assert (cache_inv one_slot_cache) as Hc.
  { apply (Hr 1%nat 300 0). apply reachable_op, reachable_op, reachable_new. }
  split; [exact Hc | apply Hg, Hc].
Defined.

(** C6, as stated, fails for a cache built with [max_entries = 0]: the one
    url put is not among the 0 most recent ones, and [get] finds it. *)
Lemma most_recent_survive_fails_for_capacity_0 :
  (length ([] : list (string * Response * Z)) = 0%nat
   ∧ NoDup (urls [("a", fresh_response, 1)])
   ∧ cache_mode fresh_response ≠ CACHE_NO_STORE
   ∧ isExpired seconds_parseHttpDate 1 fresh_response = false)
  ∧ ¬ most_recent_survive_statement seconds_parseHttpDate 0 300 0
        [("a", fresh_response, 1)] [] [].
Proof.
  split.
  - split_and!; [done | | done | done].
    refine (bool_decide_unpack _ _). vm_compute. exact I.
  - intros [_ Hold]. specialize (Hold "a" fresh_response 1 2).
    assert (("a", fresh_response, 1) ∈ [("a", fresh_response, 1)]) as Hin by by left.
    apply Hold in Hin. vm_compute in Hin. discriminate.
Qed.

(** C6 at a cache for one entry: [a] put first, [b] second, then a [get]. *)
Lemma most_recent_survive_witness :
  most_recent_survive_statement seconds_parseHttpDate 1 300 0
    [("a", fresh_response, 1)] [("b", fresh_response, 2)] [OpGet "a" 3].
Proof.
  apply (most_recent_survive seconds_parseHttpDate 1 300 0
           [("a", fresh_response, 1)] [("b", fresh_response, 2)] [OpGet "a" 3]).
  - lia.
  - reflexivity.
  - refine (bool_decide_unpack _ _). vm_compute. exact I.
  - apply Forall_forall. refine (bool_decide_unpack _ _). vm_compute. exact I.
  - intros p q Hp Hq. revert q Hq. apply Forall_forall. revert p Hp.
    apply Forall_forall. refine (bool_decide_unpack _ _). vm_compute. exact I.
  - repeat constructor.
Defined.

(** C7 with a null response and with a [no-store] response. *)
Lemma put_no_store_witness :
  put seconds_parseHttpDate "c" None 5 one_slot_cache = one_slot_cache
  ∧ put seconds_parseHttpDate "c"
      (Some (set_cache_mode CACHE_NO_STORE fresh_response)) 5 one_slot_cache
    = one_slot_cache.
Proof.
  split; apply (put_no_store_is_noop seconds_parseHttpDate).
  - left. reflexivity.
  - right. eexists. split; reflexivity.
Defined.

(** C8, as stated, fails for a buffer with two [Transfer-Encoding] lines of
    which only the first has [chunked]: the parsed response is chunked, the
    one parsed from its text is not. *)
Lemma round_trip_fails_for_replaced_chunked :
  ¬ round_trip_statement seconds_parseHttpDate seconds_formatHTTPDate
      chunked_then_gzip.
Proof.
  intros Hclaim.
  destruct (parseResponse seconds_parseHttpDate seconds_formatHTTPDate
              new_Response chunked_then_gzip) as [R|] eqn:HR.
  2:{ vm_compute in HR. discriminate. }
  destruct (Hclaim R HR) as (R' & HR' & _ & _ & _ & Hch & _).
  vm_compute in HR. injection HR as <-.
  vm_compute in HR'. injection HR' as <-.
  vm_compute in Hch. discriminate.
Qed.

(** C8 at the response of the first scenario. *)
Lemma reparsing_toString_witness :
  ∃ R, parseResponse seconds_parseHttpDate seconds_formatHTTPDate new_Response
         scenario_response = Some R
       ∧ ∃ R', parseResponse seconds_parseHttpDate seconds_formatHTTPDate
                 new_Response (toString R) = Some R'
               ∧ status_code R' = status_code R
               ∧ header R' = header R
               ∧ body R' = body R
               ∧ content_length R' = content_length R
               ∧ is_chunked R' = header_chunked (header R)
               ∧ ((is_chunked R = true → header_chunked (header R) = true) →
                  is_chunked R' = is_chunked R).
Proof.
  eexists. split; [vm_compute; reflexivity|].
  apply (reparsing_toString seconds_parseHttpDate seconds_formatHTTPDate
           scenario_response).
  vm_compute. reflexivity.
Defined.

(** C9 at a [get] on a cache for one entry. *)
Lemma get_removes_nothing_witness :
  dom (cache_map (get seconds_parseHttpDate "b" 3 one_slot_cache).2)
  = dom (cache_map one_slot_cache)
  ∧ (∀ v, response <$> cache_map (get seconds_parseHttpDate "b" 3 one_slot_cache).2 !! v
          = response <$> cache_map one_slot_cache !! v)
  ∧ (∀ v, v ∈ lru_list (get seconds_parseHttpDate "b" 3 one_slot_cache).2
          ↔ v ∈ lru_list one_slot_cache)
  ∧ (∀ e, cache_map one_slot_cache !! "b" = Some e →
          isExpired seconds_parseHttpDate 3 (response e) = true →
          get seconds_parseHttpDate "b" 3 one_slot_cache
          = (EXPIRED, Some (response e), one_slot_cache)).
Proof.
  apply (get_removes_nothing seconds_parseHttpDate 1 300 0).
  apply reachable_op, reachable_op, reachable_new.
Defined.

(** C10 at a response [200] marked [private]. *)
Lemma private_response_witness :
  isCacheable private_response false = false
  ∧ ∃ reason,
      handleCaching seconds_parseHttpDate private_response "a" 7 4
        (one_slot_cache, [])
      = (one_slot_cache, [] ++ [(7, NOT_CACHEABLE, reason)]).
Proof.
  apply (private_response_not_cached seconds_parseHttpDate). reflexivity.
Defined.

(** ** The further properties at concrete inputs *)

(** a request as a browser sends it to a proxy *)
Abbreviation browser_request :=
  (Request.mk "" "" "example.org" "curl/8.5.0" "http://example.org/index.html"
     "keep-alive" "8080" "GET" "" "").

(** X1 at a request for [example.org:8080]. *)
Lemma parseRequest_Request_line_witness :
  Request.parseRequest (Request.new (Request.Request_line browser_request))
  = Some (read_back browser_request)
  ∧ Request.Request_line (read_back browser_request)
    = Request.Request_line browser_request.
Proof.
  apply (parseRequest_Request_line browser_request).
  unfold writable, plain_text. simpl. intuition discriminate.
Defined.

(** X6 at a fresh response put into a full cache. *)
Lemma get_after_put_witness :
  (get seconds_parseHttpDate "c" 3
     (put seconds_parseHttpDate "c" (Some fresh_response) 2 two_slot_cache)).1
  = (if isExpired seconds_parseHttpDate 3 fresh_response then EXPIRED
     else if decide (cache_mode fresh_response = CACHE_MUST_REVALIDATE)
          then REQUIRES_VALIDATION else VALID,
     Some fresh_response).
Proof.
  apply (get_after_put seconds_parseHttpDate "c" fresh_response 2 3 two_slot_cache).
  discriminate.
Defined.

(** X8 at a full cache for two entries: the url put first is evicted. *)
Lemma put_into_full_cache_witness :
  ∃ others victim,
    lru_list two_slot_cache = others ++ [victim]
    ∧ cache_map (put seconds_parseHttpDate "c" (Some fresh_response) 3 two_slot_cache)
      = <["c" := mkCacheEntry fresh_response "c" 0]>
          (delete victim (cache_map two_slot_cache))
    ∧ lru_list (put seconds_parseHttpDate "c" (Some fresh_response) 3 two_slot_cache)
      = "c" :: others.
Proof.
  apply (put_into_full_cache_evicts_the_last seconds_parseHttpDate
           two_slot_cache "c" fresh_response 3).
  - apply (reachable_cache_inv seconds_parseHttpDate 2 300 0).
    apply reachable_op, reachable_op, reachable_new.
  - vm_compute. lia.
  - vm_compute. reflexivity.
  - vm_compute. reflexivity.
  - discriminate.
  - refine (bool_decide_unpack _ _). vm_compute. exact I.
Defined.

(** X10 at the same cache: [a], the older url, is served and then outlives
    the [put] of a third url. *)
Lemma served_entry_survives_witness :
  response
    <$> cache_map
          (put seconds_parseHttpDate "c" (Some fresh_response) 4
             (get seconds_parseHttpDate "a" 3 two_slot_cache).2) !! "a"
  = Some fresh_response.
Proof.
  apply (served_entry_survives_next_put seconds_parseHttpDate
           two_slot_cache "a" 3 fresh_response "c" (Some fresh_response) 4).
  - apply (reachable_cache_inv seconds_parseHttpDate 2 300 0).
    apply reachable_op, reachable_op, reachable_new.
  - vm_compute. lia.
  - vm_compute. lia.
  - vm_compute. reflexivity.
  - discriminate.
  - vm_compute. reflexivity.
Defined.

(** X9 at the same cache: a [put] for [a], which is cached, leaves [b]. *)
Lemma put_keeps_fresh_entries_witness :
  cache_map (put seconds_parseHttpDate "a" (Some fresh_response) 3 two_slot_cache)
    !! "b"
  = Some (mkCacheEntry fresh_response "b" 0).
Proof.
  apply (put_keeps_fresh_entries seconds_parseHttpDate two_slot_cache "a"
           (Some fresh_response) 3 "b").
  - left. split; [eexists; vm_compute; reflexivity | vm_compute; lia].
  - discriminate.
  - vm_compute. reflexivity.
  - vm_compute. reflexivity.
Defined.

(** X7 at the same cache. *)
Lemma cache_never_holds_no_store_witness :
  ∃ e, cache_map two_slot_cache !! "a" = Some e
       ∧ cache_mode (response e) ≠ CACHE_NO_STORE ∧ url e = "a".
Proof.
  eexists. split; [vm_compute; reflexivity|].
  apply (cache_never_holds_no_store seconds_parseHttpDate 2 300 0 two_slot_cache).
  - apply reachable_op, reachable_op, reachable_new.
  - vm_compute. reflexivity.
Defined.

(** X12 at the response of the first scenario. *)
Lemma parsed_cache_mode_witness :
  ∃ R, parseResponse seconds_parseHttpDate seconds_formatHTTPDate new_Response
         scenario_response = Some R
       ∧ ((header R !! HEADER_CACHECTRL = None ∧ cache_mode R = 0
           ∧ no_store R = false ∧ no_cache R = false ∧ must_revalidate R = false
           ∧ max_age R = -1 ∧ cache_visibility R = CACHE_PUBLIC)
          ∨ (is_Some (header R !! HEADER_CACHECTRL) ∧ cache_mode R = CACHE_NORMAL
             ∧ no_cache R = false ∧ must_revalidate R = false)
          ∨ (is_Some (header R !! HEADER_CACHECTRL)
             ∧ cache_mode R = CACHE_MUST_REVALIDATE
             ∧ (no_cache R = true ∨ must_revalidate R = true))
          ∨ (is_Some (header R !! HEADER_CACHECTRL) ∧ cache_mode R = CACHE_NO_STORE
             ∧ no_store R = true ∧ (no_cache R = true ∨ must_revalidate R = true)))
       ∧ cache_mode R ≠ CACHE_IMMUTABLE
       ∧ (cache_visibility R = CACHE_PUBLIC ∨ cache_visibility R = CACHE_PRIVATE).
Proof.
  eexists. split; [vm_compute; reflexivity|].
  apply (parsed_cache_mode seconds_parseHttpDate seconds_formatHTTPDate
           scenario_response).
  vm_compute. reflexivity.
Defined.

(** X13 at [Cache-Control: no-cache, no-store]: [no-store] comes last and
    decides. *)
Lemma cache_mode_follows_last_directive_witness :
  ∃ R, parseResponse seconds_parseHttpDate seconds_formatHTTPDate new_Response
         (response_with_cache_control "no-cache, no-store") = Some R
       ∧ cache_mode R = CACHE_NO_STORE.
Proof.
  eexists. split; [vm_compute; reflexivity|].
  refine (proj2 (cache_mode_follows_last_directive seconds_parseHttpDate
                   seconds_formatHTTPDate
                   (response_with_cache_control "no-cache, no-store") _
                   "no-cache, no-store" _ _)
            ["no-cache"] "no-store" [] _ _ _ _).
  - vm_compute. reflexivity.
  - vm_compute. reflexivity.
  - vm_compute. reflexivity.
  - left. reflexivity.
  - constructor.
  - exists "no-cache". split; [|left; reflexivity].
    refine (bool_decide_unpack _ _). vm_compute. exact I.
Defined.

(** X14 at a response with [max-age] and no [Date]. *)
Lemma no_date_no_expires_witness :
  ∃ R, parseResponse seconds_parseHttpDate seconds_formatHTTPDate new_Response
         (response_with_cache_control "max-age=60") = Some R
       ∧ expire_time R = ""
       ∧ (∀ now, isExpired seconds_parseHttpDate now R = true)
       ∧ (∀ u now c e, cache_map c !! u = Some e → response e = R →
                       get seconds_parseHttpDate u now c = (EXPIRED, Some R, c))
       ∧ (∀ u now now' c, cache_mode R ≠ CACHE_NO_STORE →
            get seconds_parseHttpDate u now'
              (put seconds_parseHttpDate u (Some R) now c)
            = (EXPIRED, Some R, put seconds_parseHttpDate u (Some R) now c)).
Proof.
  eexists. split; [vm_compute; reflexivity|].
  apply (no_date_no_expires_is_always_expired seconds_parseHttpDate
           seconds_formatHTTPDate (response_with_cache_control "max-age=60")).
  - vm_compute. reflexivity.
  - vm_compute. reflexivity.
  - vm_compute. reflexivity.
Defined.

(** X15 at a chunked response. *)
Lemma chunked_body_witness :
  ∃ R, parseResponse seconds_parseHttpDate seconds_formatHTTPDate new_Response
         chunked_then_gzip = Some R
       ∧ (is_chunked R = true →
          body R = "" ∧ body (addChunkedData chunked_end R) = chunked_end)
       ∧ (is_chunked R = false → addChunkedData chunked_end R = R).
Proof.
  eexists. split; [vm_compute; reflexivity|].
  apply (chunked_body_is_the_chunks seconds_parseHttpDate seconds_formatHTTPDate
           chunked_then_gzip).
  vm_compute. reflexivity.
Defined.

(** X16 at a body of three bytes. *)
Lemma addResponseBody_witness :
  body (addResponseBody "abc" new_Response) = body new_Response +:+ "abc"
  ∧ (header (addResponseBody "abc" new_Response) !! HEADER_CONTENT_LEN) ≫= Str.stoi
    = Some (Z.of_nat (String.length (body (addResponseBody "abc" new_Response))))
  ∧ (∀ k, k ≠ HEADER_CONTENT_LEN →
          header (addResponseBody "abc" new_Response) !! k = header new_Response !! k)
  ∧ content_length (addResponseBody "abc" new_Response) = content_length new_Response.
Proof.
  apply (addResponseBody_sets_content_length "abc" new_Response).
  vm_compute. discriminate.
Defined.

(** X17 at the response of the first scenario. *)
Lemma max_age_witness :
  ∃ R, parseResponse seconds_parseHttpDate seconds_formatHTTPDate new_Response
         scenario_response = Some R
       ∧ max_age R = 60.
Proof.
  eexists. split; [vm_compute; reflexivity|].
  apply (max_age_is_the_last_max_age seconds_parseHttpDate seconds_formatHTTPDate
           scenario_response _ "max-age=60" [] 60 []).
  - vm_compute. reflexivity.
  - vm_compute. reflexivity.
  - vm_compute. reflexivity.
  - vm_compute. split; discriminate.
  - constructor.
  - constructor.
Defined.

(** X18 at the response of the first scenario. *)
Lemma fresh_response_witness :
  ∃ R, parseResponse seconds_parseHttpDate seconds_formatHTTPDate new_Response
         scenario_response = Some R
       ∧ expire_time R
         = seconds_formatHTTPDate (seconds_parseHttpDate "0" + seconds (max_age R))
       ∧ (handleCaching seconds_parseHttpDate R "x.test/a" 1 (seconds 1)
            (new_Cache 50 300 0, [])).2
         = [] ++ [(1, WILL_EXPIRE, expire_time R)]
       ∧ (get seconds_parseHttpDate "x.test/a" (seconds 2)
            (handleCaching seconds_parseHttpDate R "x.test/a" 1 (seconds 1)
               (new_Cache 50 300 0, [])).1).1
         = (if decide (seconds 2 > seconds_parseHttpDate (expire_time R))
            then EXPIRED else VALID,
            Some R).
Proof.
  eexists. split; [vm_compute; reflexivity|].
  apply (fresh_response_is_served seconds_parseHttpDate seconds_formatHTTPDate
           scenario_response).
  - vm_compute. reflexivity.
  - vm_compute. reflexivity.
  - vm_compute. reflexivity.
  - vm_compute. reflexivity.
  - vm_compute. reflexivity.
  - vm_compute. reflexivity.
  - vm_compute. discriminate.
Defined.

(** X19 at [502 Bad Gateway]. *)
Lemma sendErrorResponse_witness :
  (sendErrorResponse 502 "Bad Gateway").2
  = "HTTP/1.1 " +:+ Str.of_int 502 +:+ " " +:+ "Bad Gateway"
  ∧ ∃ R, parseResponse seconds_parseHttpDate seconds_formatHTTPDate new_Response
           (sendErrorResponse 502 "Bad Gateway").1 = Some R
         ∧ status_code R = 502
         ∧ header R = list_to_map (error_headers 502 "Bad Gateway")
         ∧ content_length R
           = Z.of_nat (String.length (error_body 502 "Bad Gateway"))
         ∧ is_chunked R = false
         ∧ body R = error_body 502 "Bad Gateway" +:+ String LF "".
Proof.
  apply (sendErrorResponse_is_well_formed seconds_parseHttpDate
           seconds_formatHTTPDate 502 "Bad Gateway").
  - vm_compute. split; discriminate.
  - simpl. intuition discriminate.
  - vm_compute. discriminate.
Defined.

(** X21 at the response of the first scenario. *)
Lemma status_line_witness :
  ∃ R, parseResponse seconds_parseHttpDate seconds_formatHTTPDate new_Response
         scenario_response = Some R
       ∧ status_message R = " " +:+ "OK" +:+ String CR ""
       ∧ (∃ tail,
            toString R
            = "HTTP/1.1" +:+ " " +:+ Str.of_int 200 +:+ "  " +:+ "OK"
                +:+ String CR CRLF +:+ tail)
       ∧ (ends_plain "OK" →
          response_status_line R = "HTTP/1.1 " +:+ Str.of_int 200 +:+ "  " +:+ "OK").
Proof.
  eexists. split; [vm_compute; reflexivity|].
  apply (status_line_gains_a_space_and_a_CR seconds_parseHttpDate
           seconds_formatHTTPDate scenario_response _ "HTTP/1.1" 200 "OK"
           ("Date: 0" +:+ CRLF +:+ "Cache-Control: max-age=60" +:+ CRLF
              +:+ "Content-Length: 3" +:+ CRLF +:+ CRLF +:+ "abc")).
  - vm_compute. reflexivity.
  - vm_compute. reflexivity.
  - discriminate.
  - simpl. intuition discriminate.
  - vm_compute. split; discriminate.
  - simpl. intuition discriminate.
Defined.

(** a request as the proxy receives it *)
Abbreviation client_text :=
  ("GET http://example.org/index.html HTTP/1.1" +:+ CRLF
     +:+ "Host: example.org:8080" +:+ CRLF
     +:+ "Accept: */*" +:+ CRLF +:+ CRLF).

(** X23 at that request. *)
Lemma parsed_request_is_writable_witness :
  ∃ r, Request.parseRequest (Request.new client_text) = Some r ∧ writable r.
Proof.
  eexists. split; [vm_compute; reflexivity|].
  apply (parsed_request_is_writable client_text).
  - vm_compute. reflexivity.
  - discriminate.
Defined.

(** a response that must be revalidated and has an entity tag *)
Abbreviation tagged_response :=
  ("HTTP/1.1 200 OK" +:+ CRLF +:+ "ETag: v1" +:+ CRLF
     +:+ "Cache-Control: no-cache" +:+ CRLF +:+ CRLF).

(** X24 at that response and the request for [example.org:8080]. *)
Lemma revalidation_request_witness :
  ∃ cached,
    parseResponse seconds_parseHttpDate seconds_formatHTTPDate new_Response
      tagged_response = Some cached
    ∧ ∃ r',
        Request.parseRequest
          (Request.new
             (Request.Request_line (validation_request browser_request cached)))
        = Some r'
        ∧ Request.method r' = Request.method browser_request
        ∧ Request.url r' = Request.url browser_request
        ∧ Request.host r' = Request.host browser_request
        ∧ Request.IfNoneMatch r'
          = (if decide (getETag cached ≠ "") then getETag cached
             else Request.IfNoneMatch browser_request)
        ∧ Request.IfModifiedSince r'
          = (if decide (getLastModified cached ≠ "") then getLastModified cached
             else Request.IfModifiedSince browser_request).
Proof.
  eexists. split; [vm_compute; reflexivity|].
  apply (revalidation_request_carries_the_validators seconds_parseHttpDate
           seconds_formatHTTPDate tagged_response).
  - vm_compute. reflexivity.
  - unfold writable, plain_text. simpl. intuition discriminate.
Defined.

(** X11 at the cache of two entries, both expired 1001 seconds after the
    epoch, when a sweep is due. *)
Lemma put_sweeps_when_due_witness :
  sweep_due (seconds 1001) two_slot_cache
  ∧ last_cleanup
      (put seconds_parseHttpDate "c" (Some fresh_response) (seconds 1001)
         two_slot_cache)
    = seconds 1001
  ∧ ∀ v e, v ≠ "c" →
      cache_map
        (put seconds_parseHttpDate "c" (Some fresh_response) (seconds 1001)
           two_slot_cache) !! v = Some e →
      isExpired seconds_parseHttpDate (seconds 1001) (response e) = false.
Proof.
  assert (sweep_due (seconds 1001) two_slot_cache) as Hdue
    by (vm_compute; reflexivity).
  split; [exact Hdue|].
  apply (put_sweeps_when_due seconds_parseHttpDate "c" fresh_response
           (seconds 1001) two_slot_cache).
  - vm_compute. discriminate.
  - exact Hdue.
Defined.

(** a response that forbids storing *)
Abbreviation no_store_reply :=
  ("HTTP/1.1 200 OK" +:+ CRLF +:+ "Cache-Control: no-cache, no-store" +:+ CRLF
     +:+ CRLF).

(** X22 at that response. *)
Lemma handleCaching_reasons_witness :
  ∃ R, parseResponse seconds_parseHttpDate seconds_formatHTTPDate new_Response
         no_store_reply = Some R
       ∧ ∃ reason,
           handleCaching seconds_parseHttpDate R "x.test/a" 1 (seconds 1)
             (new_Cache 50 300 0, [])
           = (new_Cache 50 300 0, [] ++ [(1, NOT_CACHEABLE, reason)])
           ∧ reason ≠ "cache-control: no-store"
           ∧ (reason = "status code is not 200 OK" ↔ status_code R ≠ 200)
           ∧ (reason = "no-store directive"
              ↔ status_code R = 200 ∧ no_store R = true)
           ∧ (reason = "unknow"
              ↔ status_code R = 200 ∧ no_store R = false
                ∧ cache_visibility R = CACHE_PRIVATE).
Proof.
  eexists. split; [vm_compute; reflexivity|].
  apply (handleCaching_reasons seconds_parseHttpDate seconds_formatHTTPDate
           no_store_reply).
  - vm_compute. reflexivity.
  - vm_compute. reflexivity.
Defined.

(** ** The scenarios of the specification *)

(** Scenario 1: the response is parsed, logged with its expiry time (the date
    plus [max-age]) and stored. *)
Example scenario_fresh_get :
  ∃ R, parseResponse seconds_parseHttpDate seconds_formatHTTPDate new_Response
         scenario_response = Some R
       ∧ status_code R = 200 ∧ content_length R = 3 ∧ max_age R = 60
       ∧ cache_mode R = CACHE_NORMAL ∧ expire_time R = "60"
       ∧ ∃ cache,
           handleCaching seconds_parseHttpDate R "x.test/a" 1 (seconds 1)
             (new_Cache 50 300 0, [])
           = (cache, [(1, WILL_EXPIRE, "60")])
           ∧ cache_size cache = 1%nat
           ∧ (get seconds_parseHttpDate "x.test/a" (seconds 2) cache).1
             = (VALID, Some R).
Proof.
  eexists. split; [vm_compute; reflexivity|].
  do 5 (split; [reflexivity|]).
  eexists. split; [vm_compute; reflexivity|].
  split; vm_compute; reflexivity.
Qed.

(** Scenario 4 as the code runs it: because of the slip of C1 a response
    [200] with [Cache-Control: no-store] passes [isCacheable] and is stored,
    and nothing is logged. *)
Example scenario_no_store_is_stored :
  ∃ R, parseResponse seconds_parseHttpDate seconds_formatHTTPDate new_Response
         (response_with_cache_control "no-store") = Some R
       ∧ isCacheable R false = true
       ∧ ∃ cache,
           handleCaching seconds_parseHttpDate R "x.test/a" 1 (seconds 1)
             (new_Cache 50 300 0, [])
           = (cache, [])
           ∧ cache_size cache = 1%nat.
Proof.
  eexists. split; [vm_compute; reflexivity|].
  split; [reflexivity|]. eexists. split; [vm_compute; reflexivity|].
  vm_compute. reflexivity.
Qed.

(** Scenario 5: with room for two entries the third [put] evicts the first
    url. *)
Example scenario_lru_eviction :
  let cache :=
    put_all seconds_parseHttpDate
      [("a.test/", fresh_response, seconds 1);
       ("b.test/", fresh_response, seconds 2);
       ("c.test/", fresh_response, seconds 3)]
      (new_Cache 2 300 0) in
  cache_size cache = 2%nat
  ∧ lru_list cache = ["c.test/"; "b.test/"]
  ∧ (get seconds_parseHttpDate "a.test/" (seconds 4) cache).1
    = (NOT_IN_CACHE, None)
  ∧ (get seconds_parseHttpDate "b.test/" (seconds 4) cache).1
    = (VALID, Some fresh_response).
Proof. vm_compute. split_and!; reflexivity. Qed.

(** An expired entry is answered [EXPIRED] by [get] and is swept by the next
    [put] that comes more than [cleanup_interval] after the last sweep. *)
Example scenario_expired_then_swept :
  let cache :=
    put seconds_parseHttpDate "a.test/" (Some fresh_response) (seconds 1)
      (new_Cache 2 300 0) in
  get seconds_parseHttpDate "a.test/" (seconds 2000) cache
  = (EXPIRED, Some fresh_response, cache)
  ∧ lru_list
      (put seconds_parseHttpDate "b.test/"
         (Some (set_expire_time "5000" new_Response)) (seconds 2000) cache)
    = ["b.test/"].
Proof. vm_compute. split; reflexivity. Qed.

(** [toString] writes the headers in the order of their keys, whatever the
    order they were received in. *)
Example toString_orders_headers :
  toString <$> parseResponse seconds_parseHttpDate seconds_formatHTTPDate
                 new_Response scenario_response
  = Some ("HTTP/1.1 200  OK" +:+ String CR CRLF
            +:+ "Cache-Control: max-age=60" +:+ CRLF
            +:+ "Content-Length: 3" +:+ CRLF
            +:+ "Date: 0" +:+ CRLF +:+ CRLF +:+ "abc" +:+ String LF "").
Proof. vm_compute. reflexivity. Qed.
